(** * LM Studio inline completions: the completion-request pipeline

    A shallow embedding of [src/extension.ts] (class [CompletionProvider]):
    the JavaScript string and regular-expression primitives the provider
    relies on, the context extractor, the prompt builder, the response
    sanitizer, and the debounce scheduler seen as an event-driven state
    machine over logical time. *)

From Stdlib Require Import String Ascii NArith ZArith Bool Lia Arith List.
Import ListNotations.

(** ** JavaScript strings

    A JavaScript string is a sequence of UTF-16 code units.  Literals of the
    source are written with [js]. *)

Module JS.

Local Open Scope N_scope.

Definition char := N.
Definition jsstring := list char.

Definition js (x : string) : jsstring :=
  map N_of_ascii (list_ascii_of_string x).

Arguments js x%_string.

Definition chr (a : ascii) : char := N_of_ascii a.
Arguments chr a%_char.

Definition dquote : char := 34.
Definition squote : char := 39.
Definition LF : char := 10.
Definition CR : char := 13.

Definition char_in (lo hi c : char) : bool := (lo <=? c) && (c <=? hi).

(** LineTerminator of the ECMAScript grammar. *)
Definition is_line_terminator (c : char) : bool :=
  (c =? 10) || (c =? 13) || (c =? 8232) || (c =? 8233).

(** WhiteSpace and LineTerminator: what [trim] strips and what [\s]
    matches. *)
Definition is_space (c : char) : bool :=
  char_in 9 13 c || (c =? 32) || (c =? 160) || (c =? 5760)
  || char_in 8192 8202 c || (c =? 8232) || (c =? 8233)
  || (c =? 8239) || (c =? 8287) || (c =? 12288) || (c =? 65279).

(** [\w] *)
Definition is_word (c : char) : bool :=
  char_in 97 122 c || char_in 65 90 c || char_in 48 57 c || (c =? 95).

(** [.] without the [s] flag *)
Definition is_dot (c : char) : bool := negb (is_line_terminator c).

Fixpoint eqb (a b : jsstring) : bool :=
  match a, b with
  | [], [] => true
  | x :: a', y :: b' => (x =? y) && eqb a' b'
  | _, _ => false
  end.

(** [s.startsWith(p)] *)
Fixpoint startsWith (p s : jsstring) : bool :=
  match p, s with
  | [], _ => true
  | x :: p', y :: s' => (x =? y) && startsWith p' s'
  | _ :: _, [] => false
  end.

(** [s.endsWith(p)] *)
Definition endsWith (p s : jsstring) : bool :=
  startsWith (rev p) (rev s).

(** [s.includes(p)] *)
Fixpoint includes (p s : jsstring) : bool :=
  startsWith p s ||
  match s with
  | [] => false
  | _ :: s' => includes p s'
  end.

(** [s.trimLeft()] *)
Fixpoint trimLeft (s : jsstring) : jsstring :=
  match s with
  | c :: s' => if is_space c then trimLeft s' else s
  | [] => []
  end.

Definition trimRight (s : jsstring) : jsstring := rev (trimLeft (rev s)).

(** [s.trim()] *)
Definition trim (s : jsstring) : jsstring := trimRight (trimLeft s).

(** [s.substring(0, n)] for a non-negative [n]: clamped to the length. *)
Definition substring0 (n : nat) (s : jsstring) : jsstring := firstn n s.

(** Truthiness of a string: [""] is the only falsy one. *)
Definition truthy (s : jsstring) : bool :=
  match s with [] => false | _ :: _ => true end.

(** [parts.join(sep)] *)
Fixpoint join (sep : jsstring) (parts : list jsstring) : jsstring :=
  match parts with
  | [] => []
  | [p] => p
  | p :: rest => p ++ sep ++ join sep rest
  end.

(** [s.split(sep)] for a one-unit separator: the pieces between the
    occurrences, the last one included. *)
Fixpoint split_on (sep : char) (s : jsstring) : list jsstring :=
  match s with
  | [] => [[]]
  | c :: s' =>
      if (c =? sep) then [] :: split_on sep s'
      else match split_on sep s' with
           | piece :: rest => (c :: piece) :: rest
           | [] => [[c]]
           end
  end.

(** [s.toLowerCase()] on the ASCII letters.  The provider only compares the
    result with ["ts"] and ["tsx"], and the letters t, s and x are the
    lower-case form of their ASCII capitals alone. *)
Definition toLowerCase (s : jsstring) : jsstring :=
  map (fun c => if char_in 65 90 c then c + 32 else c) s.

End JS.

(** ** Regular expressions

    The patterns of the source, as abstract syntax, and a backtracking
    matcher with the priorities of ECMAScript: alternatives left to right,
    greedy quantifiers longest first, lazy ones shortest first, an iteration
    of a quantified atom has to consume input. *)

Module RegExp.
Import JS.

Inductive regex : Type :=
| Eps
| Lit (c : char)
| Class (f : char -> bool)
| Cat (a b : regex)
| Alt (a b : regex)
| Star (greedy : bool) (a : regex)
| Group (n : nat) (a : regex)
| Backref (n : nat)
| Ahead (a : regex)
| Bol
| Eol.

(** [a+], [a?], a literal string, a negated one-character class. *)
Definition Plus (a : regex) : regex := Cat a (Star true a).
Definition Opt (a : regex) : regex := Alt a Eps.
Definition Str (x : string) : regex :=
  fold_right (fun c r => Cat (Lit c) r) Eps (js x).
Arguments Str x%_string.
Definition Seq (rs : list regex) : regex := fold_right Cat Eps rs.
Definition Not (c : char) : regex := Class (fun x => negb (x =? c)%N).
Definition OneOf (cs : list char) : regex :=
  Class (fun x => existsb (N.eqb x) cs).

Definition captures := list (nat * jsstring).

Definition capture (n : nat) (cs : captures) : option jsstring :=
  option_map snd (find (fun e => Nat.eqb (fst e) n) cs).

Definition last_char (prev : option char) (consumed : jsstring) : option char :=
  match rev consumed with
  | c :: _ => Some c
  | [] => prev
  end.

(** The text consumed between two suffixes of one input. *)
Definition consumed (rest rest' : jsstring) : jsstring :=
  firstn (length rest - length rest') rest.

Definition cont := option char -> jsstring -> captures ->
                   option (jsstring * captures).

Definition atom_matcher :=
  option char -> jsstring -> captures -> cont -> option (jsstring * captures).

(** The iterations of a quantified atom.  An iteration has to consume
    input, so there are at most as many as units left: that is the [fuel]
    the matcher gives. *)
Definition star_loop (atom : atom_matcher) (greedy : bool) (k : cont)
    : nat -> option char -> jsstring -> captures ->
      option (jsstring * captures) :=
  fix loop (fuel : nat) (prev : option char) (rest : jsstring)
      (cs : captures) {struct fuel} : option (jsstring * captures) :=
    match fuel with
    | O => k prev rest cs
    | S fuel' =>
        if greedy then
          match atom prev rest cs
                  (fun p r' c' =>
                     if length r' <? length rest
                     then loop fuel' p r' c' else None) with
          | Some res => Some res
          | None => k prev rest cs
          end
        else
          match k prev rest cs with
          | Some res => Some res
          | None =>
              atom prev rest cs
                (fun p r' c' =>
                   if length r' <? length rest
                   then loop fuel' p r' c' else None)
          end
    end.

(** [matcher ml r prev rest cs k]: match [r] at the position whose
    preceding unit is [prev] ([None] at index 0) and whose remaining input
    is [rest]; [k] matches what follows.  [ml] is the [m] flag. *)
Fixpoint matcher (ml : bool) (r : regex) (prev : option char)
    (rest : jsstring) (cs : captures) (k : cont) {struct r}
    : option (jsstring * captures) :=
  match r with
  | Eps => k prev rest cs
  | Lit c =>
      match rest with
      | x :: t => if (x =? c)%N then k (Some x) t cs else None
      | [] => None
      end
  | Class f =>
      match rest with
      | x :: t => if f x then k (Some x) t cs else None
      | [] => None
      end
  | Cat a b =>
      matcher ml a prev rest cs (fun p r' c' => matcher ml b p r' c' k)
  | Alt a b =>
      match matcher ml a prev rest cs k with
      | Some res => Some res
      | None => matcher ml b prev rest cs k
      end
  | Star greedy a =>
      star_loop (matcher ml a) greedy k (length rest) prev rest cs
  | Group n a =>
      matcher ml a prev rest cs
        (fun p r' c' => k p r' ((n, consumed rest r') :: c'))
  | Backref n =>
      match capture n cs with
      | Some sub =>
          if startsWith sub rest
          then k (last_char prev sub) (skipn (length sub) rest) cs
          else None
      | None => k prev rest cs
      end
  | Ahead a =>
      match matcher ml a prev rest cs (fun _ r' c' => Some (r', c')) with
      | Some (_, c') => k prev rest c'
      | None => None
      end
  | Bol =>
      match prev with
      | None => k prev rest cs
      | Some c => if ml && is_line_terminator c then k prev rest cs else None
      end
  | Eol =>
      match rest with
      | [] => k prev rest cs
      | c :: _ => if ml && is_line_terminator c then k prev rest cs else None
      end
  end.

(** One match: its start index, the matched text, the captures and the
    input left after it. *)
Record found := {
  index : nat;
  matched : jsstring;
  groups : captures;
  after : jsstring
}.

(** A match anchored at the current position ([y]-like). *)
Definition match_here (ml : bool) (r : regex) (prev : option char)
    (rest : jsstring) (idx : nat) : option found :=
  match matcher ml r prev rest [] (fun _ r' c' => Some (r', c')) with
  | Some (r', c') =>
      Some {| index := idx; matched := consumed rest r';
              groups := c'; after := r' |}
  | None => None
  end.

(** [RegExpBuiltinExec] without [g]/[y]: the leftmost position at which the
    pattern matches. *)
Fixpoint search (ml : bool) (r : regex) (prev : option char)
    (rest : jsstring) (idx : nat) {struct rest} : option found :=
  match match_here ml r prev rest idx with
  | Some f => Some f
  | None =>
      match rest with
      | [] => None
      | c :: t => search ml r (Some c) t (S idx)
      end
  end.

(** [s.match(r)] without the [g] flag. *)
Definition match_first (ml : bool) (r : regex) (s : jsstring) : option found :=
  search ml r None s 0.

(** [s.replace(r, by)] without the [g] flag; [by] holds no [$] pattern (the
    source only replaces by the empty string). *)
Definition replace (ml : bool) (r : regex) (by_ : jsstring) (s : jsstring)
    : jsstring :=
  match search ml r None s 0 with
  | Some f => firstn (index f) s ++ by_ ++ after f
  | None => s
  end.

(** The successive matches of a [g] pattern: after a match the search
    resumes at its end, one unit further when the match was empty. *)
Fixpoint scan (fuel : nat) (ml : bool) (r : regex) (prev : option char)
    (rest : jsstring) : list (jsstring * jsstring) * jsstring :=
  match fuel with
  | O => ([], rest)
  | S fuel' =>
      match search ml r prev rest 0 with
      | None => ([], rest)
      | Some f =>
          let before := firstn (index f) rest in
          match matched f, after f with
          | [], [] => ([(before, [])], [])
          | [], c :: t =>
              let '(ms, tail) := scan fuel' ml r (Some c) t in
              match ms with
              | (b, m) :: ms' => ((before, []) :: (c :: b, m) :: ms', tail)
              | [] => ([(before, [])], c :: tail)
              end
          | m, rest' =>
              let '(ms, tail) :=
                scan fuel' ml r (last_char prev (before ++ m)) rest' in
              ((before, m) :: ms, tail)
          end
      end
  end.

(** [s.replace(r, by)] with the [g] flag. *)
Definition replace_all (ml : bool) (r : regex) (by_ : jsstring) (s : jsstring)
    : jsstring :=
  let '(ms, tail) := scan (S (length s)) ml r None s in
  concat (map (fun bm => fst bm ++ by_) ms) ++ tail.

(** [s.match(r)] with the [g] flag, followed by [|| []]: the matched texts. *)
Definition match_all (ml : bool) (r : regex) (s : jsstring) : list jsstring :=
  map snd (fst (scan (S (length s)) ml r None s)).

(** [s.split(r)]: [SplitMatcher] is tried at every index [q >= p]; a match
    that ends at [p] is ignored. *)
Fixpoint split_loop (r : regex) (prev : option char) (rest : jsstring)
    (piece : jsstring) (skip : nat) {struct rest} : list jsstring :=
  match rest with
  | [] => [rev piece]
  | c :: t =>
      match skip with
      | S skip' => split_loop r (Some c) t piece skip'
      | O =>
          match match_here false r prev rest 0 with
          | Some f =>
              match matched f with
              | [] =>
                  match piece with
                  | [] => split_loop r (Some c) t [c] 0
                  | _ => rev piece :: split_loop r (Some c) t [c] 0
                  end
              | _ :: m =>
                  rev piece :: split_loop r (Some c) t [] (length m)
              end
          | None => split_loop r (Some c) t (c :: piece) 0
          end
      end
  end.

Definition split (r : regex) (s : jsstring) : list jsstring :=
  match s with
  | [] => match match_here false r None [] 0 with
          | Some _ => []
          | None => [[]]
          end
  | _ => split_loop r None s [] 0
  end.

End RegExp.

(** ** The editor's document, as the provider reads it *)

Module Editor.
Import JS.

(** [vscode.Position]: zero-based line and character. *)
Record Position := { line : nat; character : nat }.

(** [vscode.Range] *)
Record Range := { range_start : Position; range_end : Position }.

(** [vscode.TextDocument]: the line texts without their terminators, the
    end-of-line sequence of the file, its language id and its path. *)
Record TextDocument := {
  lines : list jsstring;
  eol : jsstring;
  languageId : jsstring;
  fsPath : jsstring
}.

(** [vscode.InlineCompletionItem] *)
Record InlineCompletionItem := { insertText : jsstring; range : Range }.

(** A value, or a thrown exception with its message. *)
Inductive Res (A : Type) : Type :=
| Ok (a : A)
| Throw (msg : jsstring).
Arguments Ok {A} a.
Arguments Throw {A} msg.

(** [document.lineAt(n).text]; throws when [n] is not a line of the
    document. *)
Definition lineAt (doc : TextDocument) (n : Z) : Res jsstring :=
  if (n <? 0)%Z then Throw (js "Illegal value for `line`")
  else match nth_error (lines doc) (Z.to_nat n) with
       | Some l => Ok l
       | None => Throw (js "Illegal value for `line`")
       end.

(** [document.getText(new Range(new Position(startLine, 0), pos))] for a
    position on a line of the document (the provider reads [lineAt] of that
    line first): the lines from [startLine] on, the last one cut at the
    cursor, joined by the end-of-line sequence. *)
Definition getText (doc : TextDocument) (startLine : nat) (pos : Position)
    : jsstring :=
  let full := skipn startLine (firstn (line pos) (lines doc)) in
  let cur := substring0 (character pos) (nth (line pos) (lines doc) []) in
  join (eol doc) (full ++ [cur]).

(** The position lies on a line of the document. *)
Definition valid_position (doc : TextDocument) (pos : Position) : Prop :=
  line pos < length (lines doc).

End Editor.

(** ** The completion provider *)

Module CompletionProvider.
Import JS RegExp Editor.

Definition DEBOUNCE_DELAY : Z := 300.
Definition CONTEXT_BLOCK_SIZE : Z := 20.
Definition REQUEST_TIMEOUT : Z := 10000.

Definition BASE_PROMPT_typescript : jsstring :=
  js "You are a TypeScript code completion AI. Generate TypeScript code with:
- Proper type annotations
- Interface definitions when needed
- Type-safe operations
- Modern TypeScript patterns".

Definition BASE_PROMPT_javascript : jsstring :=
  js "You are a JavaScript code completion AI. Generate JavaScript code with:
- ES6+ modern syntax
- No TypeScript types
- JavaScript-specific patterns
- Runtime-friendly code".

Definition SYSTEM_PROMPT : jsstring :=
  js "You are an expert TypeScript/JavaScript code completion AI. Your responses must ONLY contain pure code - no explanations, comments, or markdown.

Context Understanding:
- Parse and understand full project structure, dependencies, and patterns
- Analyze current file's imports, types, and component hierarchy
- Consider parent components, hooks usage, and state management
- Detect coding style, naming conventions, and architecture patterns

Code Generation Rules:
1. Output only valid, compilable TypeScript/JavaScript
2. Match project's type safety level and patterns
3. Complete full logical blocks (if started)
4. Follow established naming patterns
5. Use imported types/components correctly
6. Maintain consistent error handling
7. Complete proper React/Next.js/Nest.js patterns
8. Keep consistent state management approach
9. Use correct hook patterns and lifecycle
10. Follow existing project architecture

Framework-Specific Rules:
React/Next.js:
- Correct hooks order and dependencies
- Proper prop types and validation
- Consistent component patterns
- Proper data fetching patterns
- Efficient state updates
- Correct routing patterns

Database/API:
- Type-safe query building
- Proper error handling
- Consistent response formats
- Security best practices
- Proper transaction handling

Current Focus: Complete only the immediate code need, no explanations".

(** The retained last defined function. *)
Record FunctionInfo := {
  name : jsstring;
  params : list jsstring;
  returnType : option jsstring;
  decl_line : Z
}.

(** The fields of one provider instance.  [lastRequest] and
    [debounceTimeout] hold the identity of a cancel-token source and of a
    timer handle; [outputChannel] is the text appended so far. *)
Record Provider := {
  outputChannel : list jsstring;
  lastRequest : option nat;
  debounceTimeout : option nat;
  currentLanguage : jsstring;
  lastDefinedFunction : option FunctionInfo
}.

(** [new CompletionProvider()] *)
Definition new_provider : Provider :=
  {| outputChannel := [];
     lastRequest := None;
     debounceTimeout := None;
     currentLanguage := js "javascript";
     lastDefinedFunction := None |}.

Definition set_lastRequest (v : option nat) (p : Provider) : Provider :=
  {| outputChannel := outputChannel p; lastRequest := v;
     debounceTimeout := debounceTimeout p;
     currentLanguage := currentLanguage p;
     lastDefinedFunction := lastDefinedFunction p |}.

Definition set_debounceTimeout (v : option nat) (p : Provider) : Provider :=
  {| outputChannel := outputChannel p; lastRequest := lastRequest p;
     debounceTimeout := v;
     currentLanguage := currentLanguage p;
     lastDefinedFunction := lastDefinedFunction p |}.

Definition set_currentLanguage (v : jsstring) (p : Provider) : Provider :=
  {| outputChannel := outputChannel p; lastRequest := lastRequest p;
     debounceTimeout := debounceTimeout p;
     currentLanguage := v;
     lastDefinedFunction := lastDefinedFunction p |}.

Definition set_lastDefinedFunction (v : option FunctionInfo) (p : Provider)
    : Provider :=
  {| outputChannel := outputChannel p; lastRequest := lastRequest p;
     debounceTimeout := debounceTimeout p;
     currentLanguage := currentLanguage p;
     lastDefinedFunction := v |}.

(** [this.outputChannel.appendLine(text)] *)
Definition appendLine (text : jsstring) (p : Provider) : Provider :=
  {| outputChannel := outputChannel p ++ [text];
     lastRequest := lastRequest p;
     debounceTimeout := debounceTimeout p;
     currentLanguage := currentLanguage p;
     lastDefinedFunction := lastDefinedFunction p |}.

(** *** Methods run against the instance: state and exceptions *)

Definition M (A : Type) : Type := Provider -> Provider * Res A.

Definition ret {A} (a : A) : M A := fun p => (p, Ok a).
Definition throw {A} (msg : jsstring) : M A := fun p => (p, Throw msg).
Definition bind {A B} (c : M A) (k : A -> M B) : M B :=
  fun p => match c p with
           | (p', Ok a) => k a p'
           | (p', Throw msg) => (p', Throw msg)
           end.
Definition get : M Provider := fun p => (p, Ok p).
Definition modify (f : Provider -> Provider) : M unit :=
  fun p => (f p, Ok tt).
Definition lift {A} (r : Res A) : M A := fun p => (p, r).
(** [try { body } catch (error) { handler }] *)
Definition try_catch {A} (body : M A) (handler : jsstring -> M A) : M A :=
  fun p => match body p with
           | (p', Ok a) => (p', Ok a)
           | (p', Throw msg) => handler msg p'
           end.

Declare Scope m_scope.
Delimit Scope m_scope with M.
Notation "x <- c ;; k" := (bind c (fun x => k))
  (at level 61, c at next level, right associativity) : m_scope.
Notation "c ;;; k" := (bind c (fun _ => k))
  (at level 61, right associativity) : m_scope.
Local Open Scope m_scope.

(** *** Response sanitizer: [cleanCompletion] *)

(** [/```(?:typescript|javascript)?\n?/g] *)
Definition re_fence_lang : regex :=
  Seq [Str "```"; Opt (Alt (Str "typescript") (Str "javascript"));
       Opt (Lit LF)].
(** [/```\n?/g] *)
Definition re_fence : regex := Seq [Str "```"; Opt (Lit LF)].
(** [/^\n+/] *)
Definition re_leading_newlines : regex := Seq [Bol; Plus (Lit LF)].
(** [/\n+$/] *)
Definition re_trailing_newlines : regex := Seq [Plus (Lit LF); Eol].
(** [/^\s*\/\/.*$/gm] *)
Definition re_comment_line : regex :=
  Seq [Bol; Star true (Class is_space); Str "//"; Star true (Class is_dot);
       Eol].
(** [/^[^{]*{[^}]*}$/] *)
Definition re_single_block : regex :=
  Seq [Bol; Star true (Not (chr "{")); Lit (chr "{");
       Star true (Not (chr "}")); Lit (chr "}"); Eol].
(** [/console\.log\((Q)(.*?)\1\)/], [Q] the class of the double and the
    single quote *)
Definition re_console_log : regex :=
  Seq [Str "console.log("; Group 1 (OneOf [dquote; squote]);
       Group 2 (Star false (Class is_dot)); Backref 1; Lit (chr ")")].
(** [/: \w+(?=[\s,)])/g] *)
Definition re_type_annotation : regex :=
  Seq [Str ": "; Plus (Class is_word);
       Ahead (Class (fun c => is_space c || (c =? chr ",")%N
                                || (c =? chr ")")%N))].
(** [/<[^>]+>/g] *)
Definition re_generic : regex :=
  Seq [Lit (chr "<"); Plus (Not (chr ">")); Lit (chr ">")].
(** [/: \w+\[\]/g] *)
Definition re_array_annotation : regex :=
  Seq [Str ": "; Plus (Class is_word); Str "[]"].
(** [/interface \w+ {[^}]+}/g] *)
Definition re_interface : regex :=
  Seq [Str "interface "; Plus (Class is_word); Str " {";
       Plus (Not (chr "}")); Lit (chr "}")].

Definition group (n : nat) (f : found) : jsstring :=
  match capture n (groups f) with
  | Some x => x
  | None => []
  end.

(** The body of [cleanCompletion]; [language] is [this.currentLanguage]. *)
Definition cleanCompletion_in (language : jsstring) (completion : jsstring)
    : jsstring :=
  let cleaned :=
    replace_all true re_comment_line []
      (replace false re_trailing_newlines []
         (replace false re_leading_newlines []
            (replace_all false re_fence []
               (replace_all false re_fence_lang [] completion)))) in
  let cleaned :=
    if includes (js "function") cleaned && includes (js "{") cleaned then
      match match_first false re_single_block cleaned with
      | Some functionMatch => matched functionMatch
      | None => cleaned
      end
    else cleaned in
  match
    (if includes (js "console.log(") cleaned then
       match match_first false re_console_log cleaned with
       | Some stringMatch =>
           Some (js "console.log(" ++ [dquote] ++ group 2 stringMatch
                 ++ [dquote] ++ js ")")
       | None => None
       end
     else None)
  with
  | Some early => early
  | None =>
      if eqb language (js "javascript") then
        replace_all false re_interface []
          (replace_all false re_array_annotation []
             (replace_all false re_generic []
                (replace_all false re_type_annotation [] cleaned)))
      else cleaned
  end.

Definition cleanCompletion (completion : jsstring) : M jsstring :=
  p <- get ;; ret (cleanCompletion_in (currentLanguage p) completion).

(** *** Context extractor *)

(** The [while] loop of [getContextFromComments]; [fuel] bounds the number
    of iterations left. *)
Fixpoint comments_loop (fuel : nat) (doc : TextDocument) (posLine : Z)
    (lineNumber : Z) (context : jsstring) : Res jsstring :=
  match fuel with
  | O => Ok context
  | S fuel' =>
      if ((0 <=? lineNumber) && (posLine - 5 <? lineNumber))%Z then
        match lineAt doc lineNumber with
        | Throw msg => Throw msg
        | Ok text =>
            let line := trim text in
            if startsWith (js "//") line then
              comments_loop fuel' doc posLine (lineNumber - 1)
                (line ++ [LF] ++ context)
            else if truthy context then Ok context
            else comments_loop fuel' doc posLine (lineNumber - 1) context
        end
      else Ok context
  end.

(** The loop runs for the line numbers [position.line] down to
    [position.line - 4]: six units of fuel let it leave by its own test. *)
Definition getContextFromComments (doc : TextDocument) (pos : Position)
    : Res jsstring :=
  comments_loop 6 doc (Z.of_nat (line pos)) (Z.of_nat (line pos)) [].

(** [BASE_PROMPTS[language] || BASE_PROMPTS.javascript] *)
Definition base_prompt (language : jsstring) : jsstring :=
  if eqb language (js "typescript") then BASE_PROMPT_typescript
  else BASE_PROMPT_javascript.

(** [fsPath.split(".").pop()?.toLowerCase() || ""] *)
Definition fileExtension (doc : TextDocument) : jsstring :=
  match rev (split_on (chr ".") (fsPath doc)) with
  | ext :: _ => toLowerCase ext
  | [] => []
  end.

(** The language [getLanguageContext] settles on. *)
Definition detect_language (doc : TextDocument) : jsstring :=
  if eqb (languageId doc) (js "typescript")
     || eqb (fileExtension doc) (js "ts")
     || eqb (fileExtension doc) (js "tsx")
  then js "typescript" else js "javascript".

Definition getLanguageContext (doc : TextDocument)
    : M (jsstring * jsstring) :=
  let language := detect_language doc in
  modify (set_currentLanguage language) ;;;
  ret (language, base_prompt language).

Definition keyword_fn : regex :=
  Alt (Str "function") (Alt (Str "const") (Alt (Str "let") (Str "var"))).
Definition keyword_var : regex :=
  Alt (Str "const") (Alt (Str "let") (Str "var")).
Definition spaces : regex := Star true (Class is_space).
Definition spaces1 : regex := Plus (Class is_space).
Definition word1 : regex := Plus (Class is_word).
Definition param_list (n : nat) : regex :=
  Seq [Lit (chr "("); Group n (Star true (Not (chr ")"))); Lit (chr ")")].

(** The declaration pattern of [analyzeCodeBlock], flag [g].  Writing [W]
    for [\s+], [w] for a possibly empty run of [\s], [N] for the group
    [(\w+)] and [P] for a parenthesised group capturing any run of
    characters other than the closing parenthesis, it reads
    [(?:function|const|let|var) W N w (?:= w (?:async w)? P|(?:async w)? P)]. *)
Definition re_function_declaration : regex :=
  Seq [keyword_fn; spaces1; Group 1 word1; spaces;
       Alt (Seq [Lit (chr "="); spaces; Opt (Seq [Str "async"; spaces]);
                 param_list 2])
           (Seq [Opt (Seq [Str "async"; spaces]); param_list 3])].
(** The pattern applied to the last declaration, in the same writing:
    [N w (?:= w)? (?:async w)? P]. *)
Definition re_signature : regex :=
  Seq [Group 1 word1; spaces; Opt (Seq [Lit (chr "="); spaces]);
       Opt (Seq [Str "async"; spaces]); param_list 2].
(** [/(?:function|const|let|var)\s+(\w+)/g] *)
Definition re_declared_name : regex :=
  Seq [keyword_fn; spaces1; Group 1 word1].
(** [/(?:const|let|var)\s+(\w+)\s*=/g] *)
Definition re_declared_variable : regex :=
  Seq [keyword_var; spaces1; Group 1 word1; spaces; Lit (chr "=")].

Record Analysis := {
  functionNames : list jsstring;
  variables : list jsstring;
  codeIntent : jsstring;
  recentlyDefinedFunction : bool
}.

(** The text of the trailing window: from line
    [max(0, position.line - CONTEXT_BLOCK_SIZE)] to the cursor. *)
Definition contextText (doc : TextDocument) (pos : Position) : jsstring :=
  getText doc
    (Z.to_nat (Z.max 0 (Z.of_nat (line pos) - CONTEXT_BLOCK_SIZE))) pos.

Definition functionDeclarations (doc : TextDocument) (pos : Position)
    : list jsstring :=
  match_all false re_function_declaration (contextText doc pos).

(** The record [analyzeCodeBlock] stores for the declaration [lastFn]; the
    second group of [re_signature] takes part in every match. *)
Definition parse_declaration (lastFn : jsstring) (pos : Position)
    : option FunctionInfo :=
  match match_first false re_signature lastFn with
  | Some m =>
      Some {| name := group 1 m;
              params := map trim (split_on (chr ",") (group 2 m));
              returnType := None;
              decl_line := Z.of_nat (line pos) - 1 |}
  | None => None
  end.

(** Second element of [f.split(/\s+/)]; [join] prints a missing one as the
    empty string. *)
Definition second_word (f : jsstring) : jsstring :=
  nth 1 (split spaces1 f) [].

Definition analyzeCodeBlock (doc : TextDocument) (pos : Position)
    : M Analysis :=
  match rev (functionDeclarations doc pos) with
  | lastFn :: _ =>
      match parse_declaration lastFn pos with
      | Some info => modify (set_lastDefinedFunction (Some info))
      | None => ret tt
      end
  | [] => ret tt
  end ;;;
  p <- get ;;
  let recently :=
    match lastDefinedFunction p with
    | Some f => (decl_line f =? Z.of_nat (line pos) - 1)%Z
    | None => false
    end in
  let functionNames :=
    map second_word (match_all false re_declared_name (contextText doc pos)) in
  let variables :=
    map second_word
      (match_all false re_declared_variable (contextText doc pos)) in
  comments <- lift (getContextFromComments doc pos) ;;
  let codeIntent :=
    if truthy comments then comments else js "Continue the logical flow" in
  ret {| functionNames := functionNames; variables := variables;
         codeIntent := codeIntent; recentlyDefinedFunction := recently |}.

Definition isInsideComment (doc : TextDocument) (pos : Position) : Res bool :=
  match lineAt doc (Z.of_nat (line pos)) with
  | Throw msg => Throw msg
  | Ok text =>
      Ok (startsWith (js "//") (trimLeft (substring0 (character pos) text)))
  end.

(** Brace balance of the text before the cursor (computed by the provider,
    not used afterwards). *)
Definition isInsideFunction (currentLineUptoCursor : jsstring) : bool :=
  length (match_all false (Lit (chr "}")) currentLineUptoCursor)
  <? length (match_all false (Lit (chr "{")) currentLineUptoCursor).

(** *** Prompt builder *)

Definition exampleParam (param : jsstring) : jsstring :=
  if includes (js "number") param then js "42"
  else if includes (js "string") param then [dquote] ++ js "example" ++ [dquote]
  else if includes (js "array") param || includes (js "[]") param
       then js "[1, 2, 3]"
  else if includes (js "boolean") param then js "true"
  else js "undefined".

Definition generateFunctionUsageExample (func : FunctionInfo) : jsstring :=
  let exampleParams := map exampleParam (params func) in
  js "// Example usage:" ++ [LF]
  ++ name func ++ js "(" ++ join (js ", ") exampleParams ++ js ");" ++ [LF]
  ++ [LF]
  ++ js "// Test cases:" ++ [LF]
  ++ js "console.log(" ++ name func ++ js "(" ++ join (js ", ") exampleParams
  ++ js "));".

Definition usage_prompt (func : FunctionInfo) : jsstring :=
  js "Function " ++ name func ++ js " was just defined." ++ [LF]
  ++ js "Generate example usage and test cases." ++ [LF]
  ++ generateFunctionUsageExample func.

Definition general_prompt (doc : TextDocument) (pos : Position)
    (currentLine language : jsstring) (a : Analysis) : jsstring :=
  js "File type: " ++ language ++ [LF]
  ++ js "Code Context:" ++ [LF]
  ++ js "- Defined functions: " ++ join (js ", ") (functionNames a) ++ [LF]
  ++ js "- Available variables: " ++ join (js ", ") (variables a) ++ [LF]
  ++ js "- Current intent: " ++ codeIntent a ++ [LF]
  ++ [LF]
  ++ js "Previous code context:" ++ [LF]
  ++ getText doc (Z.to_nat (Z.max 0 (Z.of_nat (line pos) - 5))) pos ++ [LF]
  ++ [LF]
  ++ js "Current line:" ++ [LF]
  ++ currentLine ++ [LF]
  ++ [LF]
  ++ js "Instructions:
1. Continue the logical flow of the existing code
2. If a function was just defined, suggest its usage
3. Keep the context of the previously defined functions
4. Don't introduce unrelated concepts
5. Complete or use existing functions if appropriate

Complete this code:".

Definition buildCompletionPrompt (doc : TextDocument) (pos : Position)
    (currentLine commentContext language : jsstring) : M jsstring :=
  a <- analyzeCodeBlock doc pos ;;
  inside <- lift (isInsideComment doc pos) ;;
  if inside then
    ret (js "Complete this documentation comment:" ++ [LF] ++ currentLine)
  else
    p <- get ;;
    match recentlyDefinedFunction a, lastDefinedFunction p with
    | true, Some func => ret (usage_prompt func)
    | _, _ => ret (general_prompt doc pos currentLine language a)
    end.

(** *** The debounced body of [provideInlineCompletionItems] *)

(** The body sent to [/chat/completions]; model, temperature, token limit
    and [stream] are constants of the source. *)
Record CompletionRequest := {
  system_content : jsstring;
  user_content : jsstring
}.

(** How the awaited [axios.post] ends. *)
Inductive Outcome : Type :=
| Content (c : option jsstring)
    (** a response; [choices[0]?.message?.content], when it is there *)
| Malformed (msg : jsstring)
    (** a response whose shape makes reading it throw a [TypeError] *)
| Failed (msg : jsstring)
    (** a network error or a status outside 2xx *)
| TimedOut
    (** no answer within [REQUEST_TIMEOUT] *)
| Cancelled.
    (** rejected through the cancel token *)

(** What the body keeps across the [await]. *)
Record Awaited := {
  a_currentLineUptoCursor : jsstring;
  a_isEmptyLine : bool;
  a_commentContext : jsstring;
  a_position : Position
}.

(** Where the body stands when it first yields: returned, or waiting for
    the answer to a request. *)
Inductive Started : Type :=
| Returned (items : list InlineCompletionItem)
| Posted (request : CompletionRequest) (k : Awaited).

Definition systemPrompt (basePrompt : jsstring) : jsstring :=
  basePrompt ++ [LF] ++ SYSTEM_PROMPT ++ [LF] ++
  js "Additional Rules:
1. Always maintain context with previously defined functions
2. If a function was just defined, suggest its usage
3. Don't introduce unrelated concepts
4. Focus on completing or using existing code
5. Keep the logical flow of the current code block".

(** The [catch] clause for an error that is not a cancellation. *)
Definition on_error {A} (msg : jsstring) (empty : A) : M A :=
  modify (appendLine (js "Error: " ++ msg)) ;;; ret empty.

(** From the timer's callback to the [await] of the request; [source] is
    the identity of the cancel-token source created for it. *)
Definition pipeline_begin (source : nat) (doc : TextDocument) (pos : Position)
    : M Started :=
  currentLine <- lift (lineAt doc (Z.of_nat (line pos))) ;;
  let currentLineUptoCursor := substring0 (character pos) currentLine in
  commentContext <- lift (getContextFromComments doc pos) ;;
  let isEmptyLine := negb (truthy (trim currentLine)) in
  if negb (truthy commentContext) && negb isEmptyLine
     && (length (trim currentLineUptoCursor) <? 2)
  then ret (Returned [])
  else
    lc <- getLanguageContext doc ;;
    let '(language, basePrompt) := lc in
    try_catch
      (completionPrompt <-
         buildCompletionPrompt doc pos currentLineUptoCursor commentContext
           language ;;
       modify (set_lastRequest (Some source)) ;;;
       ret (Posted {| system_content := systemPrompt basePrompt;
                      user_content := completionPrompt |}
                   {| a_currentLineUptoCursor := currentLineUptoCursor;
                      a_isEmptyLine := isEmptyLine;
                      a_commentContext := commentContext;
                      a_position := pos |}))
      (fun msg => on_error msg (Returned [])).

(** [/\r\n/g] and [/^\s+/g] *)
Definition re_crlf : regex := Seq [Lit CR; Lit LF].
Definition re_leading_space : regex := Seq [Bol; Plus (Class is_space)].

(** The completion text once sanitized: [cleanCompletion], line endings,
    leading white space, and the closing of an open [console.log(] call. *)
Definition sanitize (language currentLineUptoCursor raw : jsstring)
    : jsstring :=
  let completion :=
    replace_all false re_leading_space []
      (replace_all false re_crlf [LF] (cleanCompletion_in language raw)) in
  if includes (js "console.log(") currentLineUptoCursor then
    let completion :=
      if negb (endsWith (js ")") completion)
      then completion ++ [dquote] ++ js ")" else completion in
    if negb (includes [dquote] completion)
       && negb (includes [squote] completion)
    then [dquote] ++ completion else completion
  else completion.

Definition quoted (label text : jsstring) : jsstring :=
  label ++ [dquote] ++ text ++ [dquote].

(** From the sanitized completion to the returned list. *)
Definition finalize (k : Awaited) (completion : jsstring)
    : M (list InlineCompletionItem) :=
  let currentLineUptoCursor := a_currentLineUptoCursor k in
  let position := a_position k in
  if a_isEmptyLine k && truthy (a_commentContext k) then
    ret [ {| insertText := completion;
             range := {| range_start := position; range_end := position |} |} ]
  else
    modify (appendLine (quoted (js "Current line: ") currentLineUptoCursor)) ;;;
    modify (appendLine (quoted (js "Completion: ") completion)) ;;;
    if eqb completion currentLineUptoCursor || negb (truthy (trim completion))
    then ret []
    else
      let completion :=
        if negb (startsWith (trimLeft currentLineUptoCursor) completion)
        then currentLineUptoCursor ++ completion else completion in
      modify (appendLine (quoted (js "Comment context: ")
                            (a_commentContext k))) ;;;
      modify (appendLine (quoted (js "Current line: ")
                            currentLineUptoCursor)) ;;;
      modify (appendLine (quoted (js "Completion: ") completion)) ;;;
      ret [ {| insertText := completion;
               range := {| range_start := {| line := line position;
                                             character := 0 |};
                           range_end := position |} |} ].

(** From the end of the [await] to the returned list. *)
Definition pipeline_finish (k : Awaited) (o : Outcome)
    : M (list InlineCompletionItem) :=
  match o with
  | Content (Some raw) =>
      if negb (truthy raw) then ret []
      else
        p <- get ;;
        finalize k (sanitize (currentLanguage p) (a_currentLineUptoCursor k)
                      raw)
  | Content None => ret []
  | Cancelled => ret []
  | Malformed msg => on_error msg []
  | Failed msg => on_error msg []
  | TimedOut => on_error (js "timeout of 10000ms exceeded") []
  end.

(** The whole body, for a timer that fires and a request that ends in
    [o]. *)
Definition pipeline (source : nat) (doc : TextDocument) (pos : Position)
    (o : Outcome) : M (list InlineCompletionItem) :=
  started <- pipeline_begin source doc pos ;;
  match started with
  | Returned items => ret items
  | Posted _ k => pipeline_finish k o
  end.

End CompletionProvider.

(** ** The request scheduler: [debounce] over logical time

    [provideInlineCompletionItems] wraps its body with [debounce] and calls
    the wrapper at once.  The host is modelled by the timers it has armed
    and the requests it has in flight; an invocation is identified by the
    handle of the timer it arms, and its promise is settled when the
    wrapper's [resolve] receives the body's result. *)

Module Scheduler.
Import JS Editor CompletionProvider.

(** One call of [provideInlineCompletionItems], with the way the model
    server would answer its request: after [latency] time units, with
    [outcome]. *)
Record Invocation := {
  document : TextDocument;
  position : Position;
  outcome : Outcome;
  latency : Z
}.

(** When and how the request of an invocation ends if nothing cancels it:
    [axios] gives up after [REQUEST_TIMEOUT]. *)
Definition answer (inv : Invocation) : Z * Outcome :=
  if (latency inv <? REQUEST_TIMEOUT)%Z
  then (Z.max 0 (latency inv), outcome inv)
  else (REQUEST_TIMEOUT, TimedOut).

Record Timer := { handle : nat; due : Z; callback : Invocation }.

Record Request := {
  source : nat;
  arrival : Z;
  result : Outcome;
  owner : nat;
  awaited : Awaited
}.

Inductive Settlement : Type :=
| Resolved (items : list InlineCompletionItem)
| Rejected (msg : jsstring).

Record World := {
  provider : Provider;
  timers : list Timer;
  requests : list Request;
  applied : list nat;
  settled : list (nat * Settlement);
  next : nat
}.

Definition init : World :=
  {| provider := new_provider; timers := []; requests := [];
     applied := []; settled := []; next := 0 |}.

Definition settlement (r : Res (list InlineCompletionItem)) : Settlement :=
  match r with
  | Ok items => Resolved items
  | Throw msg => Rejected msg
  end.

(** The body of a request resumes after its [await] with outcome [o], and
    the promise of its invocation is settled with what the body returns. *)
Definition resume (rq : Request) (o : Outcome) (w : World) : World :=
  let '(p, r) := pipeline_finish (awaited rq) o (provider w) in
  {| provider := p; timers := timers w; requests := requests w;
     applied := applied w;
     settled := settled w ++ [(owner rq, settlement r)];
     next := next w |}.

(** [clearTimeout(this.debounceTimeout)] *)
Definition clearTimeout (h : option nat) (ts : list Timer) : list Timer :=
  match h with
  | Some h => filter (fun tm => negb (handle tm =? h)) ts
  | None => ts
  end.

(** [this.lastRequest.cancel(...)]: the request of that source, if still
    in flight, is rejected with a cancellation. *)
Definition cancel (s : option nat) (w : World) : World :=
  match s with
  | Some s =>
      let hit := filter (fun rq => source rq =? s) (requests w) in
      let rest := filter (fun rq => negb (source rq =? s)) (requests w) in
      fold_left (fun w rq => resume rq Cancelled w) hit
        {| provider := provider w; timers := timers w; requests := rest;
           applied := applied w; settled := settled w; next := next w |}
  | None => w
  end.

(** A call of [provideInlineCompletionItems] at time [t]: the debounce
    wrapper clears the pending timer, cancels the last request and arms a
    timer for the body. *)
Definition trigger (t : Z) (inv : Invocation) (w : World) : World :=
  let w1 :=
    {| provider := provider w;
       timers := clearTimeout (debounceTimeout (provider w)) (timers w);
       requests := requests w; applied := applied w; settled := settled w;
       next := next w |} in
  let w2 := cancel (lastRequest (provider w1)) w1 in
  {| provider := set_debounceTimeout (Some (next w2)) (provider w2);
     timers := timers w2 ++ [ {| handle := next w2;
                                 due := t + DEBOUNCE_DELAY;
                                 callback := inv |} ];
     requests := requests w2; applied := applied w2; settled := settled w2;
     next := S (next w2) |}.

(** The timer [tm] fires: the body runs up to its first [await]. *)
Definition fire (tm : Timer) (w : World) : World :=
  let inv := callback tm in
  let ts := filter (fun x => negb (handle x =? handle tm)) (timers w) in
  let done := applied w ++ [handle tm] in
  match pipeline_begin (next w) (document inv) (position inv) (provider w) with
  | (p, Throw msg) =>
      {| provider := p; timers := ts; requests := requests w;
         applied := done;
         settled := settled w ++ [(handle tm, Rejected msg)];
         next := next w |}
  | (p, Ok (Returned items)) =>
      {| provider := p; timers := ts; requests := requests w;
         applied := done;
         settled := settled w ++ [(handle tm, Resolved items)];
         next := next w |}
  | (p, Ok (Posted _ k)) =>
      {| provider := p; timers := ts;
         requests := requests w ++
                     [ {| source := next w;
                          arrival := due tm + fst (answer inv);
                          result := snd (answer inv);
                          owner := handle tm;
                          awaited := k |} ];
         applied := done; settled := settled w; next := S (next w) |}
  end.

(** The answer to the request [rq] arrives. *)
Definition arrive (rq : Request) (w : World) : World :=
  resume rq (result rq)
    {| provider := provider w; timers := timers w;
       requests := filter (fun x => negb (source x =? source rq)) (requests w);
       applied := applied w; settled := settled w; next := next w |}.

Inductive Event : Type :=
| Fire (tm : Timer)
| Arrive (rq : Request).

Definition time_of (e : Event) : Z :=
  match e with
  | Fire tm => due tm
  | Arrive rq => arrival rq
  end.

Definition step (e : Event) (w : World) : World :=
  match e with
  | Fire tm => fire tm w
  | Arrive rq => arrive rq w
  end.

(** The earliest pending event, timers before answers at equal times. *)
Definition earliest (es : list Event) : option Event :=
  fold_left (fun best e =>
               match best with
               | None => Some e
               | Some b => if (time_of e <? time_of b)%Z then Some e
                           else Some b
               end) es None.

Definition pending (w : World) : list Event :=
  map Fire (timers w) ++ map Arrive (requests w).

(** The host runs what is due up to time [t]. *)
Fixpoint run_until (fuel : nat) (t : Z) (w : World) : World :=
  match fuel with
  | O => w
  | S fuel' =>
      match earliest (pending w) with
      | Some e => if (time_of e <=? t)%Z then run_until fuel' t (step e w)
                  else w
      | None => w
      end
  end.

(** A timer gives way to at most one request and a request to nothing. *)
Definition budget (w : World) : nat :=
  2 * length (timers w) + length (requests w).

Definition advance (t : Z) (w : World) : World := run_until (budget w) t w.

(** The host runs every pending event. *)
Fixpoint drain (fuel : nat) (w : World) : World :=
  match fuel with
  | O => w
  | S fuel' =>
      match earliest (pending w) with
      | Some e => drain fuel' (step e w)
      | None => w
      end
  end.

Definition settle (w : World) : World := drain (budget w) w.

(** The calls [(t, inv)], in the order of their times. *)
Definition run (calls : list (Z * Invocation)) (w : World) : World :=
  fold_left (fun w c => trigger (fst c) (snd c) (advance (fst c) w)) calls w.

(** Each call comes less than [DEBOUNCE_DELAY] after the one before. *)
Fixpoint rapid (t : Z) (calls : list (Z * Invocation)) : Prop :=
  match calls with
  | [] => True
  | (t', _) :: rest => (t <= t' < t + DEBOUNCE_DELAY)%Z /\ rapid t' rest
  end.

End Scheduler.

(** ** Notions used to state the properties *)

Module Notions.
Import JS RegExp Editor CompletionProvider Scheduler.

(** The provider once [analyzeCodeBlock] has scanned the window: it holds
    the parse of the last declaration matched, when there is one. *)
Definition retained (doc : TextDocument) (pos : Position) (p : Provider)
    : Provider :=
  match rev (functionDeclarations doc pos) with
  | lastFn :: _ =>
      match parse_declaration lastFn pos with
      | Some info => set_lastDefinedFunction (Some info) p
      | None => p
      end
  | [] => p
  end.

(** The test that makes the body return at once. *)
Definition too_short (currentLine commentContext : jsstring) (pos : Position)
    : bool :=
  negb (truthy commentContext) && negb (negb (truthy (trim currentLine)))
  && (length (trim (substring0 (character pos) currentLine)) <? 2).

(** The range from the start of the cursor's line to the cursor. *)
Definition whole_line (pos : Position) : Range :=
  {| range_start := {| line := line pos; character := 0 |};
     range_end := pos |}.

(** The empty range at the cursor. *)
Definition at_cursor (pos : Position) : Range :=
  {| range_start := pos; range_end := pos |}.

(** [rest'] is made of units of [rest] and is no longer. *)
Definition within (rest' rest : jsstring) : Prop :=
  (forall x, In x rest' -> In x rest) /\ length rest' <= length rest.

(** Two continuations that answer alike on inputs no longer than [rest]. *)
Definition agree_below (rest : jsstring) (k1 k2 : cont) : Prop :=
  forall p r' c', length r' <= length rest -> k1 p r' c' = k2 p r' c'.

(** An atom whose result depends on its continuation only through what it
    answers on inputs no longer than the atom's. *)
Definition extensional (atom : atom_matcher) : Prop :=
  forall prev rest cs (k1 k2 : cont),
    agree_below rest k1 k2 -> atom prev rest cs k1 = atom prev rest cs k2.

(** An atom whose matches are completed by its continuation, on part of
    its input. *)
Definition continues (atom : atom_matcher) : Prop :=
  forall prev rest cs (k : cont) res,
    atom prev rest cs k = Some res ->
    exists prev' rest' cs', k prev' rest' cs' = Some res /\ within rest' rest.

(** *** Text that [cleanCompletion] leaves as it is *)

(** The position after [prev] starts a line: it is the start of the text
    or follows a line terminator. *)
Definition line_start (prev : option char) : bool :=
  match prev with
  | None => true
  | Some c => is_line_terminator c
  end.

(** Some line of [s] begins, white space apart, with [//]; [prev] is the
    unit before [s]. *)
Fixpoint comment_line (prev : option char) (s : jsstring) : bool :=
  match s with
  | [] => false
  | c :: t =>
      (line_start prev && startsWith (js "//") (trimLeft s))
      || comment_line (Some c) t
  end.

(** [here] holds of [s] or of one of its suffixes. *)
Fixpoint anywhere (here : jsstring -> bool) (s : jsstring) : bool :=
  here s || match s with
            | _ :: t => anywhere here t
            | [] => false
            end.

(** [t] holds the quotation mark [q] followed by a closing parenthesis,
    with no line terminator before them. *)
Fixpoint closes (q : char) (t : jsstring) : bool :=
  startsWith [q; chr ")"] t
  || match t with
     | c :: t' => is_dot c && closes q t'
     | [] => false
     end.

(** [s] starts with a call of [console.log] on a quoted text: the text
    [console.log(], a quotation mark and, further on the line, the same
    quotation mark followed by a closing parenthesis. *)
Definition quoted_call_here (s : jsstring) : bool :=
  startsWith (js "console.log(") s
  && match skipn 12 s with
     | q :: t => ((q =? dquote)%N || (q =? squote)%N) && closes q t
     | [] => false
     end.

(** [t] starts with a possibly empty run of word characters after which
    [follows] holds. *)
Fixpoint word_then (follows : jsstring -> bool) (t : jsstring) : bool :=
  follows t
  || match t with
     | c :: t' => is_word c && word_then follows t'
     | [] => false
     end.

(** What ends a type annotation: a pair of square brackets, white space, a
    comma or a closing parenthesis. *)
Definition ends_annotation (t : jsstring) : bool :=
  startsWith (js "[]") t
  || match t with
     | c :: _ => is_space c || (c =? chr ",")%N || (c =? chr ")")%N
     | [] => false
     end.

(** [s] starts with a type annotation: a colon, a space, a word and what
    ends an annotation. *)
Definition annotation_here (s : jsstring) : bool :=
  startsWith (js ": ") s
  && match skipn 2 s with
     | w :: t => is_word w && word_then ends_annotation t
     | [] => false
     end.

(** [t] starts with a unit other than [c] and holds [c] further on. *)
Definition closed_by (c : char) (t : jsstring) : bool :=
  match t with
  | d :: t' => negb (d =? c)%N && existsb (N.eqb c) t'
  | [] => false
  end.

(** [s] starts with a less-than sign that a greater-than sign closes, with
    something in between. *)
Definition generic_here (s : jsstring) : bool :=
  match s with
  | c :: t => (c =? chr "<")%N && closed_by (chr ">") t
  | [] => false
  end.

(** [t] starts with a space and a non-empty block in braces. *)
Definition opens_block (t : jsstring) : bool :=
  startsWith (js " {") t && closed_by (chr "}") (skipn 2 t).

(** [s] starts with an interface declaration: the text [interface ], a
    word, a space and a non-empty block in braces. *)
Definition interface_here (s : jsstring) : bool :=
  startsWith (js "interface ") s
  && match skipn 10 s with
     | w :: t => is_word w && word_then opens_block t
     | [] => false
     end.

(** The call [console.log] on the text [g] in double quotes, as the
    sanitizer writes it. *)
Definition console_log_of (g : jsstring) : jsstring :=
  js "console.log(" ++ [dquote] ++ g ++ [dquote] ++ js ")".

(** The text [g] is on one line and holds no double quote followed by a
    closing parenthesis. *)
Definition one_argument (g : jsstring) : bool :=
  forallb is_dot g && negb (includes ([dquote] ++ js ")") g).

(** [y] is such a call, on such a text. *)
Definition normal_call (y : jsstring) : bool :=
  let g := firstn (length y - 15) (skipn 13 y) in
  eqb y (console_log_of g) && one_argument g.

(** Text in which the sanitizer finds nothing to strip or to rewrite: no
    code fence, no line feed at either end, no comment line; and either the
    text is a call of [console.log] as the sanitizer writes it, or it holds
    no call of [console.log] on a quoted text and, when the language is
    [javascript], no type annotation, no text between a less-than and a
    greater-than sign and no interface declaration. *)
Definition stable (language y : jsstring) : bool :=
  negb (includes (js "```") y)
  && negb (startsWith [LF] y) && negb (endsWith [LF] y)
  && negb (comment_line None y)
  && (normal_call y
      || (negb (anywhere quoted_call_here y)
          && (negb (eqb language (js "javascript"))
              || (negb (anywhere annotation_here y)
                  && negb (anywhere generic_here y)
                  && negb (anywhere interface_here y))))).

(** Single flight: at most one timer is armed and at most one request is
    in flight, never both; the provider holds their identities; identities
    already used lie below the next fresh one. *)
Definition well_formed (w : World) : Prop :=
  (timers w = []
   \/ exists tm, timers w = [tm]
                 /\ debounceTimeout (provider w) = Some (handle tm)
                 /\ requests w = [])
  /\ (requests w = []
      \/ exists rq, requests w = [rq]
                    /\ lastRequest (provider w) = Some (source rq))
  /\ (forall tm, In tm (timers w) -> handle tm < next w)
  /\ (forall rq, In rq (requests w) -> owner rq < next w)
  /\ (forall h, In h (applied w) -> h < next w)
  /\ (forall e, In e (settled w) -> fst e < next w).

(** The world once the request in flight, if any, has been cancelled. *)
Definition after_cancel (w : World) : World :=
  {| provider := provider w; timers := timers w; requests := [];
     applied := applied w;
     settled := settled w
                ++ map (fun rq => (owner rq, Resolved [])) (requests w);
     next := next w |}.

(** The world with the single timer [h] armed at time [t] for [inv]. *)
Definition armed (w : World) (h : nat) (t : Z) (inv : Invocation) : World :=
  {| provider := set_debounceTimeout (Some h) (provider w);
     timers := [ {| handle := h; due := t + DEBOUNCE_DELAY;
                    callback := inv |} ];
     requests := [];
     applied := applied w;
     settled := settled w;
     next := S h |}.

(** The last call of the burst that starts with [(t, inv)]. *)
Definition last_call (t : Z) (inv : Invocation) (calls : list (Z * Invocation))
    : Z * Invocation :=
  last calls (t, inv).

(** Promises are only ever resolved, with at most one suggestion; a body
    that was applied has returned or awaits its request; armed timers carry
    a cursor that lies in its document. *)
Definition answered (w : World) : Prop :=
  (forall e, In e (settled w) ->
     exists items, snd e = Resolved items /\ length items <= 1)
  /\ (forall h, In h (applied w) ->
        (exists s, In (h, s) (settled w))
        \/ (exists rq, In rq (requests w) /\ owner rq = h))
  /\ (forall tm, In tm (timers w) ->
        valid_position (document (callback tm)) (position (callback tm))).

(** The cursor of the call lies on a line of its document. *)
Definition valid_call (c : Z * Invocation) : Prop :=
  valid_position (document (snd c)) (position (snd c)).

(** [this.lastDefinedFunction] of the provider of [w]. *)
Definition retained_function (w : World) : option FunctionInfo :=
  lastDefinedFunction (provider w).

End Notions.

(** ** Sample documents, texts and calls *)

Module Samples.
Import JS RegExp Editor CompletionProvider Scheduler Notions.

(** A document of one language, its lines ended by line feeds. *)
Definition js_document (ls : list jsstring) : TextDocument :=
  {| lines := ls; eol := [LF]; languageId := js "javascript";
     fsPath := js "/work/sample.js" |}.

(** The position at line [l], character [c]. *)
Definition at_ (l c : nat) : Position := {| line := l; character := c |}.

(** An open call with an open string literal, and the call completed. *)
Definition open_console_log : jsstring := js "console.log(" ++ [dquote].

Definition console_log_hello : jsstring :=
  js "console.log(" ++ [dquote] ++ js "hello" ++ [dquote] ++ js ")".

(** A comment line. *)
Definition add_two_numbers : jsstring := js "// add two numbers".

(** A declaration, the prompt asking for its usage, and the record the
    provider retains for it. *)
Definition add_declaration : jsstring :=
  js "function add(a: number, b: number)".

Definition add_usage_prompt : jsstring :=
  js "Function add was just defined.
Generate example usage and test cases.
// Example usage:
add(42, 42);

// Test cases:
console.log(add(42, 42));".

Definition add_info (pos : Position) : FunctionInfo :=
  {| name := js "add";
     params := [js "a: number"; js "b: number"];
     returnType := None;
     decl_line := Z.of_nat (line pos) - 1 |}.

(** The same declaration with its body on the same line, where the body
    assigns a parenthesised sum to a constant; the prompt asking for the
    usage of that constant. *)
Definition add_with_local_sum : TextDocument :=
  js_document
    [js "function add(a: number, b: number) { const s = (a + b); return s; }";
     []].

Definition local_sum_usage_prompt : jsstring :=
  js "Function s was just defined.
Generate example usage and test cases.
// Example usage:
s(undefined);

// Test cases:
console.log(s(undefined));".

(** A typed statement inside a code fence. *)
Definition fenced_statement : jsstring :=
  js "```typescript
const total: number = add(1, 2);
```".

(** A typed function of several lines inside a code fence, and the
    function alone. *)
Definition fenced_function : jsstring :=
  js "```typescript
function half(a: number): number {
  return a / 2;
}
```".

Definition half_function : jsstring :=
  js "function half(a: number): number {
  return a / 2;
}".

(** A comment line followed by a line of code. *)
Definition comment_then_code : jsstring := js "// sum" ++ [LF] ++ js "done".

(** A call on an indented line, answered after 50 time units. *)
Definition sample_call : Invocation :=
  {| document := js_document [js "  foo"];
     position := at_ 0 5;
     outcome := Content (Some (js "bar"));
     latency := 50 |}.

(** The same call, left without an answer by the model server. *)
Definition slow_call : Invocation :=
  {| document := js_document [js "  foo"];
     position := at_ 0 5;
     outcome := Content (Some (js "bar"));
     latency := 60000 |}.

(** A call under a function declaration, and one on a line without any. *)
Definition add_call : Invocation :=
  {| document :=
       js_document [js "function add(a: number, b: number) {";
                    js "  return a + b;"; js "}"; []];
     position := at_ 3 0;
     outcome := Content None;
     latency := 10 |}.

Definition plain_call : Invocation :=
  {| document := js_document [js "total"];
     position := at_ 0 5;
     outcome := Content (Some (js " += 1"));
     latency := 10 |}.

End Samples.

(** ** Further notions *)

Module Coverage.
Import JS RegExp Editor CompletionProvider Scheduler Notions Samples.




(** No body is applied twice and no promise settled twice; what is pending
    has not been settled, and a pending timer has not been applied. *)
Definition settled_once (w : World) : Prop :=
  NoDup (applied w)
  /\ NoDup (map fst (settled w))
  /\ (forall tm, In tm (timers w) ->
        ~ In (handle tm) (applied w)
        /\ ~ In (handle tm) (map fst (settled w)))
  /\ (forall rq, In rq (requests w) ->
        ~ In (owner rq) (map fst (settled w))).

(** The provider's language is one of the two the source knows. *)
Definition known_language (p : Provider) : Prop :=
  currentLanguage p = js "javascript" \/ currentLanguage p = js "typescript".

(** The text made of the given lines, each followed by a line feed. *)
Definition comment_block (ls : list jsstring) : jsstring :=
  concat (map (fun l => l ++ [LF]) ls).

(** [l] is the trimmed text of a comment line among the five lines that end
    at the cursor's. *)
Definition collected_from (doc : TextDocument) (pos : Position)
    (l : jsstring) : Prop :=
  startsWith (js "//") l = true
  /\ exists n text,
       (Z.of_nat (line pos) - 4 <= n <= Z.of_nat (line pos))%Z
       /\ lineAt doc n = Ok text /\ l = trim text.

(** A document whose only declaration stands far above the cursor, and the
    record the provider retains for it. *)
Definition far_declaration : TextDocument :=
  js_document [js "const twice = async (n) => {"; js "  return 2 * n;";
               js "};"; []; []; []; []; js "total"].

Definition twice_info (pos : Position) : FunctionInfo :=
  {| name := js "twice"; params := [js "n"]; returnType := None;
     decl_line := Z.of_nat (line pos) - 1 |}.

(** A provider that retains [add] for line 2, and a document without any
    declaration. *)
Definition provider_with_add : Provider :=
  set_lastDefinedFunction (Some (add_info (at_ 3 0))) new_provider.

Definition other_document : TextDocument :=
  {| lines := [js "# Notes"; js "first"; js "second"; js "third"];
     eol := [LF]; languageId := js "markdown";
     fsPath := js "/work/NOTES.md" |}.

End Coverage.

(** * Properties *)

(** ** The context extractor never raises on a line of the document *)

Module ExtractorFacts.
Import JS RegExp Editor CompletionProvider Notions.

Lemma lineAt_valid (doc : TextDocument) (n : Z) :
  (0 <= n < Z.of_nat (length (lines doc)))%Z ->
  exists text, lineAt doc n = Ok text.
Proof.
  intros [Hlo Hhi]. unfold lineAt.
  destruct (n <? 0)%Z eqn:E; [apply Z.ltb_lt in E; lia|].
  destruct (nth_error (lines doc) (Z.to_nat n)) as [l|] eqn:El.
  - now exists l.
  - apply nth_error_None in El. lia.
Qed.

Lemma lineAt_position (doc : TextDocument) (pos : Position) :
  valid_position doc pos ->
  exists text, lineAt doc (Z.of_nat (line pos)) = Ok text.
Proof.
  unfold valid_position. intros H. apply lineAt_valid. lia.
Qed.

Lemma lineAt_Ok_valid (doc : TextDocument) (pos : Position) text :
  lineAt doc (Z.of_nat (line pos)) = Ok text -> valid_position doc pos.
Proof.
  unfold lineAt, valid_position.
  destruct (Z.of_nat (line pos) <? 0)%Z; [discriminate|].
  rewrite Nat2Z.id.
  destruct (nth_error (lines doc) (line pos)) eqn:E; [|discriminate].
  intros _. apply nth_error_Some. congruence.
Qed.

Lemma comments_loop_total (doc : TextDocument) (posLine : Z) :
  forall fuel lineNumber context,
    (lineNumber < Z.of_nat (length (lines doc)))%Z ->
    exists c, comments_loop fuel doc posLine lineNumber context = Ok c.
Proof.
  induction fuel as [|fuel IH]; intros lineNumber context Hlt;
    cbn [comments_loop].
  - now exists context.
  - destruct ((0 <=? lineNumber) && (posLine - 5 <? lineNumber))%Z eqn:C.
    + apply andb_true_iff in C. destruct C as [C0 _].
      apply Z.leb_le in C0.
      destruct (lineAt_valid doc lineNumber) as [text Ht]; [lia|].
      rewrite Ht.
      destruct (startsWith (js "//") (trim text)).
      * apply IH. lia.
      * destruct (truthy context); [now exists context|apply IH; lia].
    + now exists context.
Qed.

Lemma getContextFromComments_total (doc : TextDocument) (pos : Position) :
  valid_position doc pos ->
  exists c, getContextFromComments doc pos = Ok c.
Proof.
  unfold valid_position, getContextFromComments. intros H.
  apply comments_loop_total. lia.
Qed.

Lemma isInsideComment_total (doc : TextDocument) (pos : Position) :
  valid_position doc pos ->
  exists b, isInsideComment doc pos = Ok b.
Proof.
  intros H. destruct (lineAt_position doc pos H) as [text Ht].
  unfold isInsideComment. rewrite Ht. eauto.
Qed.

Lemma analyzeCodeBlock_run (doc : TextDocument) (pos : Position)
    (p : Provider) comments :
  getContextFromComments doc pos = Ok comments ->
  exists a,
    analyzeCodeBlock doc pos p = (retained doc pos p, Ok a)
    /\ codeIntent a =
       (if truthy comments then comments else js "Continue the logical flow")
    /\ recentlyDefinedFunction a =
       match lastDefinedFunction (retained doc pos p) with
       | Some f => (decl_line f =? Z.of_nat (line pos) - 1)%Z
       | None => false
       end.
Proof.
  intros Hc. unfold analyzeCodeBlock, retained, bind, get, lift, ret, modify.
  rewrite Hc.
  destruct (rev (functionDeclarations doc pos)) as [|lastFn others].
  - eexists. split; [reflexivity|]. split; reflexivity.
  - destruct (parse_declaration lastFn pos) as [info|].
    + eexists. split; [reflexivity|]. split; reflexivity.
    + eexists. split; [reflexivity|]. split; reflexivity.
Qed.

Lemma analyzeCodeBlock_state (doc : TextDocument) (pos : Position)
    (p : Provider) :
  fst (analyzeCodeBlock doc pos p) = retained doc pos p.
Proof.
  unfold analyzeCodeBlock, retained, bind, get, lift, ret, modify.
  destruct (rev (functionDeclarations doc pos)) as [|lastFn others].
  - destruct (getContextFromComments doc pos); reflexivity.
  - destruct (parse_declaration lastFn pos) as [info|];
      destruct (getContextFromComments doc pos); reflexivity.
Qed.

Lemma buildCompletionPrompt_state (doc : TextDocument) (pos : Position)
    currentLine commentContext language (p : Provider) :
  fst (buildCompletionPrompt doc pos currentLine commentContext language p)
  = retained doc pos p.
Proof.
  unfold buildCompletionPrompt, bind.
  pose proof (analyzeCodeBlock_state doc pos p) as Hs.
  destruct (analyzeCodeBlock doc pos p) as [p1 [a|msg]]; simpl in Hs; subst p1.
  - unfold lift, get, ret.
    destruct (isInsideComment doc pos) as [[|]|msg]; try reflexivity.
    destruct (recentlyDefinedFunction a); [|reflexivity].
    destruct (lastDefinedFunction (retained doc pos p)); reflexivity.
  - reflexivity.
Qed.

Lemma buildCompletionPrompt_total (doc : TextDocument) (pos : Position)
    currentLine commentContext language (p : Provider) :
  valid_position doc pos ->
  exists prompt,
    buildCompletionPrompt doc pos currentLine commentContext language p
    = (retained doc pos p, Ok prompt).
Proof.
  intros Hv.
  destruct (getContextFromComments_total doc pos Hv) as [comments Hc].
  destruct (isInsideComment_total doc pos Hv) as [inside Hi].
  destruct (analyzeCodeBlock_run doc pos p comments Hc) as [a [Ha _]].
  unfold buildCompletionPrompt, bind. rewrite Ha.
  unfold lift, get, ret. rewrite Hi.
  destruct inside; [eauto|].
  destruct (recentlyDefinedFunction a); [|eauto].
  destruct (lastDefinedFunction (retained doc pos p)); eauto.
Qed.

End ExtractorFacts.

(** ** The body of the provider *)

Module PipelineFacts.
Import JS RegExp Editor CompletionProvider Scheduler Notions Samples
       ExtractorFacts.

Lemma eqb_eq (a b : jsstring) : eqb a b = true <-> a = b.
Proof.
  revert b. induction a as [|x a IH]; intros [|y b]; simpl;
    try (split; [discriminate|discriminate]); [tauto|].
  rewrite andb_true_iff, N.eqb_eq, IH. split.
  - intros [-> ->]. reflexivity.
  - intros H. injection H. auto.
Qed.

Lemma truthy_false (s : jsstring) : truthy s = false <-> s = [].
Proof. destruct s; simpl; split; congruence. Qed.

Lemma startsWith_app (p s : jsstring) : startsWith p (p ++ s) = true.
Proof.
  induction p as [|x p IH]; simpl; [reflexivity|].
  now rewrite N.eqb_refl, IH.
Qed.

Lemma pipeline_begin_short source doc pos p
    (currentLine commentContext : jsstring) :
  lineAt doc (Z.of_nat (line pos)) = Ok currentLine ->
  getContextFromComments doc pos = Ok commentContext ->
  too_short currentLine commentContext pos = true ->
  pipeline_begin source doc pos p = (p, Ok (Returned [])).
Proof.
  intros Hl Hc Hs. unfold pipeline_begin, bind, lift.
  rewrite Hl, Hc. unfold too_short in Hs. rewrite Hs. reflexivity.
Qed.

Lemma pipeline_begin_posts source doc pos p
    (currentLine commentContext : jsstring) :
  lineAt doc (Z.of_nat (line pos)) = Ok currentLine ->
  getContextFromComments doc pos = Ok commentContext ->
  too_short currentLine commentContext pos = false ->
  exists prompt,
    pipeline_begin source doc pos p =
    (set_lastRequest (Some source)
       (retained doc pos (set_currentLanguage (detect_language doc) p)),
     Ok (Posted
           {| system_content := systemPrompt (base_prompt (detect_language doc));
              user_content := prompt |}
           {| a_currentLineUptoCursor :=
                substring0 (character pos) currentLine;
              a_isEmptyLine := negb (truthy (trim currentLine));
              a_commentContext := commentContext;
              a_position := pos |})).
Proof.
  intros Hl Hc Hs. unfold pipeline_begin, bind, lift.
  rewrite Hl, Hc. unfold too_short in Hs. rewrite Hs.
  unfold getLanguageContext, bind, modify, ret, try_catch.
  destruct (buildCompletionPrompt_total doc pos
              (substring0 (character pos) currentLine) commentContext
              (detect_language doc)
              (set_currentLanguage (detect_language doc) p)
              (lineAt_Ok_valid _ _ _ Hl)) as [prompt Hp].
  rewrite Hp. exists prompt. reflexivity.
Qed.

(** The list [finalize] returns. *)
Lemma finalize_result (k : Awaited) (completion : jsstring) (p : Provider) :
  snd (finalize k completion p) =
  Ok (if a_isEmptyLine k && truthy (a_commentContext k) then
        [ {| insertText := completion;
             range := {| range_start := a_position k;
                         range_end := a_position k |} |} ]
      else if eqb completion (a_currentLineUptoCursor k)
              || negb (truthy (trim completion))
      then []
      else
        [ {| insertText :=
               if negb (startsWith (trimLeft (a_currentLineUptoCursor k))
                          completion)
               then a_currentLineUptoCursor k ++ completion
               else completion;
             range :=
               {| range_start := {| line := line (a_position k);
                                    character := 0 |};
                  range_end := a_position k |} |} ]).
Proof.
  unfold finalize, bind, modify, ret.
  destruct (a_isEmptyLine k && truthy (a_commentContext k)); [reflexivity|].
  destruct (eqb completion (a_currentLineUptoCursor k)
            || negb (truthy (trim completion))); reflexivity.
Qed.

Lemma finalize_language (k : Awaited) (completion : jsstring) (p : Provider) :
  currentLanguage (fst (finalize k completion p)) = currentLanguage p
  /\ lastDefinedFunction (fst (finalize k completion p))
     = lastDefinedFunction p
  /\ lastRequest (fst (finalize k completion p)) = lastRequest p
  /\ debounceTimeout (fst (finalize k completion p)) = debounceTimeout p.
Proof.
  unfold finalize, bind, modify, ret.
  destruct (a_isEmptyLine k && truthy (a_commentContext k));
    [repeat split|].
  destruct (eqb completion (a_currentLineUptoCursor k)
            || negb (truthy (trim completion))); repeat split.
Qed.

(** The list the resumed body returns, for each way the request ends. *)
Lemma pipeline_finish_result (k : Awaited) (o : Outcome) (p : Provider) :
  snd (pipeline_finish k o p) =
  match o with
  | Content (Some raw) =>
      if negb (truthy raw) then Ok []
      else snd (finalize k (sanitize (currentLanguage p)
                              (a_currentLineUptoCursor k) raw) p)
  | _ => Ok []
  end.
Proof.
  destruct o as [[raw|]|msg|msg| |]; try reflexivity.
  unfold pipeline_finish. destruct (negb (truthy raw)); reflexivity.
Qed.

Lemma pipeline_finish_short (k : Awaited) (o : Outcome) (p : Provider) :
  exists items,
    snd (pipeline_finish k o p) = Ok items /\ length items <= 1.
Proof.
  rewrite pipeline_finish_result.
  assert (Hf : forall c, exists items,
             snd (finalize k c p) = Ok items /\ length items <= 1).
  { intros c. rewrite finalize_result. eexists. split; [reflexivity|].
    destruct (a_isEmptyLine k && truthy (a_commentContext k)); simpl; [lia|].
    destruct (eqb c (a_currentLineUptoCursor k) || negb (truthy (trim c)));
      simpl; lia. }
  destruct o as [[raw|]|msg|msg| |];
    try (exists []; split; [reflexivity|simpl; lia]).
  destruct (negb (truthy raw)); [exists []; split; [reflexivity|simpl; lia]|].
  apply Hf.
Qed.

(** The body never throws on a line of the document, and returns at most
    one suggestion, whatever the request ends in. *)
Lemma pipeline_total source doc pos (o : Outcome) (p : Provider) :
  valid_position doc pos ->
  exists items,
    snd (pipeline source doc pos o p) = Ok items /\ length items <= 1.
Proof.
  intros Hv.
  destruct (lineAt_position doc pos Hv) as [currentLine Hl].
  destruct (getContextFromComments_total doc pos Hv) as [commentContext Hc].
  unfold pipeline, bind.
  destruct (too_short currentLine commentContext pos) eqn:Hs.
  - rewrite (pipeline_begin_short source doc pos p _ _ Hl Hc Hs).
    exists []. split; [reflexivity|simpl; lia].
  - destruct (pipeline_begin_posts source doc pos p _ _ Hl Hc Hs) as [prompt Hb].
    rewrite Hb. apply pipeline_finish_short.
Qed.

(** C10. When the timer of an invocation fires, the comment context is
    empty, the current line is not blank and the text before the cursor
    trims to fewer than two characters, the body returns the empty list at
    once: the provider is left as it was (no prompt is built, no language
    or function recorded, no cancel source stored), and the scheduler
    settles the promise with the empty list without posting a request. *)
Theorem short_prefix_returns_empty source doc pos (p : Provider)
    (currentLine : jsstring) :
  lineAt doc (Z.of_nat (line pos)) = Ok currentLine ->
  getContextFromComments doc pos = Ok [] ->
  trim currentLine <> [] ->
  length (trim (substring0 (character pos) currentLine)) < 2 ->
  pipeline_begin source doc pos p = (p, Ok (Returned []))
  /\ (forall o, pipeline source doc pos o p = (p, Ok []))
  /\ (forall tm w,
        document (callback tm) = doc -> position (callback tm) = pos ->
        provider (fire tm w) = provider w
        /\ requests (fire tm w) = requests w
        /\ settled (fire tm w) = settled w ++ [(handle tm, Resolved [])]).
Proof.
  intros Hl Hc Hne Hlen.
  assert (Hs : too_short currentLine [] pos = true).
  { unfold too_short. destruct (trim currentLine); [congruence|]. simpl.
    apply Nat.ltb_lt. exact Hlen. }
  assert (Hb : forall src q,
             pipeline_begin src doc pos q = (q, Ok (Returned []))).
  { intros src q. exact (pipeline_begin_short src doc pos q _ _ Hl Hc Hs). }
  split; [apply Hb|]. split.
  - intros o. unfold pipeline, bind. rewrite Hb. reflexivity.
  - intros tm w Hd Hp. unfold fire. rewrite Hd, Hp, Hb. simpl. auto.
Qed.

Lemma short_prefix_returns_empty_witness :
  pipeline_begin 0 (js_document [js "x"]) (at_ 0 1) new_provider
  = (new_provider, Ok (Returned [])).
Proof.
  apply (short_prefix_returns_empty 0 (js_document [js "x"]) (at_ 0 1)
           new_provider (js "x")).
  - reflexivity.
  - reflexivity.
  - vm_compute. discriminate.
  - vm_compute. lia.
Defined.

(** *** The sanitized text against the text already typed *)

(** C4, as amended.  Outside the case of a blank current line under a
    comment context, when the sanitized completion equals the text typed up
    to the cursor, or trims to nothing, the body returns the empty list. *)
Theorem nothing_to_insert source doc pos (raw : jsstring) (p : Provider)
    (currentLine commentContext : jsstring) :
  lineAt doc (Z.of_nat (line pos)) = Ok currentLine ->
  getContextFromComments doc pos = Ok commentContext ->
  trim currentLine <> [] \/ commentContext = [] ->
  sanitize (detect_language doc) (substring0 (character pos) currentLine) raw
    = substring0 (character pos) currentLine
  \/ trim (sanitize (detect_language doc)
             (substring0 (character pos) currentLine) raw) = [] ->
  snd (pipeline source doc pos (Content (Some raw)) p) = Ok [].
Proof.
  intros Hl Hc Hgen Hsame. unfold pipeline, bind.
  destruct (too_short currentLine commentContext pos) eqn:Hs.
  - rewrite (pipeline_begin_short source doc pos p _ _ Hl Hc Hs). reflexivity.
  - destruct (pipeline_begin_posts source doc pos p _ _ Hl Hc Hs)
      as [prompt Hb].
    rewrite Hb, pipeline_finish_result.
    destruct (negb (truthy raw)); [reflexivity|].
    rewrite finalize_result. cbn [a_isEmptyLine a_commentContext
      a_currentLineUptoCursor a_position currentLanguage set_lastRequest].
    assert (Hlang : currentLanguage
              (retained doc pos (set_currentLanguage (detect_language doc) p))
              = detect_language doc).
    { unfold retained.
      destruct (rev (functionDeclarations doc pos)) as [|f fs];
        [reflexivity|].
      destruct (parse_declaration f pos); reflexivity. }
    rewrite Hlang.
    replace (negb (truthy (trim currentLine)) && truthy commentContext)
      with false.
    2:{ destruct Hgen as [Hne | ->].
        - destruct (trim currentLine); [congruence|reflexivity].
        - simpl. now rewrite andb_false_r. }
    set (c := sanitize _ _ raw) in *.
    replace (eqb c (substring0 (character pos) currentLine)
             || negb (truthy (trim c))) with true; [reflexivity|].
    destruct Hsame as [He | He].
    + apply eqb_eq in He. now rewrite He.
    + rewrite He. simpl. now rewrite orb_true_r.
Qed.

Lemma nothing_to_insert_witness :
  snd (pipeline 0 (js_document [js "foo"]) (at_ 0 3)
         (Content (Some (js "foo"))) new_provider) = Ok [].
Proof.
  apply (nothing_to_insert 0 (js_document [js "foo"]) (at_ 0 3) (js "foo")
           new_provider (js "foo") []).
  - reflexivity.
  - reflexivity.
  - left. vm_compute. discriminate.
  - left. vm_compute. reflexivity.
Defined.

(** C4 fails as stated: on a blank line under the comment
    [// add two numbers], a model answer made of a code fence alone is
    sanitized to the empty text, which is also the text typed before the
    cursor, and yet the body returns one suggestion, of the empty text. *)
Lemma empty_suggestion_under_comment :
  let doc := js_document [js "// add two numbers"; []] in
  let pos := at_ 1 0 in
  sanitize (detect_language doc) [] (js "```") = []
  /\ lineAt doc 1 = Ok []
  /\ snd (pipeline 0 doc pos (Content (Some (js "```"))) new_provider)
     = Ok [ {| insertText := []; range := at_cursor pos |} ].
Proof. vm_compute. repeat split. Qed.

(** What the body returns for an answer with content, when it reaches the
    request. *)
Lemma pipeline_content source doc pos (raw : jsstring) (p : Provider)
    (currentLine commentContext : jsstring) :
  lineAt doc (Z.of_nat (line pos)) = Ok currentLine ->
  getContextFromComments doc pos = Ok commentContext ->
  too_short currentLine commentContext pos = false ->
  raw <> [] ->
  snd (pipeline source doc pos (Content (Some raw)) p) =
  snd (finalize
         {| a_currentLineUptoCursor := substring0 (character pos) currentLine;
            a_isEmptyLine := negb (truthy (trim currentLine));
            a_commentContext := commentContext;
            a_position := pos |}
         (sanitize (detect_language doc)
            (substring0 (character pos) currentLine) raw)
         (set_lastRequest (Some source)
            (retained doc pos (set_currentLanguage (detect_language doc) p)))).
Proof.
  intros Hl Hc Hs Hraw. unfold pipeline, bind.
  destruct (pipeline_begin_posts source doc pos p _ _ Hl Hc Hs) as [prompt Hb].
  rewrite Hb, pipeline_finish_result.
  destruct raw as [|c raw]; [congruence|]. cbn [truthy negb].
  cbn [a_currentLineUptoCursor currentLanguage set_lastRequest].
  replace (currentLanguage
             (retained doc pos (set_currentLanguage (detect_language doc) p)))
    with (detect_language doc); [reflexivity|].
  unfold retained.
  destruct (rev (functionDeclarations doc pos)) as [|f fs]; [reflexivity|].
  destruct (parse_declaration f pos); reflexivity.
Qed.

(** C5, as amended.  In the general case (not a blank line under a comment
    context), a returned suggestion replaces the range from the start of
    the line to the cursor; when the sanitized completion does not start
    with the typed prefix stripped of its leading white space, the typed
    prefix is prepended as it stands; otherwise the completion is returned
    unchanged.  So the suggestion begins with the typed prefix whenever
    that prefix has no leading white space. *)
Theorem prefix_prepended source doc pos (raw : jsstring) (p : Provider)
    (currentLine commentContext : jsstring) item items :
  lineAt doc (Z.of_nat (line pos)) = Ok currentLine ->
  getContextFromComments doc pos = Ok commentContext ->
  trim currentLine <> [] \/ commentContext = [] ->
  snd (pipeline source doc pos (Content (Some raw)) p) = Ok items ->
  In item items ->
  let typed := substring0 (character pos) currentLine in
  let completion := sanitize (detect_language doc) typed raw in
  range item = whole_line pos
  /\ (startsWith (trimLeft typed) completion = false ->
      insertText item = typed ++ completion)
  /\ (startsWith (trimLeft typed) completion = true ->
      insertText item = completion)
  /\ (trimLeft typed = typed -> startsWith typed (insertText item) = true).
Proof.
  intros Hl Hc Hgen Hres Hin typed completion.
  destruct (too_short currentLine commentContext pos) eqn:Hs.
  { unfold pipeline, bind in Hres.
    rewrite (pipeline_begin_short source doc pos p _ _ Hl Hc Hs) in Hres.
    injection Hres as <-. destruct Hin. }
  assert (Hraw : raw = [] \/ raw <> [])
    by (destruct raw; [now left|right; discriminate]).
  destruct Hraw as [-> | Hraw].
  { unfold pipeline, bind in Hres.
    destruct (pipeline_begin_posts source doc pos p _ _ Hl Hc Hs)
      as [prompt Hb].
    rewrite Hb in Hres. injection Hres as <-. destruct Hin. }
  rewrite (pipeline_content source doc pos raw p _ _ Hl Hc Hs Hraw) in Hres.
  rewrite finalize_result in Hres.
  cbn [a_isEmptyLine a_commentContext a_currentLineUptoCursor a_position]
    in Hres.
  fold typed in Hres. fold completion in Hres.
  replace (negb (truthy (trim currentLine)) && truthy commentContext)
    with false in Hres.
  2:{ destruct Hgen as [Hne | ->].
      - destruct (trim currentLine); [congruence|reflexivity].
      - simpl. now rewrite andb_false_r. }
  destruct (eqb completion typed || negb (truthy (trim completion))).
  { injection Hres as <-. destruct Hin. }
  injection Hres as <-. destruct Hin as [<- | []].
  cbn [range insertText]. split; [reflexivity|].
  destruct (startsWith (trimLeft typed) completion) eqn:Hsw; cbn [negb].
  - split; [discriminate|]. split; [reflexivity|].
    intros Ht. now rewrite <- Ht.
  - split; [reflexivity|]. split; [discriminate|].
    intros _. apply startsWith_app.
Qed.

Lemma prefix_prepended_witness :
  let doc := js_document [js "  foo"] in
  let item := {| insertText := js "  foobar"; range := whole_line (at_ 0 5) |} in
  range item = whole_line (at_ 0 5)
  /\ (startsWith (trimLeft (js "  foo")) (js "bar") = false ->
      insertText item = js "  foo" ++ js "bar").
Proof.
  intros doc item.
  destruct (prefix_prepended 0 doc (at_ 0 5) (js "bar") new_provider
              (js "  foo") [] item [item]) as [H1 [H2 _]].
  - reflexivity.
  - reflexivity.
  - left. vm_compute. discriminate.
  - vm_compute. reflexivity.
  - left. reflexivity.
  - split; [exact H1|]. intros H. exact (H2 H).
Defined.

(** C5 fails as stated: on the line [  foo] with the cursor at its end, the
    completion [foobar] does not start with the typed prefix, and it is
    returned as it is, for the range from the start of the line: the
    suggestion does not begin with the typed prefix. *)
Lemma indented_prefix_not_prepended :
  let doc := js_document [js "  foo"] in
  let pos := at_ 0 5 in
  lineAt doc 0 = Ok (js "  foo")
  /\ sanitize (detect_language doc) (js "  foo") (js "foobar") = js "foobar"
  /\ startsWith (js "  foo") (js "foobar") = false
  /\ snd (pipeline 0 doc pos (Content (Some (js "foobar"))) new_provider)
     = Ok [ {| insertText := js "foobar"; range := whole_line pos |} ].
Proof. vm_compute. repeat split. Qed.

(** *** An open [console.log(] call *)

Lemma trimLeft_nil (s : jsstring) :
  trimLeft s = [] -> forallb is_space s = true.
Proof.
  induction s as [|c s IH]; simpl; [reflexivity|].
  destruct (is_space c); [exact IH|discriminate].
Qed.

Lemma trimLeft_blank (s : jsstring) :
  forallb is_space (trimLeft s) = true -> forallb is_space s = true.
Proof.
  induction s as [|c s IH]; simpl; [reflexivity|].
  destruct (is_space c) eqn:E; [exact IH|].
  simpl. rewrite E. discriminate.
Qed.

Lemma trim_nil_blank (s : jsstring) :
  trim s = [] -> forallb is_space s = true.
Proof.
  unfold trim, trimRight. intros H.
  apply trimLeft_blank.
  assert (Hr : trimLeft (rev (trimLeft s)) = []).
  { destruct (trimLeft (rev (trimLeft s))) as [|c t]; [reflexivity|].
    simpl in H. destruct (rev t); discriminate. }
  apply trimLeft_nil in Hr.
  apply forallb_forall. intros c Hc.
  rewrite forallb_forall in Hr. apply Hr. now apply -> in_rev.
Qed.

Lemma blank_firstn (n : nat) (s : jsstring) :
  forallb is_space s = true -> forallb is_space (firstn n s) = true.
Proof.
  revert n. induction s as [|c s IH]; intros [|n] H; simpl; try reflexivity.
  simpl in H. apply andb_true_iff in H. destruct H as [Hc Hs].
  now rewrite Hc, IH.
Qed.

(** C7. When the text of the current line up to the cursor is
    [console.log(] followed by a double quote and the model answers
    [hello], the body returns one suggestion, whose text is the call
    [console.log] of the double-quoted [hello], closed. *)
Theorem console_log_completion source doc pos (p : Provider)
    (currentLine : jsstring) :
  lineAt doc (Z.of_nat (line pos)) = Ok currentLine ->
  substring0 (character pos) currentLine = open_console_log ->
  snd (pipeline source doc pos (Content (Some (js "hello"))) p)
  = Ok [ {| insertText := console_log_hello; range := whole_line pos |} ].
Proof.
  intros Hl Hsub.
  destruct (getContextFromComments_total doc pos (lineAt_Ok_valid _ _ _ Hl))
    as [commentContext Hc].
  assert (Hs : too_short currentLine commentContext pos = false).
  { unfold too_short. rewrite Hsub. apply andb_false_r. }
  rewrite (pipeline_content source doc pos (js "hello") p _ _ Hl Hc Hs)
    by discriminate.
  rewrite finalize_result.
  cbn [a_isEmptyLine a_commentContext a_currentLineUptoCursor a_position].
  rewrite Hsub.
  assert (Hne : truthy (trim currentLine) = true).
  { destruct (trim currentLine) eqn:E; [|reflexivity].
    apply trim_nil_blank in E.
    apply (blank_firstn (character pos)) in E.
    unfold substring0 in Hsub. rewrite Hsub in E. discriminate E. }
  rewrite Hne. cbn [negb andb].
  unfold detect_language.
  destruct (eqb (languageId doc) (js "typescript")
            || eqb (fileExtension doc) (js "ts")
            || eqb (fileExtension doc) (js "tsx")); reflexivity.
Qed.

Lemma console_log_completion_witness :
  snd (pipeline 0 (js_document [open_console_log]) (at_ 0 13)
         (Content (Some (js "hello"))) new_provider)
  = Ok [ {| insertText := console_log_hello;
            range := whole_line (at_ 0 13) |} ].
Proof.
  apply (console_log_completion 0 (js_document [open_console_log])
           (at_ 0 13) new_provider open_console_log); reflexivity.
Defined.

End PipelineFacts.

(** ** The prompt builder *)

Module PromptFacts.
Import JS RegExp Editor CompletionProvider Notions Samples ExtractorFacts
       PipelineFacts.

Lemma lineAt_nth (doc : TextDocument) (n : nat) (text : jsstring) :
  nth_error (lines doc) n = Some text ->
  lineAt doc (Z.of_nat n) = Ok text.
Proof.
  intros H. unfold lineAt.
  destruct (Z.of_nat n <? 0)%Z eqn:E; [apply Z.ltb_lt in E; lia|].
  now rewrite Nat2Z.id, H.
Qed.

(** The comment context of a blank line under the single comment line
    [above]. *)
Lemma single_comment_context (doc : TextDocument) (n c : nat)
    (cur above : jsstring) :
  nth_error (lines doc) (S n) = Some cur ->
  trim cur = [] ->
  nth_error (lines doc) n = Some above ->
  startsWith (js "//") (trim above) = true ->
  (n = 0 \/ exists before,
              nth_error (lines doc) (n - 1) = Some before
              /\ startsWith (js "//") (trim before) = false) ->
  getContextFromComments doc (at_ (S n) c) = Ok (trim above ++ [LF]).
Proof.
  intros Hcur Hblank Habove Hcomment Hbefore.
  unfold getContextFromComments. cbn [line at_].
  (* the cursor line *)
  cbn [comments_loop].
  replace ((0 <=? Z.of_nat (S n)) && (Z.of_nat (S n) - 5 <? Z.of_nat (S n)))%Z
    with true
    by (symmetry; apply andb_true_iff; split;
        [apply Z.leb_le|apply Z.ltb_lt]; lia).
  rewrite (lineAt_nth doc (S n) cur Hcur), Hblank.
  change (startsWith (js "//") []) with false. cbn [truthy].
  (* the comment line *)
  replace (Z.of_nat (S n) - 1)%Z with (Z.of_nat n) by lia.
  replace ((0 <=? Z.of_nat n) && (Z.of_nat (S n) - 5 <? Z.of_nat n))%Z
    with true
    by (symmetry; apply andb_true_iff; split;
        [apply Z.leb_le|apply Z.ltb_lt]; lia).
  rewrite (lineAt_nth doc n above Habove), Hcomment.
  (* the line above it, if any *)
  destruct Hbefore as [-> | [before [Hb Hnc]]].
  - reflexivity.
  - destruct n as [|m].
    + reflexivity.
    + replace (Z.of_nat (S m) - 1)%Z with (Z.of_nat m) by lia.
      replace ((0 <=? Z.of_nat m)
               && (Z.of_nat (S (S m)) - 5 <? Z.of_nat m))%Z
        with true
        by (symmetry; apply andb_true_iff; split;
            [apply Z.leb_le|apply Z.ltb_lt]; lia).
      replace (S m - 1) with m in Hb by lia.
      cbn [comments_loop].
      rewrite (lineAt_nth doc m before Hb), Hnc.
      destruct (trim above); [discriminate Hcomment|reflexivity].
Qed.

(** C6, as amended.  When the line above a blank cursor line is the one
    comment line [// add two numbers] (the line above it, if any, is no
    comment), the intent of the prompt builder is that comment followed by
    one line feed: it trims to [// add two numbers] and is not the default
    [Continue the logical flow]. *)
Theorem comment_becomes_intent (doc : TextDocument) (n c : nat)
    (cur above : jsstring) (p : Provider) :
  nth_error (lines doc) (S n) = Some cur ->
  trim cur = [] ->
  nth_error (lines doc) n = Some above ->
  trim above = add_two_numbers ->
  (n = 0 \/ exists before,
              nth_error (lines doc) (n - 1) = Some before
              /\ startsWith (js "//") (trim before) = false) ->
  exists a,
    snd (analyzeCodeBlock doc (at_ (S n) c) p) = Ok a
    /\ codeIntent a = add_two_numbers ++ [LF]
    /\ trim (codeIntent a) = add_two_numbers
    /\ codeIntent a <> js "Continue the logical flow".
Proof.
  intros Hcur Hblank Habove Htext Hbefore.
  assert (Hc : getContextFromComments doc (at_ (S n) c)
               = Ok (add_two_numbers ++ [LF])).
  { rewrite <- Htext.
    apply (single_comment_context doc n c cur above); auto.
    rewrite Htext. reflexivity. }
  destruct (analyzeCodeBlock_run doc (at_ (S n) c) p _ Hc)
    as [a [Ha [Hi _]]].
  exists a. rewrite Ha. split; [reflexivity|]. rewrite Hi.
  split; [reflexivity|]. split; [reflexivity|]. discriminate.
Qed.

Lemma comment_becomes_intent_witness :
  exists a,
    snd (analyzeCodeBlock (js_document [add_two_numbers; []]) (at_ 1 0)
           new_provider) = Ok a
    /\ codeIntent a = add_two_numbers ++ [LF]
    /\ trim (codeIntent a) = add_two_numbers
    /\ codeIntent a <> js "Continue the logical flow".
Proof.
  apply (comment_becomes_intent (js_document [add_two_numbers; []]) 0 0
           [] add_two_numbers new_provider).
  - reflexivity.
  - reflexivity.
  - reflexivity.
  - reflexivity.
  - left. reflexivity.
Defined.

(** C6 fails as stated: under the comment line [// add two numbers] the
    intent is not the string [// add two numbers] but that string followed
    by a line feed, the one [getContextFromComments] appends to each
    comment line. *)
Lemma intent_keeps_line_feed :
  exists a,
    snd (analyzeCodeBlock (js_document [add_two_numbers; []]) (at_ 1 0)
           new_provider) = Ok a
    /\ codeIntent a = add_two_numbers ++ [LF]
    /\ codeIntent a <> add_two_numbers.
Proof.
  eexists. split; [vm_compute; reflexivity|].
  split; [reflexivity|discriminate].
Qed.

(** *** A function that was just defined *)

Lemma parse_add (pos : Position) :
  parse_declaration add_declaration pos = Some (add_info pos).
Proof.
  unfold parse_declaration.
  set (m := match_first false re_signature add_declaration).
  vm_compute in m. subst m. reflexivity.
Qed.

Lemma isInsideComment_valid (doc : TextDocument) (pos : Position) (b : bool) :
  isInsideComment doc pos = Ok b -> valid_position doc pos.
Proof.
  unfold isInsideComment.
  destruct (lineAt doc (Z.of_nat (line pos))) as [text|msg] eqn:E;
    [|discriminate].
  intros _. exact (lineAt_Ok_valid doc pos text E).
Qed.

(** C8, as amended.  When the last declaration matched in the trailing
    window is [function add(a: number, b: number)] and the cursor is not in
    a comment position, the provider retains [add] with the parameters [a: number]
    and [b: number] at line [cursorLine - 1], the recently-defined flag is
    true, and the prompt built is the usage-example prompt for [add], with
    the arguments [42, 42]. *)
Theorem usage_prompt_for_add (doc : TextDocument) (pos : Position)
    (currentLine commentContext language : jsstring) (p : Provider)
    (earlier : list jsstring) :
  functionDeclarations doc pos = earlier ++ [add_declaration] ->
  isInsideComment doc pos = Ok false ->
  buildCompletionPrompt doc pos currentLine commentContext language p
  = (set_lastDefinedFunction (Some (add_info pos)) p, Ok add_usage_prompt)
  /\ map exampleParam (params (add_info pos)) = [js "42"; js "42"]
  /\ (exists a, snd (analyzeCodeBlock doc pos p) = Ok a
                /\ recentlyDefinedFunction a = true).
Proof.
  intros Hdecl Hinside.
  pose proof (isInsideComment_valid doc pos false Hinside) as Hv.
  destruct (getContextFromComments_total doc pos Hv) as [comments Hc].
  destruct (analyzeCodeBlock_run doc pos p comments Hc)
    as [a [Ha [_ Hrecent]]].
  assert (Hret : retained doc pos p
                 = set_lastDefinedFunction (Some (add_info pos)) p).
  { unfold retained. rewrite Hdecl, rev_app_distr. cbn [rev app].
    now rewrite parse_add. }
  rewrite Hret in Ha, Hrecent. cbn in Hrecent.
  rewrite Z.eqb_refl in Hrecent.
  split; [|split].
  - unfold buildCompletionPrompt, bind. rewrite Ha.
    unfold lift, get, ret. rewrite Hinside, Hrecent. reflexivity.
  - reflexivity.
  - exists a. rewrite Ha. auto.
Qed.

Lemma usage_prompt_for_add_witness :
  snd (buildCompletionPrompt
         (js_document [js "function add(a: number, b: number) {";
                       js "  return a + b;"; js "}"; []])
         (at_ 3 0) [] [] (js "javascript") new_provider)
  = Ok add_usage_prompt.
Proof.
  destruct (usage_prompt_for_add
              (js_document [js "function add(a: number, b: number) {";
                            js "  return a + b;"; js "}"; []])
              (at_ 3 0) [] [] (js "javascript") new_provider [])
    as [H _].
  - vm_compute. reflexivity.
  - vm_compute. reflexivity.
  - rewrite H. reflexivity.
Defined.

(** C8 fails as stated: the window may hold the declaration
    [function add(a: number, b: number)], on the line above the cursor and
    matched by the scan, with the recently-defined flag true and the cursor
    out of a comment, while the prompt is not the usage prompt for [add]:
    the body on the same line assigns a parenthesised sum to the constant
    [s], which the scan matches as a later declaration, so the prompt asks
    for the usage of [s], with the argument [undefined]. *)
Lemma later_match_hides_add :
  includes add_declaration (contextText add_with_local_sum (at_ 1 0)) = true
  /\ In add_declaration (functionDeclarations add_with_local_sum (at_ 1 0))
  /\ isInsideComment add_with_local_sum (at_ 1 0) = Ok false
  /\ (exists a,
        snd (analyzeCodeBlock add_with_local_sum (at_ 1 0) new_provider)
        = Ok a
        /\ recentlyDefinedFunction a = true)
  /\ snd (buildCompletionPrompt add_with_local_sum (at_ 1 0) [] []
            (js "typescript") new_provider)
     = Ok local_sum_usage_prompt
  /\ local_sum_usage_prompt <> add_usage_prompt
  /\ includes (js "42") local_sum_usage_prompt = false.
Proof.
  split; [vm_compute; reflexivity|].
  split; [vm_compute; auto|].
  split; [vm_compute; reflexivity|].
  split.
  { eexists. split; [vm_compute; reflexivity|reflexivity]. }
  split; [vm_compute; reflexivity|].
  split; [vm_compute; discriminate|vm_compute; reflexivity].
Qed.

End PromptFacts.

(** ** The request scheduler *)

Module SchedulerFacts.
Import JS RegExp Editor CompletionProvider Scheduler Notions Samples
       ExtractorFacts PipelineFacts.

(** *** What the body changes in the provider *)

Lemma retained_frame (doc : TextDocument) (pos : Position) (p : Provider) :
  lastRequest (retained doc pos p) = lastRequest p
  /\ debounceTimeout (retained doc pos p) = debounceTimeout p
  /\ currentLanguage (retained doc pos p) = currentLanguage p
  /\ outputChannel (retained doc pos p) = outputChannel p.
Proof.
  unfold retained.
  destruct (rev (functionDeclarations doc pos)) as [|f fs]; [auto|].
  destruct (parse_declaration f pos); auto.
Qed.

Lemma pipeline_finish_frame (k : Awaited) (o : Outcome) (p : Provider) :
  lastRequest (fst (pipeline_finish k o p)) = lastRequest p
  /\ debounceTimeout (fst (pipeline_finish k o p)) = debounceTimeout p
  /\ lastDefinedFunction (fst (pipeline_finish k o p))
     = lastDefinedFunction p.
Proof.
  destruct o as [[raw|]|msg|msg| |]; try (repeat split; reflexivity).
  unfold pipeline_finish.
  destruct (negb (truthy raw)); [repeat split; reflexivity|].
  unfold bind, get.
  destruct (finalize_language k
              (sanitize (currentLanguage p) (a_currentLineUptoCursor k) raw) p)
    as [_ [H1 [H2 H3]]].
  auto.
Qed.

Lemma pipeline_finish_cancelled (k : Awaited) (p : Provider) :
  pipeline_finish k Cancelled p = (p, Ok []).
Proof. reflexivity. Qed.

(** The three ways the body reaches its first yield. *)
Lemma pipeline_begin_cases (src : nat) (doc : TextDocument) (pos : Position)
    (p : Provider) :
  (exists msg p', pipeline_begin src doc pos p = (p', Throw msg)
                  /\ ~ valid_position doc pos
                  /\ debounceTimeout p' = debounceTimeout p)
  \/ (exists p', pipeline_begin src doc pos p = (p', Ok (Returned []))
                 /\ debounceTimeout p' = debounceTimeout p)
  \/ (exists p' req k,
        pipeline_begin src doc pos p = (p', Ok (Posted req k))
        /\ debounceTimeout p' = debounceTimeout p
        /\ lastRequest p' = Some src).
Proof.
  unfold pipeline_begin, bind, lift.
  destruct (lineAt doc (Z.of_nat (line pos))) as [currentLine|msg] eqn:Hl.
  2:{ left. exists msg, p. split; [reflexivity|]. split; [|reflexivity].
      intros Hv. destruct (lineAt_position doc pos Hv) as [t Ht]. congruence. }
  pose proof (lineAt_Ok_valid doc pos currentLine Hl) as Hv.
  destruct (getContextFromComments_total doc pos Hv) as [commentContext Hc].
  rewrite Hc.
  match goal with |- context [if ?c then _ else _] => destruct c end.
  - right. left. exists p. split; reflexivity.
  - right. right.
    unfold getLanguageContext, bind, modify, ret, try_catch.
    destruct (buildCompletionPrompt_total doc pos
                (substring0 (character pos) currentLine) commentContext
                (detect_language doc)
                (set_currentLanguage (detect_language doc) p) Hv)
      as [prompt Hp].
    rewrite Hp. eexists. eexists. eexists. split; [reflexivity|].
    cbn [debounceTimeout lastRequest set_lastRequest].
    destruct (retained_frame doc pos
                (set_currentLanguage (detect_language doc) p))
      as [_ [H _]].
    rewrite H. split; reflexivity.
Qed.

(** *** Single flight *)

Lemma well_formed_init : well_formed init.
Proof.
  unfold well_formed, init; simpl. repeat split; auto; intros ? [].
Qed.

Lemma trigger_spec (t : Z) (inv : Invocation) (w : World) :
  well_formed w ->
  trigger t inv w = armed (after_cancel w) (next w) t inv.
Proof.
  intros [Ht [Hr _]]. unfold trigger, armed, after_cancel.
  assert (Hclear : clearTimeout (debounceTimeout (provider w)) (timers w) = []).
  { destruct Ht as [-> | [tm [-> [-> _]]]].
    - unfold clearTimeout. destruct (debounceTimeout (provider w)); reflexivity.
    - simpl. now rewrite Nat.eqb_refl. }
  rewrite Hclear. cbn [provider].
  destruct Hr as [Hnone | [rq [Hone Hlast]]].
  - rewrite Hnone. unfold cancel. cbn [requests].
    destruct (lastRequest (provider w)); cbn; now rewrite app_nil_r.
  - rewrite Hone, Hlast. unfold cancel. cbn [requests filter].
    rewrite Nat.eqb_refl. cbn [negb fold_left].
    unfold resume. cbn [awaited provider].
    rewrite pipeline_finish_cancelled. reflexivity.
Qed.

Lemma earliest_one (e : Event) : earliest [e] = Some e.
Proof. reflexivity. Qed.

(** A call that comes before the timer is due finds it pending... *)
Lemma advance_armed (w : World) (h : nat) (t t' : Z) (inv : Invocation) :
  (t' < t + DEBOUNCE_DELAY)%Z ->
  advance t' (armed w h t inv) = armed w h t inv.
Proof.
  intros Hlt. unfold advance, budget.
  cbn -[Z.leb Z.add DEBOUNCE_DELAY].
  destruct (t + DEBOUNCE_DELAY <=? t')%Z eqn:E; [|reflexivity].
  apply Z.leb_le in E. lia.
Qed.

(** ... and clears it without running it. *)
Lemma trigger_armed (w : World) (h : nat) (t t' : Z) (inv inv' : Invocation) :
  trigger t' inv' (armed w h t inv) = armed w (S h) t' inv'.
Proof.
  unfold trigger, armed, cancel. cbn -[Z.add DEBOUNCE_DELAY].
  rewrite Nat.eqb_refl. cbn -[Z.add DEBOUNCE_DELAY].
  destruct (lastRequest (provider w)); reflexivity.
Qed.

Lemma last_default {A} (l : list A) (c d d' : A) :
  last (c :: l) d = last (c :: l) d'.
Proof.
  revert c. induction l as [|x l IH]; intros c; [reflexivity|].
  change (last (x :: l) d = last (x :: l) d'). apply IH.
Qed.

Lemma run_rapid (w : World) :
  forall calls h t inv,
    rapid t calls ->
    run calls (armed w h t inv)
    = armed w (h + length calls) (fst (last_call t inv calls))
        (snd (last_call t inv calls)).
Proof.
  induction calls as [|[t' inv'] calls IH]; intros h t inv Hrapid.
  - cbn. now rewrite Nat.add_0_r.
  - destruct Hrapid as [[_ Hlt] Hrest].
    cbn [run fold_left fst snd].
    rewrite (advance_armed w h t t' inv Hlt), trigger_armed.
    fold (run calls (armed w (S h) t' inv')).
    rewrite (IH (S h) t' inv' Hrest).
    replace (S h + length calls) with (h + length ((t', inv') :: calls))
      by (cbn [length]; lia).
    unfold last_call.
    destruct calls as [|c calls']; [reflexivity|].
    change (last ((t', inv') :: c :: calls') (t, inv))
      with (last (c :: calls') (t, inv)).
    now rewrite (last_default calls' c (t, inv) (t', inv')).
Qed.

(** *** The timer that is left fires, and its body runs to its end *)

Lemma settle_one_timer (w : World) (tm : Timer) :
  timers w = [tm] -> requests w = [] ->
  let R := pipeline (next w) (document (callback tm)) (position (callback tm))
             (snd (answer (callback tm))) (provider w) in
  timers (settle w) = []
  /\ requests (settle w) = []
  /\ applied (settle w) = applied w ++ [handle tm]
  /\ settled (settle w) = settled w ++ [(handle tm, settlement (snd R))]
  /\ provider (settle w) = fst R.
Proof.
  intros Ht Hr R.
  assert (Hp : pending w = [Fire tm])
    by (unfold pending; now rewrite Ht, Hr).
  assert (Hs : settle w = drain 1 (fire tm w)).
  { unfold settle, budget. rewrite Ht, Hr.
    cbn [length Nat.mul Nat.add]. change (drain 2 w) with
      (match earliest (pending w) with
       | Some e => drain 1 (step e w)
       | None => w
       end).
    now rewrite Hp. }
  rewrite Hs. subst R. unfold pipeline, bind, fire. rewrite Ht, Hr.
  cbn [filter]. rewrite Nat.eqb_refl. cbn [negb app].
  destruct (pipeline_begin (next w) (document (callback tm))
              (position (callback tm)) (provider w))
    as [p' [[items|req k]|msg]].
  - cbn. auto.
  - cbn [drain]. unfold pending. cbn [timers requests map app].
    rewrite earliest_one.
    cbn [step]. unfold arrive, resume.
    cbn [source filter provider awaited result owner requests].
    rewrite Nat.eqb_refl. cbn [negb].
    destruct (pipeline_finish k (snd (answer (callback tm))) p') as [p'' r].
    cbn. auto.
  - cbn. auto.
Qed.

Lemma settle_armed (w : World) (h : nat) (t : Z) (inv : Invocation) :
  let R := pipeline (S h) (document inv) (position inv) (snd (answer inv))
             (set_debounceTimeout (Some h) (provider w)) in
  timers (settle (armed w h t inv)) = []
  /\ requests (settle (armed w h t inv)) = []
  /\ applied (settle (armed w h t inv)) = applied w ++ [h]
  /\ settled (settle (armed w h t inv))
     = settled w ++ [(h, settlement (snd R))]
  /\ provider (settle (armed w h t inv)) = fst R.
Proof.
  exact (settle_one_timer (armed w h t inv)
           {| handle := h; due := t + DEBOUNCE_DELAY; callback := inv |}
           eq_refl eq_refl).
Qed.

(** *** One step of the host *)

Lemma fire_spec (w : World) (tm : Timer) :
  timers w = [tm] -> requests w = [] ->
  timers (fire tm w) = []
  /\ applied (fire tm w) = applied w ++ [handle tm]
  /\ debounceTimeout (provider (fire tm w)) = debounceTimeout (provider w)
  /\ ((requests (fire tm w) = []
       /\ next (fire tm w) = next w
       /\ exists s, settled (fire tm w) = settled w ++ [(handle tm, s)]
                    /\ (valid_position (document (callback tm))
                          (position (callback tm)) -> s = Resolved []))
      \/ (exists rq, requests (fire tm w) = [rq]
                     /\ owner rq = handle tm
                     /\ lastRequest (provider (fire tm w)) = Some (source rq)
                     /\ next (fire tm w) = S (next w)
                     /\ settled (fire tm w) = settled w)).
Proof.
  intros Ht Hr. unfold fire. rewrite Ht, Hr. cbn [filter].
  rewrite Nat.eqb_refl. cbn [negb app].
  destruct (pipeline_begin_cases (next w) (document (callback tm))
              (position (callback tm)) (provider w))
    as [[msg [p' [E [Hinv Hd]]]] | [[p' [E Hd]] | [p' [req [k [E [Hd Hl]]]]]]];
    rewrite E; cbn.
  - repeat split; auto. left. repeat split; auto.
    eexists. split; [reflexivity|]. intros Hv. contradiction.
  - repeat split; auto. left. repeat split; auto.
    eexists. split; [reflexivity|]. reflexivity.
  - repeat split; auto. right. eexists. repeat split; auto.
Qed.

Lemma arrive_spec (w : World) (rq : Request) :
  requests w = [rq] ->
  timers (arrive rq w) = timers w
  /\ requests (arrive rq w) = []
  /\ applied (arrive rq w) = applied w
  /\ next (arrive rq w) = next w
  /\ debounceTimeout (provider (arrive rq w)) = debounceTimeout (provider w)
  /\ lastRequest (provider (arrive rq w)) = lastRequest (provider w)
  /\ exists items,
       settled (arrive rq w) = settled w ++ [(owner rq, Resolved items)]
       /\ length items <= 1.
Proof.
  intros Hr. unfold arrive, resume. rewrite Hr. cbn [filter].
  rewrite Nat.eqb_refl. cbn [negb provider].
  destruct (pipeline_finish_frame (awaited rq) (result rq) (provider w))
    as [Hl [Hd _]].
  destruct (pipeline_finish_short (awaited rq) (result rq) (provider w))
    as [items [Hi Hlen]].
  destruct (pipeline_finish (awaited rq) (result rq) (provider w)) as [p' r].
  cbn in *. subst r. repeat split; auto. exists items. auto.
Qed.

Lemma pending_cases (w : World) :
  well_formed w ->
  (pending w = [] /\ timers w = [] /\ requests w = [])
  \/ (exists tm, pending w = [Fire tm] /\ timers w = [tm] /\ requests w = [])
  \/ (exists rq, pending w = [Arrive rq] /\ timers w = []
                 /\ requests w = [rq]).
Proof.
  intros [Ht [Hr _]]. unfold pending.
  destruct Ht as [Ht | [tm [Ht [_ Hr0]]]].
  - destruct Hr as [Hr | [rq [Hr _]]]; rewrite Ht, Hr.
    + left. auto.
    + right. right. exists rq. auto.
  - rewrite Ht, Hr0. right. left. exists tm. auto.
Qed.

Lemma well_formed_fire (w : World) (tm : Timer) :
  well_formed w -> timers w = [tm] -> requests w = [] ->
  well_formed (fire tm w).
Proof.
  intros Hw Ht Hr.
  destruct Hw as [_ [_ [Hft [_ [Hfa Hfs]]]]].
  assert (Hh : handle tm < next w) by (apply Hft; rewrite Ht; now left).
  destruct (fire_spec w tm Ht Hr) as [Ht' [Ha' [Hd' Hcases]]].
  unfold well_formed. rewrite Ht', Ha'.
  split; [now left|].
  destruct Hcases as [[Hr' [Hn' [s [Hs' _]]]] | [rq [Hr' [Ho [Hl [Hn' Hs']]]]]];
    rewrite Hr', Hn', Hs'.
  - split; [now left|]. split; [intros ? []|]. split; [intros ? []|].
    split.
    + intros h Hin. apply in_app_or in Hin. destruct Hin as [Hin | [<- | []]];
        [now apply Hfa|exact Hh].
    + intros e Hin. apply in_app_or in Hin.
      destruct Hin as [Hin | [<- | []]]; [now apply Hfs|exact Hh].
  - split; [right; exists rq; auto|]. split; [intros ? []|].
    split; [intros x [<- | []]; lia|].
    split.
    + intros h Hin. apply in_app_or in Hin. destruct Hin as [Hin | [<- | []]];
        [apply Hfa in Hin; lia|lia].
    + intros e Hin. apply Hfs in Hin. lia.
Qed.

Lemma well_formed_arrive (w : World) (rq : Request) :
  well_formed w -> timers w = [] -> requests w = [rq] ->
  well_formed (arrive rq w).
Proof.
  intros Hw Ht Hr.
  destruct Hw as [_ [_ [_ [Hfr [Hfa Hfs]]]]].
  assert (Ho : owner rq < next w) by (apply Hfr; rewrite Hr; now left).
  destruct (arrive_spec w rq Hr)
    as [Ht' [Hr' [Ha' [Hn' [_ [_ [items [Hs' _]]]]]]]].
  unfold well_formed. rewrite Ht', Hr', Ha', Hn', Hs', Ht.
  split; [now left|]. split; [now left|].
  split; [intros ? []|]. split; [intros ? []|]. split; [exact Hfa|].
  intros e Hin. apply in_app_or in Hin.
  destruct Hin as [Hin | [<- | []]]; [now apply Hfs|exact Ho].
Qed.

Lemma well_formed_step (w : World) (e : Event) :
  well_formed w -> earliest (pending w) = Some e -> well_formed (step e w).
Proof.
  intros Hw He.
  destruct (pending_cases w Hw)
    as [[Hp _] | [[tm [Hp [Ht Hr]]] | [rq [Hp [Ht Hr]]]]];
    rewrite Hp in He; cbn in He; [discriminate| |];
    injection He as <-; cbn [step].
  - now apply well_formed_fire.
  - now apply well_formed_arrive.
Qed.

Lemma well_formed_run_until (t : Z) :
  forall fuel w, well_formed w -> well_formed (run_until fuel t w).
Proof.
  induction fuel as [|fuel IH]; intros w Hw; cbn [run_until]; [exact Hw|].
  destruct (earliest (pending w)) as [e|] eqn:He; [|exact Hw].
  destruct (time_of e <=? t)%Z; [|exact Hw].
  apply IH. now apply well_formed_step.
Qed.

Lemma well_formed_advance (t : Z) (w : World) :
  well_formed w -> well_formed (advance t w).
Proof. apply well_formed_run_until. Qed.

Lemma well_formed_armed (w : World) (h : nat) (t : Z) (inv : Invocation) :
  well_formed w -> next w <= h -> well_formed (armed w h t inv).
Proof.
  intros [_ [_ [_ [_ [Hfa Hfs]]]]] Hle. unfold well_formed, armed. cbn.
  split; [right; eexists; auto|]. split; [now left|].
  split; [intros x [<- | []]; cbn; lia|]. split; [intros ? []|].
  split; [intros x Hin; apply Hfa in Hin; lia|].
  intros x Hin; apply Hfs in Hin; lia.
Qed.

Lemma well_formed_after_cancel (w : World) :
  well_formed w -> well_formed (after_cancel w).
Proof.
  intros [Ht [_ [Hft [Hfr [Hfa Hfs]]]]]. unfold well_formed, after_cancel.
  cbn. split.
  { destruct Ht as [Ht | [tm [Ht [Hd _]]]]; [now left|].
    right. exists tm. auto. }
  split; [now left|]. split; [exact Hft|]. split; [intros ? []|].
  split; [exact Hfa|].
  intros e Hin. apply in_app_or in Hin. destruct Hin as [Hin | Hin];
    [now apply Hfs|].
  apply in_map_iff in Hin. destruct Hin as [rq [<- Hin]]. cbn.
  now apply Hfr.
Qed.

Lemma well_formed_trigger (t : Z) (inv : Invocation) (w : World) :
  well_formed w -> well_formed (trigger t inv w).
Proof.
  intros Hw. rewrite (trigger_spec t inv w Hw).
  apply well_formed_armed; [now apply well_formed_after_cancel|].
  cbn. lia.
Qed.

Lemma well_formed_run (calls : list (Z * Invocation)) :
  forall w, well_formed w -> well_formed (run calls w).
Proof.
  induction calls as [|c calls IH]; intros w Hw; [exact Hw|].
  cbn [run fold_left]. apply IH.
  apply well_formed_trigger. now apply well_formed_advance.
Qed.

Lemma well_formed_drain :
  forall fuel w, well_formed w -> well_formed (drain fuel w).
Proof.
  induction fuel as [|fuel IH]; intros w Hw; cbn [drain]; [exact Hw|].
  destruct (earliest (pending w)) as [e|] eqn:He; [|exact Hw].
  apply IH. now apply well_formed_step.
Qed.

(** Every world the scheduler can reach is well formed. *)
Lemma well_formed_reachable (calls : list (Z * Invocation)) :
  well_formed (run calls init) /\ well_formed (settle (run calls init)).
Proof.
  assert (H : well_formed (run calls init))
    by (apply well_formed_run, well_formed_init).
  split; [exact H|]. now apply well_formed_drain.
Qed.

(** *** A burst of calls *)

(** C1. Take calls of [provideInlineCompletionItems] on one provider, each
    less than [DEBOUNCE_DELAY] after the one before, from any well-formed
    state of the scheduler, and let the host run until nothing is pending.
    Then the only body applied is that of the last call, and it runs to its
    end: its promise is settled with what the pipeline returns.  The timer
    of every earlier call of the burst was cleared: its body was never
    applied and its promise is never settled, so it contributes no
    suggestion.  A request in flight when the burst starts is cancelled:
    its promise is settled with the empty list. *)
Theorem burst_runs_last_only (w : World) (t0 : Z) (inv0 : Invocation)
    (calls : list (Z * Invocation)) :
  well_formed w ->
  rapid t0 calls ->
  let w1 := advance t0 w in
  let final_call := snd (last_call t0 inv0 calls) in
  let h := next w1 + length calls in
  let final := settle (run ((t0, inv0) :: calls) w) in
  let R := pipeline (S h) (document final_call) (position final_call)
             (snd (answer final_call))
             (set_debounceTimeout (Some h) (provider w1)) in
  timers final = [] /\ requests final = []
  /\ applied final = applied w1 ++ [h]
  /\ settled final
     = (settled w1 ++ map (fun rq => (owner rq, Resolved [])) (requests w1))
       ++ [(h, settlement (snd R))]
  /\ (forall i, i < length calls ->
        ~ In (next w1 + i) (applied final)
        /\ ~ In (next w1 + i) (map fst (settled final))).
Proof.
  intros Hw Hrapid w1 final_call h final R.
  assert (Hw1 : well_formed w1) by now apply well_formed_advance.
  assert (Hrun : run ((t0, inv0) :: calls) w
                 = armed (after_cancel w1) h
                     (fst (last_call t0 inv0 calls)) final_call).
  { cbn [run fold_left fst snd]. fold w1.
    rewrite (trigger_spec t0 inv0 w1 Hw1).
    fold (run calls (armed (after_cancel w1) (next w1) t0 inv0)).
    now rewrite (run_rapid (after_cancel w1) calls (next w1) t0 inv0 Hrapid). }
  subst final. rewrite Hrun.
  destruct (settle_armed (after_cancel w1) h
              (fst (last_call t0 inv0 calls)) final_call)
    as [Ht [Hr [Ha [Hs _]]]].
  cbn [after_cancel applied settled provider] in Ha, Hs.
  split; [exact Ht|]. split; [exact Hr|]. split; [exact Ha|].
  split; [exact Hs|].
  intros i Hi. rewrite Ha, Hs.
  destruct Hw1 as [_ [_ [_ [Hfr [Hfa Hfs]]]]].
  split.
  - intros Hin. apply in_app_or in Hin. destruct Hin as [Hin | [Hin | []]].
    + apply Hfa in Hin. lia.
    + subst h. lia.
  - rewrite !map_app, map_map. cbn [map fst].
    intros Hin. apply in_app_or in Hin. destruct Hin as [Hin | [Hin | []]].
    + apply in_app_or in Hin. destruct Hin as [Hin | Hin].
      * apply in_map_iff in Hin. destruct Hin as [e [He Hin]].
        apply Hfs in Hin. lia.
      * apply in_map_iff in Hin. destruct Hin as [rq [He Hin]].
        apply Hfr in Hin. lia.
    + subst h. lia.
Qed.

Lemma burst_runs_last_only_witness :
  let final :=
    settle (run [(0, sample_call); (100, sample_call); (250, sample_call)]%Z
              init) in
  applied final = [2]
  /\ settled final
     = [(2, Resolved [ {| insertText := js "  foobar";
                          range := whole_line (at_ 0 5) |} ])].
Proof.
  destruct (burst_runs_last_only init 0%Z sample_call
              [(100, sample_call); (250, sample_call)]%Z)
    as [_ [_ [Ha [Hs _]]]].
  - unfold well_formed. simpl. repeat split; auto; intros ? [].
  - unfold rapid, DEBOUNCE_DELAY. lia.
  - split; [exact Ha|]. rewrite Hs. vm_compute. reflexivity.
Defined.

(** *** Every body that is applied returns *)

Lemma answered_init : answered init.
Proof. unfold answered, init; cbn. repeat split; intros ? []. Qed.

Lemma answered_fire (w : World) (tm : Timer) :
  answered w -> timers w = [tm] -> requests w = [] ->
  answered (fire tm w).
Proof.
  intros [Hs [Ha Hv]] Ht Hr.
  assert (Hvalid : valid_position (document (callback tm))
                     (position (callback tm)))
    by (apply Hv; rewrite Ht; now left).
  destruct (fire_spec w tm Ht Hr) as [Ht' [Ha' [_ Hcases]]].
  unfold answered. rewrite Ht', Ha'.
  assert (Hold : forall h, In h (applied w) -> exists s, In (h, s) (settled w)).
  { intros h Hin. destruct (Ha h Hin) as [H | [rq [Hin' _]]]; [exact H|].
    rewrite Hr in Hin'. destruct Hin'. }
  destruct Hcases as [[Hr' [_ [s [Hs' Hres]]]] | [rq [Hr' [Ho [_ [_ Hs']]]]]];
    rewrite Hr', Hs'.
  - split; [|split; [|intros ? []]].
    + intros e Hin. apply in_app_or in Hin.
      destruct Hin as [Hin | [<- | []]]; [now apply Hs|].
      exists []. rewrite (Hres Hvalid). cbn. split; [reflexivity|lia].
    + intros h Hin. left. apply in_app_or in Hin.
      destruct Hin as [Hin | [<- | []]].
      * destruct (Hold h Hin) as [s' Hin']. exists s'.
        apply in_or_app. now left.
      * exists s. apply in_or_app. right. now left.
  - split; [exact Hs|]. split; [|intros ? []].
    intros h Hin. apply in_app_or in Hin.
    destruct Hin as [Hin | [<- | []]].
    + left. now apply Hold.
    + right. exists rq. split; [now left|exact Ho].
Qed.

Lemma answered_arrive (w : World) (rq : Request) :
  answered w -> timers w = [] -> requests w = [rq] ->
  answered (arrive rq w).
Proof.
  intros [Hs [Ha _]] Ht Hr.
  destruct (arrive_spec w rq Hr)
    as [Ht' [Hr' [Ha' [_ [_ [_ [items [Hs' Hlen]]]]]]]].
  unfold answered. rewrite Ht', Hr', Ha', Hs', Ht.
  split; [|split; [|intros ? []]].
  - intros e Hin. apply in_app_or in Hin.
    destruct Hin as [Hin | [<- | []]]; [now apply Hs|].
    exists items. auto.
  - intros h Hin. left. destruct (Ha h Hin) as [[s Hin'] | [rq' [Hin' Ho]]].
    + exists s. apply in_or_app. now left.
    + rewrite Hr in Hin'. destruct Hin' as [<- | []].
      exists (Resolved items). apply in_or_app. right. left. now rewrite Ho.
Qed.

Lemma answered_step (w : World) (e : Event) :
  well_formed w -> answered w -> earliest (pending w) = Some e ->
  answered (step e w).
Proof.
  intros Hw Ha He.
  destruct (pending_cases w Hw)
    as [[Hp _] | [[tm [Hp [Ht Hr]]] | [rq [Hp [Ht Hr]]]]];
    rewrite Hp in He; cbn in He; [discriminate| |];
    injection He as <-; cbn [step].
  - now apply answered_fire.
  - now apply answered_arrive.
Qed.

Lemma answered_run_until (t : Z) :
  forall fuel w, well_formed w -> answered w ->
                 answered (run_until fuel t w).
Proof.
  induction fuel as [|fuel IH]; intros w Hw Ha; cbn [run_until]; [exact Ha|].
  destruct (earliest (pending w)) as [e|] eqn:He; [|exact Ha].
  destruct (time_of e <=? t)%Z; [|exact Ha].
  apply IH; [now apply well_formed_step|now apply answered_step].
Qed.

Lemma answered_drain :
  forall fuel w, well_formed w -> answered w -> answered (drain fuel w).
Proof.
  induction fuel as [|fuel IH]; intros w Hw Ha; cbn [drain]; [exact Ha|].
  destruct (earliest (pending w)) as [e|] eqn:He; [|exact Ha].
  apply IH; [now apply well_formed_step|now apply answered_step].
Qed.

Lemma answered_trigger (t : Z) (inv : Invocation) (w : World) :
  well_formed w -> answered w ->
  valid_position (document inv) (position inv) ->
  answered (trigger t inv w).
Proof.
  intros Hw [Hs [Ha _]] Hv. rewrite (trigger_spec t inv w Hw).
  unfold answered, armed, after_cancel. cbn.
  split; [|split].
  - intros e Hin. apply in_app_or in Hin. destruct Hin as [Hin | Hin];
      [now apply Hs|].
    apply in_map_iff in Hin. destruct Hin as [rq [<- _]].
    exists []. cbn. split; [reflexivity|lia].
  - intros h Hin. left. destruct (Ha h Hin) as [[s Hin'] | [rq [Hin' Ho]]].
    + exists s. apply in_or_app. now left.
    + exists (Resolved []). apply in_or_app. right.
      apply in_map_iff. exists rq. rewrite Ho. auto.
  - intros tm [<- | []]. exact Hv.
Qed.

Lemma answered_run (calls : list (Z * Invocation)) :
  Forall valid_call calls ->
  forall w, well_formed w -> answered w -> answered (run calls w).
Proof.
  induction 1 as [|c calls Hc _ IH]; intros w Hw Ha; [exact Ha|].
  cbn [run fold_left]. apply IH.
  - apply well_formed_trigger. now apply well_formed_advance.
  - apply answered_trigger; [now apply well_formed_advance| |exact Hc].
    now apply answered_run_until.
Qed.

(** Once the host has run everything, nothing is pending. *)
Lemma settle_quiet (w : World) :
  well_formed w -> timers (settle w) = [] /\ requests (settle w) = [].
Proof.
  intros Hw.
  destruct (pending_cases w Hw)
    as [[Hp [Ht Hr]] | [[tm [Hp [Ht Hr]]] | [rq [Hp [Ht Hr]]]]].
  - unfold settle, budget. rewrite Ht, Hr. cbn. auto.
  - destruct (settle_one_timer w tm Ht Hr) as [H1 [H2 _]]. auto.
  - unfold settle, budget. rewrite Ht, Hr. cbn [length Nat.mul Nat.add drain].
    rewrite Hp, earliest_one. cbn [step].
    destruct (arrive_spec w rq Hr) as [Ht' [Hr' _]]. rewrite Ht', Hr', Ht.
    auto.
Qed.

(** C2, as amended.  For every run of calls whose cursors lie in their
    documents, once the host has run everything: every promise that was
    settled was resolved, never rejected, with the empty list or a list of
    one suggestion, and the promise of every call whose timer fired (whose
    body was applied) is among them, whatever its request ended in.  The
    body itself, for each outcome of the request (content, no content, a
    malformed payload, a transport error, a timeout, a cancellation),
    returns such a list without throwing.  (A call superseded while its
    timer is pending is not covered: its promise is never settled.) *)
Theorem fired_invocations_settle (calls : list (Z * Invocation)) :
  Forall valid_call calls ->
  let final := settle (run calls init) in
  timers final = [] /\ requests final = []
  /\ (forall h s, In (h, s) (settled final) ->
        exists items, s = Resolved items /\ length items <= 1)
  /\ (forall h, In h (applied final) ->
        exists items, In (h, Resolved items) (settled final)
                      /\ length items <= 1)
  /\ (forall src doc pos o p,
        valid_position doc pos ->
        exists items,
          snd (pipeline src doc pos o p) = Ok items /\ length items <= 1).
Proof.
  intros Hvalid final.
  assert (Hw : well_formed (run calls init))
    by (apply well_formed_run, well_formed_init).
  assert (Ha : answered (settle (run calls init))).
  { apply answered_drain; [exact Hw|].
    apply answered_run; [exact Hvalid|apply well_formed_init
                        |apply answered_init]. }
  destruct (settle_quiet (run calls init) Hw) as [Ht Hr].
  fold final in Ha, Ht, Hr. destruct Ha as [Hs [Happ _]].
  split; [exact Ht|]. split; [exact Hr|]. split; [|split].
  - intros h s Hin. exact (Hs (h, s) Hin).
  - intros h Hin. destruct (Happ h Hin) as [[s Hin'] | [rq [Hin' _]]].
    + destruct (Hs (h, s) Hin') as [items [Hi Hlen]]. cbn in Hi. subst s.
      exists items. auto.
    + rewrite Hr in Hin'. destruct Hin'.
  - intros src doc pos o p Hv. now apply pipeline_total.
Qed.

Lemma fired_invocations_settle_witness :
  let final :=
    settle (run [(0, sample_call); (400, sample_call)]%Z init) in
  timers final = [] /\ requests final = []
  /\ applied final = [0; 2]
  /\ map fst (settled final) = [0; 2].
Proof.
  destruct (fired_invocations_settle
              [(0, sample_call); (400, sample_call)]%Z)
    as [Ht [Hr _]].
  - repeat constructor; unfold valid_call, valid_position; simpl; lia.
  - split; [exact Ht|]. split; [exact Hr|]. vm_compute. auto.
Defined.

(** C2 fails as stated: of two calls made 100 time units apart, the first
    is superseded while its timer is pending; once nothing is pending any
    more, only the promise of the second call (handle 1) has been settled:
    the promise of the first (handle 0) ends in no list at all. *)
Lemma superseded_call_never_settles :
  let final :=
    settle (run [(0, sample_call); (100, sample_call)]%Z init) in
  timers final = [] /\ requests final = []
  /\ applied final = [1]
  /\ map fst (settled final) = [1]
  /\ ~ In 0 (map fst (settled final)).
Proof.
  vm_compute. repeat split; auto. intros [H | []]. discriminate H.
Qed.

(** A call made while the request of the previous one is in flight cancels
    it: the earlier promise is resolved with the empty list. *)
Example in_flight_request_cancelled :
  settled (settle (run [(0, sample_call); (320, sample_call)]%Z init))
  = [(0, Resolved []);
     (2, Resolved [ {| insertText := js "  foobar";
                       range := whole_line (at_ 0 5) |} ])].
Proof. vm_compute. reflexivity. Qed.

(** A request the server does not answer ends in a timeout: the promise is
    resolved with the empty list and the error goes to the output
    channel. *)
Example timeout_yields_empty :
  let final := settle (run [(0, slow_call)]%Z init) in
  settled final = [(0, Resolved [])]
  /\ outputChannel (provider final)
     = [js "Error: timeout of 10000ms exceeded"].
Proof. vm_compute. split; reflexivity. Qed.

(** *** The retained last defined function *)

(** The field after a scan of the window: unchanged, or the parse of the
    last declaration matched. *)
Lemma retained_function_cases (doc : TextDocument) (pos : Position)
    (p : Provider) :
  lastDefinedFunction (retained doc pos p) = lastDefinedFunction p
  \/ exists earlier lastFn info,
       functionDeclarations doc pos = earlier ++ [lastFn]
       /\ parse_declaration lastFn pos = Some info
       /\ lastDefinedFunction (retained doc pos p) = Some info.
Proof.
  unfold retained.
  destruct (rev (functionDeclarations doc pos)) as [|lastFn fs] eqn:E;
    [now left|].
  destruct (parse_declaration lastFn pos) as [info|] eqn:Ep; [|now left].
  right. exists (rev fs), lastFn, info. split; [|auto].
  rewrite <- (rev_involutive (functionDeclarations doc pos)), E.
  reflexivity.
Qed.

Lemma pipeline_begin_function (src : nat) (doc : TextDocument)
    (pos : Position) (p : Provider) :
  lastDefinedFunction (fst (pipeline_begin src doc pos p))
  = lastDefinedFunction p
  \/ lastDefinedFunction (fst (pipeline_begin src doc pos p))
     = lastDefinedFunction (retained doc pos p).
Proof.
  unfold pipeline_begin, bind, lift.
  destruct (lineAt doc (Z.of_nat (line pos))) as [currentLine|msg];
    [|now left].
  destruct (getContextFromComments doc pos) as [commentContext|msg];
    [|now left].
  match goal with |- context [if ?c then _ else _] => destruct c end;
    [now left|].
  right. unfold getLanguageContext, bind, modify, ret, try_catch.
  pose proof (buildCompletionPrompt_state doc pos
                (substring0 (character pos) currentLine) commentContext
                (detect_language doc)
                (set_currentLanguage (detect_language doc) p)) as Hst.
  destruct (buildCompletionPrompt doc pos
              (substring0 (character pos) currentLine) commentContext
              (detect_language doc)
              (set_currentLanguage (detect_language doc) p))
    as [p' [prompt|msg]]; cbn in Hst; subst p'; cbn;
    unfold retained;
    destruct (rev (functionDeclarations doc pos)) as [|f fs];
    try reflexivity; destruct (parse_declaration f pos); reflexivity.
Qed.

Lemma fire_provider (tm : Timer) (w : World) :
  provider (fire tm w)
  = fst (pipeline_begin (next w) (document (callback tm))
           (position (callback tm)) (provider w)).
Proof.
  unfold fire.
  destruct (pipeline_begin (next w) (document (callback tm))
              (position (callback tm)) (provider w))
    as [p' [[items|req k]|msg]]; reflexivity.
Qed.

Lemma resume_function (rq : Request) (o : Outcome) (w : World) :
  retained_function (resume rq o w) = retained_function w.
Proof.
  unfold retained_function, resume.
  destruct (pipeline_finish_frame (awaited rq) o (provider w)) as [_ [_ H]].
  destruct (pipeline_finish (awaited rq) o (provider w)) as [p' r].
  exact H.
Qed.

Lemma cancelled_function (hit : list Request) :
  forall w,
    retained_function
      (fold_left (fun w rq => resume rq Cancelled w) hit w)
    = retained_function w.
Proof.
  induction hit as [|rq hit IH]; intros w; [reflexivity|].
  cbn [fold_left]. rewrite IH. apply resume_function.
Qed.

Lemma cancel_function (s : option nat) (w : World) :
  retained_function (cancel s w) = retained_function w.
Proof.
  unfold cancel. destruct s as [s|]; [|reflexivity].
  now rewrite cancelled_function.
Qed.

Lemma trigger_function (t : Z) (inv : Invocation) (w : World) :
  retained_function (trigger t inv w) = retained_function w.
Proof.
  unfold trigger. unfold retained_function at 1.
  cbn [provider set_debounceTimeout lastDefinedFunction].
  exact (cancel_function _ _).
Qed.

Lemma arrive_function (rq : Request) (w : World) :
  retained_function (arrive rq w) = retained_function w.
Proof. unfold arrive. now rewrite resume_function. Qed.

Lemma fire_function (tm : Timer) (w : World) :
  retained_function (fire tm w) = retained_function w
  \/ exists earlier lastFn info,
       functionDeclarations (document (callback tm)) (position (callback tm))
       = earlier ++ [lastFn]
       /\ parse_declaration lastFn (position (callback tm)) = Some info
       /\ retained_function (fire tm w) = Some info.
Proof.
  unfold retained_function. rewrite fire_provider.
  destruct (pipeline_begin_function (next w) (document (callback tm))
              (position (callback tm)) (provider w)) as [H | H];
    [now left|].
  rewrite H. apply retained_function_cases.
Qed.

Lemma step_keeps_function (e : Event) (w : World) :
  retained_function w <> None -> retained_function (step e w) <> None.
Proof.
  intros Hsome. destruct e as [tm | rq]; cbn [step].
  - destruct (fire_function tm w) as [H | [earlier [f [info [_ [_ H]]]]]];
      rewrite H; [exact Hsome|discriminate].
  - now rewrite arrive_function.
Qed.

Lemma run_until_keeps_function (t : Z) :
  forall fuel w,
    retained_function w <> None ->
    retained_function (run_until fuel t w) <> None.
Proof.
  induction fuel as [|fuel IH]; intros w Hsome; cbn [run_until];
    [exact Hsome|].
  destruct (earliest (pending w)) as [e|]; [|exact Hsome].
  destruct (time_of e <=? t)%Z; [|exact Hsome].
  apply IH. now apply step_keeps_function.
Qed.

Lemma drain_keeps_function :
  forall fuel w,
    retained_function w <> None ->
    retained_function (drain fuel w) <> None.
Proof.
  induction fuel as [|fuel IH]; intros w Hsome; cbn [drain]; [exact Hsome|].
  destruct (earliest (pending w)) as [e|]; [|exact Hsome].
  apply IH. now apply step_keeps_function.
Qed.

Lemma run_keeps_function (calls : list (Z * Invocation)) :
  forall w,
    retained_function w <> None ->
    retained_function (run calls w) <> None.
Proof.
  induction calls as [|c calls IH]; intros w Hsome; [exact Hsome|].
  cbn [run fold_left]. apply IH. rewrite trigger_function.
  now apply run_until_keeps_function.
Qed.

(** C9. Over every sequence of operations of one provider, the retained
    last defined function, once set, is never cleared.  A new call and the
    end of a request leave it as it is; the body of a fired timer changes
    it only by storing the parse of the last declaration with a parameter
    list matched in its trailing window, and leaves it unchanged when the
    window holds no such declaration. *)
Theorem retained_function_only_overwritten (w : World) :
  (forall t inv,
     retained_function (trigger t inv w) = retained_function w)
  /\ (forall rq, retained_function (arrive rq w) = retained_function w)
  /\ (forall tm,
        retained_function (fire tm w) = retained_function w
        \/ exists earlier lastFn info,
             functionDeclarations (document (callback tm))
               (position (callback tm)) = earlier ++ [lastFn]
             /\ parse_declaration lastFn (position (callback tm)) = Some info
             /\ retained_function (fire tm w) = Some info)
  /\ (forall tm,
        functionDeclarations (document (callback tm))
          (position (callback tm)) = [] ->
        retained_function (fire tm w) = retained_function w)
  /\ (forall calls,
        retained_function w <> None ->
        retained_function (run calls w) <> None
        /\ retained_function (settle (run calls w)) <> None).
Proof.
  split; [intros; apply trigger_function|].
  split; [intros; apply arrive_function|].
  split; [intros; apply fire_function|].
  split.
  - intros tm Hnone.
    destruct (fire_function tm w) as [H | [earlier [f [info [Hd _]]]]];
      [exact H|].
    rewrite Hnone in Hd. destruct earlier; discriminate Hd.
  - intros calls Hsome.
    assert (H : retained_function (run calls w) <> None)
      by now apply run_keeps_function.
    split; [exact H|]. now apply drain_keeps_function.
Qed.

Lemma retained_function_only_overwritten_witness :
  let w := settle (run [(0, add_call)]%Z init) in
  retained_function w = Some (add_info (at_ 3 0))
  /\ retained_function (settle (run [(1000, plain_call)]%Z w))
     = Some (add_info (at_ 3 0)).
Proof.
  intros w.
  destruct (retained_function_only_overwritten w)
    as [_ [_ [_ [_ Hkeep]]]].
  destruct (Hkeep [(1000, plain_call)]%Z) as [_ H].
  - vm_compute. discriminate.
  - split; [vm_compute; reflexivity|].
    destruct (retained_function (settle (run [(1000, plain_call)]%Z w)))
      eqn:E; [|contradiction].
    vm_compute in E. injection E as <-. reflexivity.
Defined.

End SchedulerFacts.

(** ** The matcher and the sanitizer *)

Module SanitizerFacts.
Import JS RegExp Editor CompletionProvider Notions Samples PipelineFacts.

Lemma In_skipn {A} (n : nat) (l : list A) (x : A) :
  In x (skipn n l) -> In x l.
Proof.
  revert l. induction n as [|n IH]; intros [|y l] H; cbn in H; auto.
  right. now apply IH.
Qed.

Lemma skipn_shorter {A} (n : nat) (l : list A) :
  length (skipn n l) <= length l.
Proof. rewrite length_skipn. lia. Qed.

Lemma within_refl (rest : jsstring) : within rest rest.
Proof. split; auto. Qed.

Lemma within_trans (a b c : jsstring) : within a b -> within b c -> within a c.
Proof. intros [H1 L1] [H2 L2]. split; [auto|lia]. Qed.

Lemma star_loop_continues (atom : atom_matcher) (greedy : bool) (k : cont) :
  continues atom ->
  forall fuel prev rest cs res,
    star_loop atom greedy k fuel prev rest cs = Some res ->
    exists prev' rest' cs', k prev' rest' cs' = Some res /\ within rest' rest.
Proof.
  intros Hatom. induction fuel as [|fuel IHf]; intros prev rest cs res H;
    cbn [star_loop] in H.
  - exists prev, rest, cs. split; [exact H|apply within_refl].
  - assert (Hmore : forall res',
      atom prev rest cs
        (fun p r' c' =>
           if length r' <? length rest
           then star_loop atom greedy k fuel p r' c' else None) = Some res' ->
      exists prev' rest' cs',
        k prev' rest' cs' = Some res' /\ within rest' rest).
    { intros res' E. apply Hatom in E.
      destruct E as [p1 [r1 [c1 [H1 W1]]]].
      destruct (length r1 <? length rest); [|discriminate].
      apply IHf in H1. destruct H1 as [p2 [r2 [c2 [H2 W2]]]].
      exists p2, r2, c2. split; [exact H2|].
      exact (within_trans r2 r1 rest W2 W1). }
    destruct greedy.
    + match type of H with
      | match ?m with _ => _ end = _ => destruct m as [res'|] eqn:E
      end.
      * injection H as <-. now apply Hmore.
      * exists prev, rest, cs. split; [exact H|apply within_refl].
    + destruct (k prev rest cs) as [res'|] eqn:E.
      * injection H as <-. exists prev, rest, cs.
        split; [exact E|apply within_refl].
      * now apply Hmore.
Qed.

(** A match is always completed by the continuation. *)
Lemma matcher_continues (ml : bool) (r : regex) : continues (matcher ml r).
Proof.
  induction r as [|c|f|a IHa b IHb|a IHa b IHb|greedy a IHa|n a IHa|n
                  |a IHa| |];
    intros prev rest cs k res H; cbn [matcher] in H.
  - exists prev, rest, cs. split; [exact H|apply within_refl].
  - destruct rest as [|x t]; [discriminate|].
    destruct (x =? c)%N; [|discriminate].
    exists (Some x), t, cs. split; [exact H|].
    split; [intros y Hy; now right|cbn; lia].
  - destruct rest as [|x t]; [discriminate|].
    destruct (f x); [|discriminate].
    exists (Some x), t, cs. split; [exact H|].
    split; [intros y Hy; now right|cbn; lia].
  - apply IHa in H. destruct H as [p1 [r1 [c1 [H1 W1]]]].
    apply IHb in H1. destruct H1 as [p2 [r2 [c2 [H2 W2]]]].
    exists p2, r2, c2. split; [exact H2|].
    exact (within_trans r2 r1 rest W2 W1).
  - destruct (matcher ml a prev rest cs k) as [res'|] eqn:E.
    + injection H as <-. now apply IHa in E.
    + now apply IHb in H.
  - exact (star_loop_continues (matcher ml a) greedy k IHa _ _ _ _ _ H).
  - apply IHa in H. destruct H as [p1 [r1 [c1 [H1 W1]]]]. eauto.
  - destruct (capture n cs) as [sub|].
    + destruct (startsWith sub rest); [|discriminate].
      eexists _, _, _. split; [exact H|].
      split; [intros x; apply In_skipn|apply skipn_shorter].
    + exists prev, rest, cs. split; [exact H|apply within_refl].
  - destruct (matcher ml a prev rest cs (fun _ r' c' => Some (r', c')))
      as [[r1 c1]|]; [|discriminate].
    eexists _, _, _. split; [exact H|apply within_refl].
  - destruct prev as [c|].
    + destruct (ml && is_line_terminator c); [|discriminate].
      eexists _, _, _. split; [exact H|apply within_refl].
    + eexists _, _, _. split; [exact H|apply within_refl].
  - destruct rest as [|c t].
    + eexists _, _, _. split; [exact H|apply within_refl].
    + destruct (ml && is_line_terminator c); [|discriminate].
      eexists _, _, _. split; [exact H|apply within_refl].
Qed.

(** *** What a match tells about the text *)

Lemma matcher_Cat (ml : bool) (a b : regex) (prev : option char)
    (rest : jsstring) (cs : captures) (k : cont) :
  matcher ml (Cat a b) prev rest cs k
  = matcher ml a prev rest cs (fun p r' c' => matcher ml b p r' c' k).
Proof. reflexivity. Qed.

Lemma matcher_Group (ml : bool) (n : nat) (a : regex) (prev : option char)
    (rest : jsstring) (cs : captures) (k : cont) :
  matcher ml (Group n a) prev rest cs k
  = matcher ml a prev rest cs
      (fun p r' c' => k p r' ((n, consumed rest r') :: c')).
Proof. reflexivity. Qed.

Lemma matcher_Lit (ml : bool) (c : char) (prev : option char)
    (rest : jsstring) (cs : captures) (k : cont) res :
  matcher ml (Lit c) prev rest cs k = Some res ->
  exists t, rest = c :: t /\ k (Some c) t cs = Some res.
Proof.
  cbn [matcher]. destruct rest as [|x t]; [discriminate|].
  destruct (x =? c)%N eqn:E; [|discriminate].
  apply N.eqb_eq in E. subst x. eauto.
Qed.

Lemma matcher_Class (ml : bool) (f : char -> bool) (prev : option char)
    (rest : jsstring) (cs : captures) (k : cont) res :
  matcher ml (Class f) prev rest cs k = Some res ->
  exists x t, rest = x :: t /\ f x = true /\ k (Some x) t cs = Some res.
Proof.
  cbn [matcher]. destruct rest as [|x t]; [discriminate|].
  destruct (f x) eqn:E; [|discriminate]. eauto.
Qed.

Lemma matcher_Bol (ml : bool) (prev : option char) (rest : jsstring)
    (cs : captures) (k : cont) res :
  matcher ml Bol prev rest cs k = Some res ->
  (ml = true -> line_start prev = true)
  /\ (ml = false -> prev = None)
  /\ k prev rest cs = Some res.
Proof.
  cbn [matcher]. destruct prev as [c|]; [|auto].
  destruct ml; cbn [andb line_start]; [|discriminate].
  destruct (is_line_terminator c); [|discriminate].
  intros H. split; [auto|]. split; [discriminate|exact H].
Qed.

Lemma matcher_Backref (ml : bool) (n : nat) (sub : jsstring)
    (prev : option char) (rest : jsstring) (cs : captures) (k : cont) res :
  capture n cs = Some sub ->
  matcher ml (Backref n) prev rest cs k = Some res ->
  startsWith sub rest = true
  /\ k (last_char prev sub) (skipn (length sub) rest) cs = Some res.
Proof.
  intros Hc. cbn [matcher]. rewrite Hc.
  destruct (startsWith sub rest); [auto|discriminate].
Qed.

Lemma matcher_Ahead (ml : bool) (f : char -> bool) (prev : option char)
    (rest : jsstring) (cs : captures) (k : cont) res :
  matcher ml (Ahead (Class f)) prev rest cs k = Some res ->
  exists x t, rest = x :: t /\ f x = true.
Proof.
  cbn [matcher]. destruct rest as [|x t]; [discriminate|].
  destruct (f x) eqn:E; [eauto|discriminate].
Qed.

(** A literal text is matched unit by unit. *)
Lemma matcher_lits (ml : bool) (l : jsstring) :
  forall prev rest cs (k : cont) res,
    matcher ml (fold_right (fun c r => Cat (Lit c) r) Eps l) prev rest cs k
    = Some res ->
    exists p t, rest = l ++ t /\ k p t cs = Some res.
Proof.
  induction l as [|c l IH]; intros prev rest cs k res H; cbn [fold_right] in H.
  - exists prev, rest. split; [reflexivity|exact H].
  - rewrite matcher_Cat in H. apply matcher_Lit in H.
    destruct H as [t [-> H]]. apply IH in H.
    destruct H as [p [t' [-> H]]]. exists p, t'.
    split; [reflexivity|exact H].
Qed.

Lemma matcher_Str (ml : bool) (x : string) (b : regex) (prev : option char)
    (rest : jsstring) (cs : captures) (k : cont) res :
  matcher ml (Cat (Str x) b) prev rest cs k = Some res ->
  exists p t, rest = js x ++ t /\ matcher ml b p t cs k = Some res.
Proof.
  rewrite matcher_Cat. unfold Str. intros H.
  apply matcher_lits in H. exact H.
Qed.

(** A run of a one-unit class takes units of the class, and the match is
    completed after them. *)
Lemma star_class (ml : bool) (f : char -> bool) (greedy : bool) (k : cont) :
  forall fuel prev rest cs res,
    star_loop (matcher ml (Class f)) greedy k fuel prev rest cs = Some res ->
    exists mid rest' p,
      rest = mid ++ rest' /\ forallb f mid = true
      /\ k p rest' cs = Some res.
Proof.
  induction fuel as [|fuel IH]; intros prev rest cs res H;
    cbn [star_loop] in H.
  - exists [], rest, prev. auto.
  - assert (Hmore : forall res',
      matcher ml (Class f) prev rest cs
        (fun p r' c' =>
           if length r' <? length rest
           then star_loop (matcher ml (Class f)) greedy k fuel p r' c'
           else None) = Some res' ->
      exists mid rest' p,
        rest = mid ++ rest' /\ forallb f mid = true
        /\ k p rest' cs = Some res').
    { intros res' E. apply matcher_Class in E.
      destruct E as [x [t [-> [Hx E]]]].
      destruct (length t <? length (x :: t)); [|discriminate].
      apply IH in E. destruct E as [mid [r' [p [-> [Hm E]]]]].
      exists (x :: mid), r', p. split; [reflexivity|].
      split; [cbn [forallb]; now rewrite Hx|exact E]. }
    destruct greedy.
    + match type of H with
      | match ?m with _ => _ end = _ => destruct m as [res'|] eqn:E
      end.
      * injection H as <-. now apply Hmore.
      * exists [], rest, prev. auto.
    + destruct (k prev rest cs) as [res'|] eqn:E.
      * injection H as <-. exists [], rest, prev. auto.
      * now apply Hmore.
Qed.

Lemma matcher_Star (ml greedy : bool) (f : char -> bool)
    (prev : option char) (rest : jsstring) (cs : captures) (k : cont) res :
  matcher ml (Star greedy (Class f)) prev rest cs k = Some res ->
  exists mid rest' p,
    rest = mid ++ rest' /\ forallb f mid = true /\ k p rest' cs = Some res.
Proof. intros H. exact (star_class ml f greedy k _ _ _ _ _ H). Qed.

Lemma matcher_Plus (ml : bool) (f : char -> bool) (prev : option char)
    (rest : jsstring) (cs : captures) (k : cont) res :
  matcher ml (Plus (Class f)) prev rest cs k = Some res ->
  exists x mid rest' p,
    rest = x :: mid ++ rest' /\ f x = true /\ forallb f mid = true
    /\ k p rest' cs = Some res.
Proof.
  unfold Plus. rewrite matcher_Cat. intros H. apply matcher_Class in H.
  destruct H as [x [t [-> [Hx H]]]]. apply matcher_Star in H.
  destruct H as [mid [r' [p [-> [Hm H]]]]]. exists x, mid, r', p. auto.
Qed.

Lemma matcher_Plus_Lit (ml : bool) (c : char) (prev : option char)
    (rest : jsstring) (cs : captures) (k : cont) res :
  matcher ml (Plus (Lit c)) prev rest cs k = Some res ->
  exists x mid rest' p,
    rest = x :: mid ++ rest' /\ (x =? c)%N = true
    /\ forallb (fun y => (y =? c)%N) mid = true
    /\ k p rest' cs = Some res.
Proof.
  intros H.
  change (matcher ml (Plus (Class (fun y => (y =? c)%N))) prev rest cs k
          = Some res) in H.
  now apply matcher_Plus in H.
Qed.

(** The pattern that ends with [$] only matches up to the end of the
    text. *)
Lemma matcher_end (p : option char) (r : jsstring) (c : captures) res :
  matcher false (Cat Eol Eps) p r c (fun _ r' c' => Some (r', c')) = Some res ->
  r = [] /\ fst res = [].
Proof.
  destruct r as [|x r]; cbn; [|discriminate].
  intros H. injection H as <-. auto.
Qed.

(** *** Where a pattern matches nowhere *)

Lemma last_char_cons (prev : option char) (c : char) (pre : jsstring) :
  last_char prev (c :: pre) = last_char (Some c) pre.
Proof.
  unfold last_char. cbn [rev]. destruct (rev pre) as [|x l]; reflexivity.
Qed.

Lemma last_char_some (prev : option char) (pre : jsstring) :
  pre <> [] -> exists c, last_char prev pre = Some c.
Proof.
  destruct pre as [|x pre]; [congruence|]. intros _.
  rewrite last_char_cons. unfold last_char.
  destruct (rev pre); eauto.
Qed.

(** A pattern that matches at no position of the text is not found. *)
Lemma search_none (ml : bool) (r : regex) :
  forall rest prev idx,
    (forall pre rest',
       rest = pre ++ rest' ->
       matcher ml r (last_char prev pre) rest' []
         (fun _ r' c' => Some (r', c')) = None) ->
    search ml r prev rest idx = None.
Proof.
  induction rest as [|c t IH]; intros prev idx H; cbn [search];
    unfold match_here.
  - pose proof (H [] [] eq_refl) as H0.
    change (last_char prev []) with prev in H0. now rewrite H0.
  - pose proof (H [] (c :: t) eq_refl) as H0.
    change (last_char prev []) with prev in H0. rewrite H0. apply IH.
    intros pre rest' E. rewrite <- (last_char_cons prev). apply H.
    now rewrite E.
Qed.

Lemma replace_none (ml : bool) (r : regex) (by_ s : jsstring) :
  search ml r None s 0 = None -> replace ml r by_ s = s.
Proof. intros H. unfold replace. now rewrite H. Qed.

Lemma replace_all_none (ml : bool) (r : regex) (by_ s : jsstring) :
  search ml r None s 0 = None -> replace_all ml r by_ s = s.
Proof. intros H. unfold replace_all. cbn [scan]. now rewrite H. Qed.

Lemma search_here (ml : bool) (r : regex) (prev : option char)
    (rest : jsstring) (idx : nat) (f : found) :
  match_here ml r prev rest idx = Some f ->
  search ml r prev rest idx = Some f.
Proof. intros H. destruct rest; cbn [search]; now rewrite H. Qed.

(** Without the [m] flag, [^] only matches at the start of the text. *)
Lemma anchored_none (b : regex) (pre : jsstring) (prev : option char)
    (rest : jsstring) (cs : captures) (k : cont) :
  pre <> [] -> matcher false (Cat Bol b) (last_char prev pre) rest cs k = None.
Proof.
  intros Hp. destruct (last_char_some prev pre Hp) as [c ->]. reflexivity.
Qed.

Lemma search_anchored (b : regex) :
  forall rest c idx, search false (Cat Bol b) (Some c) rest idx = None.
Proof.
  intros rest c idx. apply search_none. intros pre rest' _.
  destruct pre as [|x pre]; [reflexivity|].
  apply anchored_none. discriminate.
Qed.

Lemma includes_infix (p pre t : jsstring) : includes p (pre ++ p ++ t) = true.
Proof.
  induction pre as [|x pre IH].
  - cbn [app]. destruct (p ++ t) eqn:E; cbn [includes];
      rewrite <- E, startsWith_app; reflexivity.
  - cbn [app includes]. rewrite IH. apply orb_true_r.
Qed.

Lemma anywhere_app (here : jsstring -> bool) (pre r : jsstring) :
  here r = true -> anywhere here (pre ++ r) = true.
Proof.
  intros H. induction pre as [|x pre IH].
  - cbn [app]. destruct r; cbn [anywhere]; now rewrite H.
  - cbn [app anywhere]. rewrite IH. apply orb_true_r.
Qed.

Tactic Notation "nowhere" ident(M) :=
  apply search_none; intros ? ? ->;
  match goal with
  | |- ?m = None =>
      let res := fresh "res" in
      destruct m as [res|] eqn:M; [exfalso|reflexivity]
  end.

(** **** Code fences *)

Lemma fence_lang_stable (y : jsstring) :
  includes (js "```") y = false -> replace_all false re_fence_lang [] y = y.
Proof.
  intros Hy. apply replace_all_none. nowhere M.
  unfold re_fence_lang, Seq in M. cbn [fold_right] in M.
  apply matcher_Str in M. destruct M as [p [t [-> _]]].
  now rewrite includes_infix in Hy.
Qed.

Lemma fence_stable (y : jsstring) :
  includes (js "```") y = false -> replace_all false re_fence [] y = y.
Proof.
  intros Hy. apply replace_all_none. nowhere M.
  unfold re_fence, Seq in M. cbn [fold_right] in M.
  apply matcher_Str in M. destruct M as [p [t [-> _]]].
  now rewrite includes_infix in Hy.
Qed.

(** **** Line feeds at the ends *)

Lemma leading_newlines_stable (y : jsstring) :
  startsWith [LF] y = false -> replace false re_leading_newlines [] y = y.
Proof.
  intros Hy. apply replace_none. nowhere M.
  unfold re_leading_newlines, Seq in M. cbn [fold_right] in M.
  rewrite matcher_Cat in M. apply matcher_Bol in M.
  destruct M as [_ [Hp M]]. specialize (Hp eq_refl). cbv beta in M.
  rewrite matcher_Cat in M. apply matcher_Plus_Lit in M.
  destruct M as [x [mid [r' [p [-> [Hx _]]]]]].
  apply N.eqb_eq in Hx. subst x.
  match type of Hy with
  | startsWith _ (?pre ++ _) = _ => destruct pre as [|c pre]
  end.
  - cbn in Hy. discriminate.
  - destruct (last_char_some None (c :: pre)) as [z Hz]; [discriminate|].
    congruence.
Qed.

Lemma endsWith_run (f : char -> bool) (c : char) (pre l : jsstring) :
  (forall x, f x = true -> x = c) -> l <> [] -> forallb f l = true ->
  endsWith [c] (pre ++ l) = true.
Proof.
  intros Hf Hl Hall. unfold endsWith. rewrite rev_app_distr.
  destruct (rev l) as [|x r] eqn:E.
  - apply (f_equal (@length _)) in E. rewrite length_rev in E.
    destruct l; [congruence|discriminate].
  - assert (Hx : In x l) by (apply in_rev; rewrite E; now left).
    rewrite forallb_forall in Hall. rewrite (Hf x (Hall x Hx)).
    cbn. now rewrite N.eqb_refl.
Qed.

Lemma trailing_newlines_stable (y : jsstring) :
  endsWith [LF] y = false -> replace false re_trailing_newlines [] y = y.
Proof.
  intros Hy. apply replace_none. nowhere M.
  unfold re_trailing_newlines, Seq in M. cbn [fold_right] in M.
  rewrite matcher_Cat in M. apply matcher_Plus_Lit in M.
  destruct M as [x [mid [r' [p [-> [Hx [Hm M]]]]]]]. cbv beta in M.
  apply matcher_end in M. destruct M as [-> _].
  rewrite (endsWith_run (fun y => (y =? LF)%N) LF) in Hy;
    [discriminate| |discriminate|].
  - intros z Hz. now apply N.eqb_eq in Hz.
  - rewrite app_nil_r. cbn [forallb]. rewrite Hx. exact Hm.
Qed.

(** **** Comment lines *)

Lemma trimLeft_spaces (mid r : jsstring) :
  forallb is_space mid = true -> trimLeft (mid ++ r) = trimLeft r.
Proof.
  induction mid as [|c mid IH]; cbn [forallb app trimLeft]; [reflexivity|].
  intros H. apply andb_true_iff in H. destruct H as [-> H]. now apply IH.
Qed.

Lemma comment_line_at (pre : jsstring) :
  forall prev rest',
    line_start (last_char prev pre) = true ->
    startsWith (js "//") (trimLeft rest') = true ->
    comment_line prev (pre ++ rest') = true.
Proof.
  induction pre as [|x pre IH]; intros prev rest' Hl Hs.
  - destruct rest' as [|c t]; [discriminate|].
    cbn [app comment_line]. cbn in Hl. now rewrite Hl, Hs.
  - cbn [app comment_line]. rewrite last_char_cons in Hl.
    rewrite (IH (Some x) rest' Hl Hs). apply orb_true_r.
Qed.

Lemma comment_lines_stable (y : jsstring) :
  comment_line None y = false -> replace_all true re_comment_line [] y = y.
Proof.
  intros Hy. apply replace_all_none. nowhere M.
  unfold re_comment_line, Seq in M. cbn [fold_right] in M.
  rewrite matcher_Cat in M. apply matcher_Bol in M.
  destruct M as [Hl [_ M]]. specialize (Hl eq_refl). cbv beta in M.
  rewrite matcher_Cat in M. apply matcher_Star in M.
  destruct M as [mid [r [p [-> [Hm M]]]]]. cbv beta in M.
  apply matcher_Str in M. destruct M as [p' [t [-> _]]].
  rewrite comment_line_at in Hy; [discriminate|exact Hl|].
  rewrite (trimLeft_spaces _ _ Hm). reflexivity.
Qed.

(** **** The function block *)

(** The test on a single block never changes the text: the pattern is
    anchored at both ends, so what it matches is the whole text. *)
Lemma single_block_whole (s : jsstring) (f : found) :
  match_first false re_single_block s = Some f -> matched f = s.
Proof.
  unfold match_first. intros H.
  assert (Hhere : forall f',
            match_here false re_single_block None s 0 = Some f' ->
            matched f' = s).
  { unfold match_here. intros f' E.
    destruct (matcher false re_single_block None s []
                (fun _ r' c' => Some (r', c'))) as [[r' c']|] eqn:M;
      [|discriminate].
    injection E as <-. cbn [matched].
    unfold re_single_block, Seq in M. cbn [fold_right] in M.
    do 5 (rewrite matcher_Cat in M; apply matcher_continues in M;
          destruct M as [? [? [? [M _]]]]; cbv beta in M).
    apply matcher_end in M. destruct M as [_ M]. cbn [fst] in M. subst r'.
    unfold consumed. cbn [length]. rewrite Nat.sub_0_r. apply firstn_all. }
  destruct s as [|c t]; cbn [search] in H.
  - destruct (match_here false re_single_block None [] 0) as [f'|] eqn:E;
      [|discriminate].
    injection H as <-. now apply Hhere.
  - destruct (match_here false re_single_block None (c :: t) 0)
      as [f'|] eqn:E.
    + injection H as <-. now apply Hhere.
    + unfold re_single_block, Seq in H. cbn [fold_right] in H.
      rewrite search_anchored in H. discriminate.
Qed.

(** **** Calls of [console.log] *)

Lemma closes_after (q : char) (mid t : jsstring) :
  forallb is_dot mid = true -> startsWith [q; chr ")"] t = true ->
  closes q (mid ++ t) = true.
Proof.
  intros Hm Ht. induction mid as [|c mid IH].
  - cbn [app]. destruct t; cbn [closes]; now rewrite Ht.
  - cbn [forallb] in Hm. apply andb_true_iff in Hm. destruct Hm as [Hc Hm].
    cbn [app closes]. rewrite Hc, (IH Hm). apply orb_true_r.
Qed.

Lemma consumed_cons (x : char) (t : jsstring) : consumed (x :: t) t = [x].
Proof.
  unfold consumed. cbn [length].
  replace (S (length t) - length t) with 1 by lia. reflexivity.
Qed.

Lemma consumed_app (g tail : jsstring) : consumed (g ++ tail) tail = g.
Proof.
  unfold consumed. rewrite length_app.
  replace (length g + length tail - length tail) with (length g) by lia.
  rewrite firstn_app, Nat.sub_diag, firstn_all. cbn [firstn].
  apply app_nil_r.
Qed.

Lemma console_log_stable (y : jsstring) :
  anywhere quoted_call_here y = false ->
  match_first false re_console_log y = None.
Proof.
  intros Hy. unfold match_first. nowhere M.
  unfold re_console_log, Seq in M. cbn [fold_right] in M.
  apply matcher_Str in M. destruct M as [p [t1 [-> M]]].
  rewrite matcher_Cat, matcher_Group in M. unfold OneOf in M.
  apply matcher_Class in M. destruct M as [q [t2 [-> [Hq M]]]].
  cbv beta in M. rewrite consumed_cons in M.
  rewrite matcher_Cat, matcher_Group in M. apply matcher_Star in M.
  destruct M as [mid [t3 [p' [-> [Hm M]]]]]. cbv beta in M.
  rewrite matcher_Cat in M.
  apply (matcher_Backref false 1 [q]) in M; [|reflexivity].
  destruct M as [Hs M]. cbv beta in M. rewrite matcher_Cat in M.
  apply matcher_Lit in M. destruct M as [t4 [Ht4 _]].
  destruct t3 as [|a t3]; [discriminate|]. cbn [length skipn] in Ht4.
  subst t3.
  rewrite anywhere_app in Hy; [discriminate|].
  unfold quoted_call_here. rewrite startsWith_app. cbn [andb].
  change (skipn 12 (js "console.log(" ++ q :: mid ++ a :: chr ")" :: t4))
    with (q :: mid ++ a :: chr ")" :: t4).
  cbn [existsb] in Hq. rewrite orb_false_r in Hq. cbv iota beta.
  rewrite Hq. cbn [andb].
  apply closes_after; [exact Hm|].
  cbn [startsWith] in Hs |- *. apply andb_true_iff in Hs.
  destruct Hs as [-> _]. now rewrite N.eqb_refl.
Qed.

Lemma matcher_Class_run (ml : bool) (f : char -> bool) (prev : option char)
    (x : char) (t : jsstring) (cs : captures) (k : cont) :
  f x = true -> matcher ml (Class f) prev (x :: t) cs k = k (Some x) t cs.
Proof. intros H. cbn [matcher]. now rewrite H. Qed.

(** A literal text matches itself. *)
Lemma matcher_lits_run (ml : bool) (l : jsstring) :
  forall prev t cs (k : cont),
    matcher ml (fold_right (fun c r => Cat (Lit c) r) Eps l) prev (l ++ t)
      cs k
    = k (last_char prev l) t cs.
Proof.
  induction l as [|c l IH]; intros prev t cs k; [reflexivity|].
  cbn [fold_right app]. rewrite matcher_Cat. cbn [matcher].
  rewrite N.eqb_refl, IH, last_char_cons. reflexivity.
Qed.

(** The lazy run [.*?] stops at the first place where the rest of the
    pattern matches. *)
Lemma lazy_dots (ml : bool) (k : cont) res (tail : jsstring)
    (cs : captures) :
  (forall p, k p tail cs = Some res) ->
  forall g fuel prev,
    forallb is_dot g = true ->
    (forall p g1 c g2, g = g1 ++ c :: g2 ->
                       k p (c :: g2 ++ tail) cs = None) ->
    length (g ++ tail) <= fuel ->
    star_loop (matcher ml (Class is_dot)) false k fuel prev (g ++ tail) cs
    = Some res.
Proof.
  intros Hend.
  induction g as [|c g IH]; intros fuel prev Hg Hskip Hlen.
  - cbn [app]. destruct fuel; cbn [star_loop]; now rewrite Hend.
  - cbn [forallb] in Hg. apply andb_true_iff in Hg. destruct Hg as [Hc Hg].
    destruct fuel as [|fuel]; [cbn in Hlen; lia|].
    cbn [app star_loop]. rewrite (Hskip prev [] c g eq_refl).
    cbn [matcher]. rewrite Hc.
    assert (Hlt : (length (g ++ tail) <? length (c :: g ++ tail)) = true)
      by (apply Nat.ltb_lt; cbn; lia).
    rewrite Hlt. apply IH; [exact Hg| |cbn in Hlen; lia].
    intros p g1 c' g2 E. apply (Hskip p (c :: g1)). now rewrite E.
Qed.

(** The call written by the sanitizer is matched as a whole, with the
    quoted text as its second group. *)
Lemma console_log_normal (g : jsstring) :
  one_argument g = true ->
  exists f,
    match_first false re_console_log (console_log_of g) = Some f
    /\ group 2 f = g.
Proof.
  unfold one_argument. intros Hg. apply andb_true_iff in Hg.
  destruct Hg as [Hdots Hfree]. apply negb_true_iff in Hfree.
  unfold match_first, console_log_of.
  set (tail := [dquote] ++ js ")").
  set (cs := [(1, [dquote])] : captures).
  assert (M : matcher false re_console_log None
                (js "console.log(" ++ [dquote] ++ g ++ tail) []
                (fun _ r' c' => Some (r', c'))
              = Some ([], (2, g) :: cs)).
  { unfold re_console_log, Seq. cbn [fold_right].
    rewrite matcher_Cat. unfold Str. rewrite matcher_lits_run. cbv beta.
    rewrite matcher_Cat, matcher_Group. unfold OneOf.
    cbn [app]. rewrite matcher_Class_run by reflexivity.
    rewrite consumed_cons. fold cs.
    rewrite matcher_Cat, matcher_Group.
    change (matcher false (Star false (Class is_dot)) (Some dquote)
              (g ++ tail) cs ?k)
      with (star_loop (matcher false (Class is_dot)) false k
              (length (g ++ tail)) (Some dquote) (g ++ tail) cs).
    apply lazy_dots; [|exact Hdots| |apply le_n].
    - intros p. rewrite consumed_app. reflexivity.
    - intros p g1 c g2 E. rewrite matcher_Cat. cbn [matcher].
      cbn [capture find fst snd Nat.eqb option_map startsWith].
      destruct (dquote =? c)%N eqn:Ec; [|reflexivity].
      apply N.eqb_eq in Ec. subst c. cbn [andb length skipn].
      destruct g2 as [|d g2]; [reflexivity|]. cbn [app].
      destruct (d =? chr ")")%N eqn:Ed; [|reflexivity].
      apply N.eqb_eq in Ed. subst d. exfalso.
      rewrite E in Hfree.
      change (g1 ++ dquote :: chr ")" :: g2)
        with (g1 ++ ([dquote] ++ js ")") ++ g2) in Hfree.
      rewrite includes_infix in Hfree. discriminate. }
  eexists. split.
  - apply search_here. unfold match_here. rewrite M. reflexivity.
  - reflexivity.
Qed.

(** **** Annotations, generics and interfaces *)

Lemma word_then_app (follows : jsstring -> bool) (mid t : jsstring) :
  forallb is_word mid = true -> follows t = true ->
  word_then follows (mid ++ t) = true.
Proof.
  intros Hm Ht. induction mid as [|c mid IH].
  - cbn [app]. destruct t; cbn [word_then]; now rewrite Ht.
  - cbn [forallb] in Hm. apply andb_true_iff in Hm. destruct Hm as [Hc Hm].
    cbn [app word_then]. rewrite Hc, (IH Hm). apply orb_true_r.
Qed.

Lemma closed_by_app (c d : char) (mid t : jsstring) :
  negb (d =? c)%N = true -> closed_by c (d :: mid ++ c :: t) = true.
Proof.
  intros Hd. cbn [closed_by]. rewrite Hd. cbn [andb].
  apply existsb_exists. exists c. split; [|apply N.eqb_refl].
  apply in_or_app. right. now left.
Qed.

Lemma type_annotation_stable (y : jsstring) :
  anywhere annotation_here y = false ->
  replace_all false re_type_annotation [] y = y.
Proof.
  intros Hy. apply replace_all_none. nowhere M.
  unfold re_type_annotation, Seq in M. cbn [fold_right] in M.
  apply matcher_Str in M. destruct M as [p [t1 [-> M]]].
  rewrite matcher_Cat in M. apply matcher_Plus in M.
  destruct M as [w [mid [t2 [p' [-> [Hw [Hm M]]]]]]]. cbv beta in M.
  rewrite matcher_Cat in M. apply matcher_Ahead in M.
  destruct M as [x [t3 [-> Hx]]].
  rewrite anywhere_app in Hy; [discriminate|].
  unfold annotation_here. rewrite startsWith_app. cbn [andb].
  change (skipn 2 (js ": " ++ w :: mid ++ x :: t3))
    with (w :: mid ++ x :: t3).
  cbv iota beta. rewrite Hw. cbn [andb]. apply word_then_app; [exact Hm|].
  unfold ends_annotation. rewrite Hx. apply orb_true_r.
Qed.

Lemma array_annotation_stable (y : jsstring) :
  anywhere annotation_here y = false ->
  replace_all false re_array_annotation [] y = y.
Proof.
  intros Hy. apply replace_all_none. nowhere M.
  unfold re_array_annotation, Seq in M. cbn [fold_right] in M.
  apply matcher_Str in M. destruct M as [p [t1 [-> M]]].
  rewrite matcher_Cat in M. apply matcher_Plus in M.
  destruct M as [w [mid [t2 [p' [-> [Hw [Hm M]]]]]]]. cbv beta in M.
  apply matcher_Str in M. destruct M as [p'' [t3 [-> _]]].
  rewrite anywhere_app in Hy; [discriminate|].
  unfold annotation_here. rewrite startsWith_app. cbn [andb].
  change (skipn 2 (js ": " ++ w :: mid ++ js "[]" ++ t3))
    with (w :: mid ++ js "[]" ++ t3).
  cbv iota beta. rewrite Hw. cbn [andb]. apply word_then_app; [exact Hm|].
  unfold ends_annotation. now rewrite startsWith_app.
Qed.

Lemma generic_stable (y : jsstring) :
  anywhere generic_here y = false -> replace_all false re_generic [] y = y.
Proof.
  intros Hy. apply replace_all_none. nowhere M.
  unfold re_generic, Seq, Not in M. cbn [fold_right] in M.
  rewrite matcher_Cat in M. apply matcher_Lit in M.
  destruct M as [t1 [-> M]]. cbv beta in M.
  rewrite matcher_Cat in M. apply matcher_Plus in M.
  destruct M as [d [mid [t2 [p' [-> [Hd [_ M]]]]]]]. cbv beta in M.
  rewrite matcher_Cat in M. apply matcher_Lit in M.
  destruct M as [t3 [-> _]].
  rewrite anywhere_app in Hy; [discriminate|].
  cbn [generic_here]. rewrite N.eqb_refl. cbn [andb].
  now apply closed_by_app.
Qed.

Lemma interface_stable (y : jsstring) :
  anywhere interface_here y = false ->
  replace_all false re_interface [] y = y.
Proof.
  intros Hy. apply replace_all_none. nowhere M.
  unfold re_interface, Seq, Not in M. cbn [fold_right] in M.
  apply matcher_Str in M. destruct M as [p [t1 [-> M]]].
  rewrite matcher_Cat in M. apply matcher_Plus in M.
  destruct M as [w [mid [t2 [p' [-> [Hw [Hm M]]]]]]]. cbv beta in M.
  apply matcher_Str in M. destruct M as [p'' [t3 [-> M]]].
  rewrite matcher_Cat in M. apply matcher_Plus in M.
  destruct M as [d [mid' [t4 [p3 [-> [Hd [_ M]]]]]]]. cbv beta in M.
  rewrite matcher_Cat in M. apply matcher_Lit in M.
  destruct M as [t5 [-> _]].
  rewrite anywhere_app in Hy; [discriminate|].
  unfold interface_here. rewrite startsWith_app. cbn [andb].
  change (skipn 10 (js "interface "
                    ++ w :: mid ++ js " {" ++ d :: mid' ++ chr "}" :: t5))
    with (w :: mid ++ js " {" ++ d :: mid' ++ chr "}" :: t5).
  cbv iota beta. rewrite Hw. cbn [andb]. apply word_then_app; [exact Hm|].
  unfold opens_block. rewrite startsWith_app. cbn [andb].
  change (skipn 2 (js " {" ++ d :: mid' ++ chr "}" :: t5))
    with (d :: mid' ++ chr "}" :: t5).
  now apply closed_by_app.
Qed.

(** *** The sanitizer on stable text *)

(** Stable text is returned as it is. *)
Lemma cleanCompletion_stable (language y : jsstring) :
  stable language y = true -> cleanCompletion_in language y = y.
Proof.
  unfold stable. intros H.
  apply andb_true_iff in H. destruct H as [H Hrest].
  apply andb_true_iff in H. destruct H as [H Hcomment].
  apply andb_true_iff in H. destruct H as [H Hend].
  apply andb_true_iff in H. destruct H as [Hfence Hstart].
  apply negb_true_iff in Hfence, Hstart, Hend, Hcomment.
  unfold cleanCompletion_in. cbv zeta.
  rewrite (fence_lang_stable y Hfence), (fence_stable y Hfence),
    (leading_newlines_stable y Hstart), (trailing_newlines_stable y Hend),
    (comment_lines_stable y Hcomment).
  assert (Hblock :
    (if includes (js "function") y && includes (js "{") y
     then match match_first false re_single_block y with
          | Some functionMatch => matched functionMatch
          | None => y
          end
     else y) = y).
  { destruct (includes (js "function") y && includes (js "{") y);
      [|reflexivity].
    destruct (match_first false re_single_block y) as [f|] eqn:E;
      [|reflexivity].
    now apply single_block_whole. }
  rewrite Hblock.
  apply orb_true_iff in Hrest. destruct Hrest as [Hcall | Hrest].
  - unfold normal_call in Hcall.
    set (g := firstn (length y - 15) (skipn 13 y)) in Hcall.
    apply andb_true_iff in Hcall. destruct Hcall as [Hy Hg].
    apply eqb_eq in Hy.
    destruct (console_log_normal g Hg) as [f [Hf Hg2]].
    rewrite <- Hy in Hf. rewrite Hf.
    assert (Hinc : includes (js "console.log(") y = true).
    { rewrite Hy. unfold console_log_of.
      exact (includes_infix (js "console.log(") [] _). }
    rewrite Hinc, Hg2. symmetry. exact Hy.
  - apply andb_true_iff in Hrest. destruct Hrest as [Hquoted Hjs].
    apply negb_true_iff in Hquoted.
    rewrite (console_log_stable y Hquoted).
    destruct (includes (js "console.log(") y);
      (destruct (eqb language (js "javascript")); [|reflexivity]);
      cbn [negb orb] in Hjs;
      apply andb_true_iff in Hjs; destruct Hjs as [Hjs Hinterface];
      apply andb_true_iff in Hjs; destruct Hjs as [Hannotation Hgeneric];
      apply negb_true_iff in Hannotation, Hgeneric, Hinterface;
      now rewrite (type_annotation_stable y Hannotation),
        (generic_stable y Hgeneric),
        (array_annotation_stable y Hannotation),
        (interface_stable y Hinterface).
Qed.

(** Texts with braces, colons, slashes and line feeds inside are stable,
    and so is the call the sanitizer writes. *)
Lemma stable_examples :
  stable (js "typescript") (js "function f(a: number) { return a; }") = true
  /\ stable (js "javascript")
       (js "const a = 1;" ++ [LF] ++ js "const b = 2;") = true
  /\ stable (js "javascript") (js "x = a / b;") = true
  /\ stable (js "javascript") (js "if (x) { y(); }") = true
  /\ stable (js "javascript") (js "ok ? a : b; // see http://host/") = true
  /\ stable (js "javascript") console_log_hello = true
  /\ stable (js "javascript") (js "console.log(total + 1)") = true
  /\ stable (js "javascript") ([LF] ++ js "done") = false.
Proof. repeat split; vm_compute; reflexivity. Qed.

(** C3, as amended.  When the sanitized form of a model text is stable,
    sanitizing it again changes nothing: applying [cleanCompletion] twice
    yields what applying it once yields.  Stable means that the sanitizer
    finds nothing left to strip or to rewrite: no code fence, no line feed
    at either end, no comment line; the text is the call of [console.log]
    on a one-line text in double quotes, as the sanitizer writes it, or it
    holds no call of
    [console.log] on a quoted text and, for [javascript], no type
    annotation, no text between angle brackets and no interface
    declaration.  In particular a stable model text is returned
    unchanged. *)
Theorem cleanCompletion_idempotent_on_stable (language x : jsstring) :
  stable language (cleanCompletion_in language x) = true ->
  cleanCompletion_in language (cleanCompletion_in language x)
  = cleanCompletion_in language x
  /\ (stable language x = true -> cleanCompletion_in language x = x).
Proof.
  intros Hs. split.
  - exact (cleanCompletion_stable language _ Hs).
  - apply cleanCompletion_stable.
Qed.

Lemma cleanCompletion_idempotent_on_stable_witness :
  cleanCompletion_in (js "typescript") fenced_function = half_function
  /\ cleanCompletion_in (js "typescript")
       (cleanCompletion_in (js "typescript") fenced_function)
     = cleanCompletion_in (js "typescript") fenced_function.
Proof.
  split; [vm_compute; reflexivity|].
  apply (cleanCompletion_idempotent_on_stable (js "typescript")
           fenced_function).
  vm_compute. reflexivity.
Defined.

(** C3 fails as stated: a comment line followed by a line of code is
    sanitized to a line feed followed by the code (the leading line feeds
    are stripped before the comment lines are); sanitizing that again
    strips the line feed.  This holds in both languages, and through the
    method on a fresh provider. *)
Lemma cleanCompletion_not_idempotent :
  cleanCompletion_in (js "javascript") comment_then_code = [LF] ++ js "done"
  /\ cleanCompletion_in (js "javascript")
       (cleanCompletion_in (js "javascript") comment_then_code) = js "done"
  /\ cleanCompletion_in (js "typescript")
       (cleanCompletion_in (js "typescript") comment_then_code)
     <> cleanCompletion_in (js "typescript") comment_then_code
  /\ snd (bind (cleanCompletion comment_then_code) cleanCompletion
            new_provider)
     <> snd (cleanCompletion comment_then_code new_provider).
Proof.
  split; [vm_compute; reflexivity|]. split; [vm_compute; reflexivity|].
  split; vm_compute; discriminate.
Qed.

End SanitizerFacts.

(** ** Fuel

    The bounded loops of the model are given enough fuel: more of it
    changes nothing. *)

Module FuelFacts.
Import JS RegExp Editor CompletionProvider Scheduler Notions
       ExtractorFacts SchedulerFacts SanitizerFacts.

Lemma star_loop_ext (atom : atom_matcher) (greedy : bool) :
  extensional atom ->
  forall fuel prev rest cs (k1 k2 : cont),
    agree_below rest k1 k2 ->
    star_loop atom greedy k1 fuel prev rest cs
    = star_loop atom greedy k2 fuel prev rest cs.
Proof.
  intros Hatom. induction fuel as [|fuel IH]; intros prev rest cs k1 k2 Hk;
    cbn [star_loop].
  - apply Hk. lia.
  - assert (Hmore :
      atom prev rest cs
        (fun p r' c' =>
           if length r' <? length rest
           then star_loop atom greedy k1 fuel p r' c' else None)
      = atom prev rest cs
          (fun p r' c' =>
             if length r' <? length rest
             then star_loop atom greedy k2 fuel p r' c' else None)).
    { apply Hatom. intros p r' c' Hle.
      destruct (length r' <? length rest); [|reflexivity].
      apply IH. intros p2 r2 c2 Hle2. apply Hk. lia. }
    rewrite Hmore, (Hk prev rest cs (Nat.le_refl _)). reflexivity.
Qed.

(** The result of a match depends on the continuation only through what
    it answers on inputs no longer than the matcher's. *)
Lemma matcher_ext (ml : bool) (r : regex) : extensional (matcher ml r).
Proof.
  induction r as [|c|f|a IHa b IHb|a IHa b IHb|greedy a IHa|n a IHa|n
                  |a IHa| |];
    intros prev rest cs k1 k2 Hk; cbn [matcher].
  - apply Hk. lia.
  - destruct rest as [|x t]; [reflexivity|].
    destruct (x =? c)%N; [|reflexivity]. apply Hk. cbn. lia.
  - destruct rest as [|x t]; [reflexivity|].
    destruct (f x); [|reflexivity]. apply Hk. cbn. lia.
  - apply IHa. intros p r' c' Hle. apply IHb.
    intros p2 r2 c2 Hle2. apply Hk. lia.
  - rewrite (IHa prev rest cs k1 k2 Hk), (IHb prev rest cs k1 k2 Hk).
    reflexivity.
  - now apply star_loop_ext.
  - apply IHa. intros p r' c' Hle. now apply Hk.
  - destruct (capture n cs) as [sub|]; [|apply Hk; lia].
    destruct (startsWith sub rest); [|reflexivity].
    apply Hk. apply skipn_shorter.
  - destruct (matcher ml a prev rest cs (fun _ r' c' => Some (r', c')))
      as [[r1 c1]|]; [|reflexivity].
    apply Hk. lia.
  - destruct prev as [c|]; [|apply Hk; lia].
    destruct (ml && is_line_terminator c); [apply Hk; lia|reflexivity].
  - destruct rest as [|c t]; [apply Hk; cbn; lia|].
    destruct (ml && is_line_terminator c); [apply Hk; lia|reflexivity].
Qed.

Lemma star_loop_stuck (atom : atom_matcher) (greedy : bool) (k : cont) :
  continues atom ->
  forall fuel prev cs,
    star_loop atom greedy k fuel prev [] cs = k prev [] cs.
Proof.
  intros Hc fuel prev cs. destruct fuel as [|fuel]; [reflexivity|].
  cbn [star_loop].
  assert (Hnone :
    atom prev [] cs
      (fun p r' c' =>
         if length r' <? length (@nil char)
         then star_loop atom greedy k fuel p r' c' else None) = None).
  { match goal with |- ?m = None => destruct m as [res|] eqn:E end;
      [|reflexivity].
    apply Hc in E. destruct E as [p1 [r1 [c1 [H1 _]]]].
    cbn in H1. discriminate H1. }
  rewrite Hnone. destruct greedy; [reflexivity|].
  destruct (k prev [] cs); reflexivity.
Qed.

(** As many units of fuel as units of input suffice for the iterations of a
    quantified atom. *)
Lemma star_loop_fuel (atom : atom_matcher) (greedy : bool) (k : cont) :
  continues atom -> extensional atom ->
  forall n m prev rest cs,
    length rest <= n -> length rest <= m ->
    star_loop atom greedy k n prev rest cs
    = star_loop atom greedy k m prev rest cs.
Proof.
  intros Hc He. induction n as [|n IH]; intros m prev rest cs Hn Hm.
  - destruct rest; [|cbn in Hn; lia].
    now rewrite !(star_loop_stuck atom greedy k Hc).
  - destruct m as [|m].
    + destruct rest; [|cbn in Hm; lia].
      now rewrite !(star_loop_stuck atom greedy k Hc).
    + cbn [star_loop].
      assert (Hmore :
        atom prev rest cs
          (fun p r' c' =>
             if length r' <? length rest
             then star_loop atom greedy k n p r' c' else None)
        = atom prev rest cs
            (fun p r' c' =>
               if length r' <? length rest
               then star_loop atom greedy k m p r' c' else None)).
      { apply He. intros p r' c' _.
        destruct (length r' <? length rest) eqn:E; [|reflexivity].
        apply Nat.ltb_lt in E. apply IH; lia. }
      now rewrite Hmore.
Qed.

Lemma matcher_star_fuel (ml : bool) (greedy : bool) (a : regex)
    (extra : nat) prev rest cs (k : cont) :
  matcher ml (Star greedy a) prev rest cs k
  = star_loop (matcher ml a) greedy k (length rest + extra) prev rest cs.
Proof.
  cbn [matcher].
  apply star_loop_fuel;
    [apply matcher_continues|apply matcher_ext|lia|lia].
Qed.

Lemma match_here_after (ml : bool) (r : regex) prev rest idx f :
  match_here ml r prev rest idx = Some f ->
  length (after f) <= length rest
  /\ (matched f <> [] -> length (after f) < length rest).
Proof.
  unfold match_here.
  destruct (matcher ml r prev rest [] (fun _ r' c' => Some (r', c')))
    as [[r' c']|] eqn:E; [|discriminate].
  intros H. injection H as <-. cbn [after matched].
  apply matcher_continues in E. destruct E as [p1 [r1 [c1 [H1 [_ Hle]]]]].
  injection H1 as -> ->. split; [exact Hle|].
  unfold consumed. intros Hne.
  destruct (Nat.eq_dec (length rest - length r') 0) as [Hz|Hz]; [|lia].
  rewrite Hz in Hne. now destruct Hne.
Qed.

Lemma search_after (ml : bool) (r : regex) :
  forall rest prev idx f,
    search ml r prev rest idx = Some f ->
    length (after f) <= length rest
    /\ (matched f <> [] -> length (after f) < length rest).
Proof.
  induction rest as [|x t IH]; intros prev idx f H; cbn [search] in H.
  - destruct (match_here ml r prev [] idx) as [f'|] eqn:E; [|discriminate].
    injection H as <-. now apply match_here_after in E.
  - destruct (match_here ml r prev (x :: t) idx) as [f'|] eqn:E.
    + injection H as <-. now apply match_here_after in E.
    + apply IH in H. cbn [length]. destruct H as [H1 H2].
      split; [lia|]. intros Hne. specialize (H2 Hne). lia.
Qed.

(** One unit of fuel more than units of input suffices for the successive
    matches of a global pattern. *)
Lemma scan_fuel (ml : bool) (r : regex) :
  forall n m prev rest,
    length rest < n -> length rest < m ->
    scan n ml r prev rest = scan m ml r prev rest.
Proof.
  induction n as [|n IH]; intros m prev rest Hn Hm; [lia|].
  destruct m as [|m]; [lia|]. cbn [scan].
  destruct (search ml r prev rest 0) as [f|] eqn:E; [|reflexivity].
  destruct (search_after ml r rest prev 0 f E) as [Hle Hlt].
  destruct (matched f) as [|c0 m0] eqn:Em.
  - destruct (after f) as [|c t] eqn:Ea; [reflexivity|].
    cbn [length] in Hle. rewrite (IH m (Some c) t); [reflexivity|lia|lia].
  - assert (Hlt' : length (after f) < length rest)
      by (apply Hlt; discriminate).
    rewrite (IH m _ (after f)); [reflexivity|lia|lia].
Qed.

Lemma replace_all_fuel (ml : bool) (r : regex) (by_ s : jsstring)
    (extra : nat) :
  replace_all ml r by_ s
  = (let '(ms, tail) := scan (S (length s) + extra) ml r None s in
     concat (map (fun bm => fst bm ++ by_) ms) ++ tail).
Proof.
  unfold replace_all.
  now rewrite (scan_fuel ml r (S (length s)) (S (length s) + extra) None s)
    by lia.
Qed.

(** Five units of fuel and one to leave suffice for the scan of the comment
    lines. *)
Lemma comments_loop_fuel (doc : TextDocument) (posLine : Z) :
  forall n m lineNumber context,
    (lineNumber - (posLine - 5) <= Z.of_nat n)%Z ->
    (lineNumber - (posLine - 5) <= Z.of_nat m)%Z ->
    comments_loop n doc posLine lineNumber context
    = comments_loop m doc posLine lineNumber context.
Proof.
  assert (Hout : forall k lineNumber context,
             (lineNumber - (posLine - 5) <= 0)%Z ->
             comments_loop k doc posLine lineNumber context = Ok context).
  { intros [|k] lineNumber context Hle; cbn [comments_loop]; [reflexivity|].
    replace (posLine - 5 <? lineNumber)%Z with false
      by (symmetry; apply Z.ltb_ge; lia).
    now rewrite andb_false_r. }
  induction n as [|n IH]; intros m lineNumber context Hn Hm.
  - rewrite !Hout by (cbn in Hn; lia). reflexivity.
  - destruct m as [|m].
    + rewrite !Hout by (cbn in Hm; lia). reflexivity.
    + cbn [comments_loop].
      destruct ((0 <=? lineNumber) && (posLine - 5 <? lineNumber))%Z;
        [|reflexivity].
      destruct (lineAt doc lineNumber) as [text|msg]; [|reflexivity].
      destruct (startsWith (js "//") (trim text)).
      * apply IH; lia.
      * destruct (truthy context); [reflexivity|]. apply IH; lia.
Qed.

Lemma getContextFromComments_fuel (doc : TextDocument) (pos : Position)
    (extra : nat) :
  getContextFromComments doc pos
  = comments_loop (6 + extra) doc (Z.of_nat (line pos))
      (Z.of_nat (line pos)) [].
Proof.
  unfold getContextFromComments. apply comments_loop_fuel; lia.
Qed.

(** Once the host has run up to time [t], what is still pending is due
    later. *)
Lemma advance_complete (t : Z) (w : World) :
  well_formed w ->
  forall e, In e (pending (advance t w)) -> (t < time_of e)%Z.
Proof.
  intros Hw.
  assert (Hreq : forall w', well_formed w' -> timers w' = [] ->
            forall e, In e (pending (run_until 1 t w')) -> (t < time_of e)%Z).
  { intros w' Hw' Ht' e. cbn [run_until].
    destruct (pending_cases w' Hw')
      as [[Hp _] | [[tm [_ [Htm _]]] | [rq [Hp [_ Hr]]]]].
    - rewrite Hp. cbn. now rewrite Hp.
    - rewrite Htm in Ht'. discriminate.
    - rewrite Hp, earliest_one.
      destruct (time_of (Arrive rq) <=? t)%Z eqn:E.
      + cbn [step]. unfold pending.
        destruct (arrive_spec w' rq Hr) as [Ha [Hb _]].
        rewrite Ha, Hb, Ht'. intros [].
      + rewrite Hp. intros [<- | []]. apply Z.leb_gt in E. exact E. }
  destruct (pending_cases w Hw)
    as [[Hp [Ht Hr]] | [[tm [Hp [Ht Hr]]] | [rq [Hp [Ht Hr]]]]];
    unfold advance, budget; rewrite Ht, Hr; cbn [length Nat.mul Nat.add].
  - cbn [run_until]. rewrite Hp. intros e [].
  - change (run_until 2 t w)
      with (match earliest (pending w) with
            | Some e => if (time_of e <=? t)%Z
                        then run_until 1 t (step e w) else w
            | None => w
            end).
    rewrite Hp, earliest_one.
    destruct (time_of (Fire tm) <=? t)%Z eqn:E.
    + cbn [step]. apply Hreq.
      * now apply well_formed_fire.
      * now destruct (fire_spec w tm Ht Hr) as [H _].
    + rewrite Hp. intros e [<- | []]. apply Z.leb_gt in E. exact E.
  - apply Hreq; assumption.
Qed.

End FuelFacts.

(** ** Further properties of the scheduler *)

Module SchedulerCoverage.
Import JS RegExp Editor CompletionProvider Scheduler Notions Samples Coverage
       ExtractorFacts PipelineFacts SchedulerFacts.

(** *** Single flight, in numbers *)

Lemma well_formed_count (w : World) :
  well_formed w -> length (timers w) + length (requests w) <= 1.
Proof.
  intros Hw.
  destruct (pending_cases w Hw)
    as [[_ [Ht Hr]] | [[tm [_ [Ht Hr]]] | [rq [_ [Ht Hr]]]]];
    rewrite Ht, Hr; cbn; lia.
Qed.

(** X1. Whatever calls are made, at whatever times, the provider never has
    more than one thing pending: one armed timer or one request in flight,
    never both; this also holds after the host has run up to any time, and
    nothing is pending once the host has run everything. *)
Theorem single_flight (calls : list (Z * Invocation)) (t : Z) :
  let w := run calls init in
  length (timers w) + length (requests w) <= 1
  /\ length (timers (advance t w)) + length (requests (advance t w)) <= 1
  /\ timers (settle w) = [] /\ requests (settle w) = [].
Proof.
  intros w.
  assert (Hw : well_formed w) by apply well_formed_run, well_formed_init.
  split; [now apply well_formed_count|].
  split; [now apply well_formed_count, well_formed_advance|].
  now apply settle_quiet.
Qed.

(** *** What a new call changes *)

Lemma cancelled_world (hit : list Request) :
  forall w,
    fold_left (fun w rq => resume rq Cancelled w) hit w
    = {| provider := provider w; timers := timers w; requests := requests w;
         applied := applied w;
         settled := settled w ++ map (fun rq => (owner rq, Resolved [])) hit;
         next := next w |}.
Proof.
  induction hit as [|rq hit IH]; intros w; cbn [fold_left map].
  - rewrite app_nil_r. now destruct w.
  - rewrite IH. unfold resume. rewrite pipeline_finish_cancelled.
    cbn. now rewrite <- app_assoc.
Qed.

(** X2. A new call changes nothing in the provider but the timer handle:
    whatever the state, it writes nothing to the output channel (also when
    it cancels a request), keeps the language and the retained function,
    and does not forget the source of the request it cancelled.  The
    promises it settles are those of the requests of that source, each with
    the empty list. *)
Theorem trigger_only_arms (t : Z) (inv : Invocation) (w : World) :
  provider (trigger t inv w)
  = set_debounceTimeout (Some (next w)) (provider w)
  /\ applied (trigger t inv w) = applied w
  /\ settled (trigger t inv w)
     = settled w
       ++ map (fun rq => (owner rq, Resolved []))
            (match lastRequest (provider w) with
             | Some s => filter (fun rq => source rq =? s) (requests w)
             | None => []
             end).
Proof.
  unfold trigger, cancel. cbn [provider requests].
  destruct (lastRequest (provider w)) as [s|].
  - rewrite cancelled_world. cbn. auto.
  - cbn. now rewrite app_nil_r.
Qed.

(** *** Nothing happens twice *)

Lemma NoDup_snoc {A} (l : list A) (x : A) :
  NoDup l -> ~ In x l -> NoDup (l ++ [x]).
Proof.
  induction l as [|y l IH]; intros Hl Hx; cbn.
  - constructor; [intros []|constructor].
  - inversion Hl as [|? ? Hy Hl']; subst. constructor.
    + intros Hin. apply in_app_or in Hin. destruct Hin as [Hin | [<- | []]].
      * contradiction.
      * apply Hx. now left.
    + apply IH; [exact Hl'|]. intros Hin. apply Hx. now right.
Qed.

Lemma settled_once_init : settled_once init.
Proof.
  unfold settled_once, init; cbn.
  split; [constructor|]. split; [constructor|]. split; intros ? [].
Qed.

Lemma settled_once_fire (w : World) (tm : Timer) :
  settled_once w -> timers w = [tm] -> requests w = [] ->
  settled_once (fire tm w).
Proof.
  intros [Ha [Hs [Ht _]]] Htm Hr.
  destruct (Ht tm) as [Hna Hns]; [rewrite Htm; now left|].
  destruct (fire_spec w tm Htm Hr) as [Ht' [Ha' [_ Hcases]]].
  unfold settled_once. rewrite Ht', Ha'.
  split; [now apply NoDup_snoc|].
  destruct Hcases as [[Hr' [_ [s [Hs' _]]]] | [rq [Hr' [Ho [_ [_ Hs']]]]]];
    rewrite Hr', Hs'.
  - rewrite map_app. cbn [map fst].
    split; [now apply NoDup_snoc|]. split; intros ? [].
  - split; [exact Hs|]. split; [intros ? []|].
    intros x [<- | []]. now rewrite Ho.
Qed.

Lemma settled_once_arrive (w : World) (rq : Request) :
  settled_once w -> timers w = [] -> requests w = [rq] ->
  settled_once (arrive rq w).
Proof.
  intros [Ha [Hs [_ Hrq]]] Ht Hr.
  assert (Hno : ~ In (owner rq) (map fst (settled w)))
    by (apply Hrq; rewrite Hr; now left).
  destruct (arrive_spec w rq Hr)
    as [Ht' [Hr' [Ha' [_ [_ [_ [items [Hs' _]]]]]]]].
  unfold settled_once. rewrite Ht', Hr', Ha', Hs', Ht, map_app.
  cbn [map fst].
  split; [exact Ha|]. split; [now apply NoDup_snoc|]. split; intros ? [].
Qed.

Lemma settled_once_step (w : World) (e : Event) :
  well_formed w -> settled_once w -> earliest (pending w) = Some e ->
  settled_once (step e w).
Proof.
  intros Hw Ho He.
  destruct (pending_cases w Hw)
    as [[Hp _] | [[tm [Hp [Ht Hr]]] | [rq [Hp [Ht Hr]]]]];
    rewrite Hp in He; cbn in He; [discriminate| |];
    injection He as <-; cbn [step].
  - now apply settled_once_fire.
  - now apply settled_once_arrive.
Qed.

Lemma settled_once_run_until (t : Z) :
  forall fuel w, well_formed w -> settled_once w ->
                 settled_once (run_until fuel t w).
Proof.
  induction fuel as [|fuel IH]; intros w Hw Ho; cbn [run_until]; [exact Ho|].
  destruct (earliest (pending w)) as [e|] eqn:He; [|exact Ho].
  destruct (time_of e <=? t)%Z; [|exact Ho].
  apply IH; [now apply well_formed_step|now apply settled_once_step].
Qed.

Lemma settled_once_drain :
  forall fuel w, well_formed w -> settled_once w ->
                 settled_once (drain fuel w).
Proof.
  induction fuel as [|fuel IH]; intros w Hw Ho; cbn [drain]; [exact Ho|].
  destruct (earliest (pending w)) as [e|] eqn:He; [|exact Ho].
  apply IH; [now apply well_formed_step|now apply settled_once_step].
Qed.

Lemma settled_once_trigger (t : Z) (inv : Invocation) (w : World) :
  well_formed w -> settled_once w -> settled_once (trigger t inv w).
Proof.
  intros Hw [Ha [Hs [_ Hrq]]]. rewrite (trigger_spec t inv w Hw).
  destruct Hw as [_ [Hr [_ [Hfr [Hfa Hfs]]]]].
  unfold settled_once, armed, after_cancel. cbn. rewrite map_app, map_map.
  cbn [fst].
  assert (Hnd : NoDup (map fst (settled w) ++ map owner (requests w))).
  { destruct Hr as [-> | [rq [Hone _]]].
    - cbn. now rewrite app_nil_r.
    - rewrite Hone. cbn. apply NoDup_snoc; [exact Hs|].
      apply Hrq. rewrite Hone. now left. }
  split; [exact Ha|]. split; [exact Hnd|]. split; [|intros ? []].
  intros tm [<- | []]. cbn. split.
  - intros Hin. apply Hfa in Hin. lia.
  - intros Hin. apply in_app_or in Hin. destruct Hin as [Hin | Hin].
    + apply in_map_iff in Hin. destruct Hin as [e [He Hin]].
      apply Hfs in Hin. lia.
    + apply in_map_iff in Hin. destruct Hin as [rq [He Hin]].
      apply Hfr in Hin. lia.
Qed.

Lemma settled_once_run (calls : list (Z * Invocation)) :
  forall w, well_formed w -> settled_once w -> settled_once (run calls w).
Proof.
  induction calls as [|c calls IH]; intros w Hw Ho; [exact Ho|].
  cbn [run fold_left]. apply IH.
  - apply well_formed_trigger. now apply well_formed_advance.
  - apply settled_once_trigger; [now apply well_formed_advance|].
    now apply settled_once_run_until.
Qed.

(** X3. Whatever calls are made, no body is ever applied twice and no
    promise is ever settled twice: the handles applied are pairwise
    distinct and so are the handles settled, while the calls are running
    and once the host has run everything. *)
Theorem nothing_settled_twice (calls : list (Z * Invocation)) :
  NoDup (applied (run calls init))
  /\ NoDup (map fst (settled (run calls init)))
  /\ NoDup (applied (settle (run calls init)))
  /\ NoDup (map fst (settled (settle (run calls init)))).
Proof.
  assert (Hw : well_formed (run calls init))
    by apply well_formed_run, well_formed_init.
  assert (Ho : settled_once (run calls init))
    by (apply settled_once_run;
        [apply well_formed_init|apply settled_once_init]).
  assert (Hd : settled_once (settle (run calls init)))
    by now apply settled_once_drain.
  destruct Ho as [H1 [H2 _]]. destruct Hd as [H3 [H4 _]]. auto.
Qed.

(** *** Calls that leave each other time *)









(** *** The language of the provider *)

Lemma detect_language_known (doc : TextDocument) :
  detect_language doc = js "javascript"
  \/ detect_language doc = js "typescript".
Proof.
  unfold detect_language.
  destruct (eqb (languageId doc) (js "typescript")
            || eqb (fileExtension doc) (js "ts")
            || eqb (fileExtension doc) (js "tsx")); auto.
Qed.

Lemma pipeline_begin_language (src : nat) (doc : TextDocument)
    (pos : Position) (p : Provider) :
  currentLanguage (fst (pipeline_begin src doc pos p)) = currentLanguage p
  \/ currentLanguage (fst (pipeline_begin src doc pos p))
     = detect_language doc.
Proof.
  unfold pipeline_begin, bind, lift.
  destruct (lineAt doc (Z.of_nat (line pos))) as [currentLine|msg];
    [|now left].
  destruct (getContextFromComments doc pos) as [commentContext|msg];
    [|now left].
  match goal with |- context [if ?c then _ else _] => destruct c end;
    [now left|].
  right. unfold getLanguageContext, bind, modify, ret, try_catch.
  pose proof (buildCompletionPrompt_state doc pos
                (substring0 (character pos) currentLine) commentContext
                (detect_language doc)
                (set_currentLanguage (detect_language doc) p)) as Hst.
  destruct (buildCompletionPrompt doc pos
              (substring0 (character pos) currentLine) commentContext
              (detect_language doc)
              (set_currentLanguage (detect_language doc) p))
    as [p' [prompt|msg]]; cbn in Hst; subst p'; cbn;
    destruct (retained_frame doc pos
                (set_currentLanguage (detect_language doc) p))
      as [_ [_ [H _]]]; exact H.
Qed.

Lemma pipeline_finish_language (k : Awaited) (o : Outcome) (p : Provider) :
  currentLanguage (fst (pipeline_finish k o p)) = currentLanguage p.
Proof.
  destruct o as [[raw|]|msg|msg| |]; try reflexivity.
  unfold pipeline_finish.
  destruct (negb (truthy raw)); [reflexivity|].
  unfold bind, get.
  now destruct (finalize_language k
                  (sanitize (currentLanguage p) (a_currentLineUptoCursor k)
                     raw) p) as [H _].
Qed.

Lemma known_language_step (e : Event) (w : World) :
  known_language (provider w) -> known_language (provider (step e w)).
Proof.
  unfold known_language. intros Hk. destruct e as [tm | rq]; cbn [step].
  - rewrite fire_provider.
    destruct (pipeline_begin_language (next w) (document (callback tm))
                (position (callback tm)) (provider w)) as [H | H];
      rewrite H; [exact Hk|].
    apply detect_language_known.
  - unfold arrive, resume. cbn [provider awaited].
    pose proof (pipeline_finish_language (awaited rq) (result rq)
                  (provider w)) as H.
    destruct (pipeline_finish (awaited rq) (result rq) (provider w))
      as [p' r]. cbn in *. now rewrite H.
Qed.

Lemma known_language_run_until (t : Z) :
  forall fuel w,
    known_language (provider w) ->
    known_language (provider (run_until fuel t w)).
Proof.
  induction fuel as [|fuel IH]; intros w Hk; cbn [run_until]; [exact Hk|].
  destruct (earliest (pending w)) as [e|]; [|exact Hk].
  destruct (time_of e <=? t)%Z; [|exact Hk].
  apply IH. now apply known_language_step.
Qed.

Lemma known_language_drain :
  forall fuel w,
    known_language (provider w) -> known_language (provider (drain fuel w)).
Proof.
  induction fuel as [|fuel IH]; intros w Hk; cbn [drain]; [exact Hk|].
  destruct (earliest (pending w)) as [e|]; [|exact Hk].
  apply IH. now apply known_language_step.
Qed.

Lemma known_language_trigger (t : Z) (inv : Invocation) (w : World) :
  known_language (provider w) -> known_language (provider (trigger t inv w)).
Proof.
  unfold trigger, cancel. cbn [provider requests].
  destruct (lastRequest (provider w)) as [s|]; [|trivial].
  rewrite cancelled_world. trivial.
Qed.

Lemma known_language_run (calls : list (Z * Invocation)) :
  forall w,
    known_language (provider w) -> known_language (provider (run calls w)).
Proof.
  induction calls as [|c calls IH]; intros w Hk; [exact Hk|].
  cbn [run fold_left]. apply IH. apply known_language_trigger.
  now apply known_language_run_until.
Qed.

(** X5. Whatever calls are made on whatever documents, the language the
    provider holds is always [javascript] or [typescript]: the sanitizer's
    test on the language never meets a third value. *)
Theorem language_always_known (calls : list (Z * Invocation)) (t : Z) :
  known_language (provider (run calls init))
  /\ known_language (provider (advance t (run calls init)))
  /\ known_language (provider (settle (run calls init))).
Proof.
  assert (H : known_language (provider (run calls init)))
    by (apply known_language_run; now left).
  split; [exact H|]. split.
  - now apply known_language_run_until.
  - now apply known_language_drain.
Qed.

End SchedulerCoverage.

(** ** Further properties of the body *)

Module PipelineCoverage.
Import JS RegExp Editor CompletionProvider Scheduler Notions Samples Coverage
       ExtractorFacts PipelineFacts SchedulerFacts.

Lemma lineAt_outside (doc : TextDocument) (pos : Position) :
  ~ valid_position doc pos ->
  lineAt doc (Z.of_nat (line pos)) = Throw (js "Illegal value for `line`").
Proof.
  unfold valid_position, lineAt. intros Hv.
  destruct (Z.of_nat (line pos) <? 0)%Z; [reflexivity|].
  rewrite Nat2Z.id.
  destruct (nth_error (lines doc) (line pos)) eqn:E; [|reflexivity].
  exfalso. apply Hv. apply nth_error_Some. congruence.
Qed.

(** X6. The body throws exactly when the cursor's line is not a line of the
    document (the document shrank while the timer was pending): it then
    throws [Illegal value for `line`] before anything else, the provider is
    left as it was, no request is posted, and the promise of the call is
    rejected, not resolved. *)
Theorem cursor_outside_document (src : nat) (doc : TextDocument)
    (pos : Position) (p : Provider) :
  ((exists msg, snd (pipeline_begin src doc pos p) = Throw msg)
   <-> ~ valid_position doc pos)
  /\ (~ valid_position doc pos ->
      pipeline_begin src doc pos p
      = (p, Throw (js "Illegal value for `line`"))
      /\ forall tm w,
           document (callback tm) = doc -> position (callback tm) = pos ->
           provider (fire tm w) = provider w
           /\ requests (fire tm w) = requests w
           /\ settled (fire tm w)
              = settled w
                ++ [(handle tm, Rejected (js "Illegal value for `line`"))]).
Proof.
  assert (Hout : ~ valid_position doc pos ->
                 forall s q, pipeline_begin s doc pos q
                             = (q, Throw (js "Illegal value for `line`"))).
  { intros Hv s q. unfold pipeline_begin, bind, lift.
    now rewrite (lineAt_outside doc pos Hv). }
  split; [split|].
  - intros [msg Hm].
    destruct (pipeline_begin_cases src doc pos p)
      as [[m [p' [E [Hinv _]]]] | [[p' [E _]] | [p' [req [k [E _]]]]]];
      [exact Hinv| |]; rewrite E in Hm; discriminate Hm.
  - intros Hv. eexists. now rewrite (Hout Hv).
  - intros Hv. split; [now apply Hout|].
    intros tm w Hd Hp. unfold fire. rewrite Hd, Hp, (Hout Hv). cbn. auto.
Qed.

Lemma cursor_outside_document_witness :
  pipeline_begin 0 (js_document [js "foo"]) (at_ 1 0) new_provider
  = (new_provider, Throw (js "Illegal value for `line`")).
Proof.
  destruct (cursor_outside_document 0 (js_document [js "foo"]) (at_ 1 0)
              new_provider) as [_ H].
  destruct H as [H _]; [|exact H].
  unfold valid_position. simpl. lia.
Defined.

(** X7. Only a response with non-empty content can produce a suggestion:
    for a cursor in the document, a transport error, a time-out, a
    cancellation, a malformed payload, a payload without content and one
    with empty content all make the body return the empty list. *)
Theorem only_content_suggests (src : nat) (doc : TextDocument)
    (pos : Position) (o : Outcome) (p : Provider) :
  valid_position doc pos ->
  (forall raw, o = Content (Some raw) -> raw = []) ->
  snd (pipeline src doc pos o p) = Ok [].
Proof.
  intros Hv Ho.
  destruct (lineAt_position doc pos Hv) as [currentLine Hl].
  destruct (getContextFromComments_total doc pos Hv) as [commentContext Hc].
  unfold pipeline, bind.
  destruct (too_short currentLine commentContext pos) eqn:Hs.
  - now rewrite (pipeline_begin_short src doc pos p _ _ Hl Hc Hs).
  - destruct (pipeline_begin_posts src doc pos p _ _ Hl Hc Hs) as [prompt Hb].
    rewrite Hb, pipeline_finish_result.
    destruct o as [[raw|]|msg|msg| |]; try reflexivity.
    now rewrite (Ho raw eq_refl).
Qed.

Lemma only_content_suggests_witness :
  snd (pipeline 0 (js_document [js "  foo"]) (at_ 0 5) TimedOut new_provider)
  = Ok [].
Proof.
  apply (only_content_suggests 0 (js_document [js "  foo"]) (at_ 0 5)
           TimedOut new_provider).
  - unfold valid_position. simpl. lia.
  - intros raw H. discriminate H.
Defined.

(** *** When the model is asked *)

Lemma pipeline_begin_prompt (src : nat) (doc : TextDocument) (pos : Position)
    (p p2 : Provider) (currentLine commentContext prompt : jsstring) :
  lineAt doc (Z.of_nat (line pos)) = Ok currentLine ->
  getContextFromComments doc pos = Ok commentContext ->
  too_short currentLine commentContext pos = false ->
  buildCompletionPrompt doc pos (substring0 (character pos) currentLine)
    commentContext (detect_language doc)
    (set_currentLanguage (detect_language doc) p) = (p2, Ok prompt) ->
  pipeline_begin src doc pos p =
  (set_lastRequest (Some src) p2,
   Ok (Posted
         {| system_content := systemPrompt (base_prompt (detect_language doc));
            user_content := prompt |}
         {| a_currentLineUptoCursor := substring0 (character pos) currentLine;
            a_isEmptyLine := negb (truthy (trim currentLine));
            a_commentContext := commentContext;
            a_position := pos |})).
Proof.
  intros Hl Hc Hs Hp. unfold pipeline_begin, bind, lift.
  rewrite Hl, Hc. unfold too_short in Hs. rewrite Hs.
  unfold getLanguageContext, bind, modify, ret, try_catch.
  now rewrite Hp.
Qed.

(** X8. For a cursor in the document, the body asks the model exactly when
    there is a comment context, or the current line is blank, or at least
    two characters are typed before the cursor (white space at both ends
    not counted); otherwise it returns the empty list without a request.
    A request carries the base prompt of the detected language, and the
    provider then holds the new cancel source and that language. *)
Theorem request_posted_iff (src : nat) (doc : TextDocument) (pos : Position)
    (p : Provider) (currentLine commentContext : jsstring) :
  lineAt doc (Z.of_nat (line pos)) = Ok currentLine ->
  getContextFromComments doc pos = Ok commentContext ->
  ((exists req k, snd (pipeline_begin src doc pos p) = Ok (Posted req k))
   <-> (commentContext <> [] \/ trim currentLine = []
        \/ 2 <= length (trim (substring0 (character pos) currentLine))))
  /\ ((forall req k, snd (pipeline_begin src doc pos p) <> Ok (Posted req k))
      -> pipeline_begin src doc pos p = (p, Ok (Returned [])))
  /\ (forall req k,
        snd (pipeline_begin src doc pos p) = Ok (Posted req k) ->
        system_content req = systemPrompt (base_prompt (detect_language doc))
        /\ lastRequest (fst (pipeline_begin src doc pos p)) = Some src
        /\ currentLanguage (fst (pipeline_begin src doc pos p))
           = detect_language doc).
Proof.
  intros Hl Hc.
  assert (Hiff : too_short currentLine commentContext pos = false
                 <-> (commentContext <> [] \/ trim currentLine = []
                      \/ 2 <= length (trim (substring0 (character pos)
                                              currentLine)))).
  { unfold too_short. split.
    - intros H. destruct commentContext; [|left; discriminate].
      destruct (trim currentLine) eqn:E; [right; now left|].
      right. right. cbn [truthy negb andb] in H.
      apply Nat.ltb_ge in H. exact H.
    - intros [H | [H | H]].
      + destruct commentContext; [congruence|reflexivity].
      + rewrite H. cbn. now rewrite andb_false_r.
      + apply Nat.ltb_ge in H. rewrite H. apply andb_false_r. }
  destruct (too_short currentLine commentContext pos) eqn:Hs.
  - pose proof (pipeline_begin_short src doc pos p _ _ Hl Hc Hs) as Hb.
    rewrite Hb. cbn [snd fst]. split; [split|split].
    + intros [req [k H]]. discriminate H.
    + intros H. apply Hiff in H. discriminate H.
    + reflexivity.
    + intros req k H. discriminate H.
  - destruct (pipeline_begin_posts src doc pos p _ _ Hl Hc Hs) as [prompt Hb].
    rewrite Hb. cbn [snd fst]. split; [split|split].
    + intros _. now apply Hiff.
    + intros _. eauto.
    + intros H. exfalso. eapply H. reflexivity.
    + intros req k H. injection H as <- <-. cbn.
      destruct (retained_frame doc pos
                  (set_currentLanguage (detect_language doc) p))
        as [_ [_ [Hlang _]]].
      rewrite Hlang. auto.
Qed.

Lemma request_posted_iff_witness :
  exists req k,
    snd (pipeline_begin 0 (js_document [[]]) (at_ 0 0) new_provider)
    = Ok (Posted req k).
Proof.
  destruct (request_posted_iff 0 (js_document [[]]) (at_ 0 0) new_provider
              [] []) as [[_ H] _].
  - reflexivity.
  - reflexivity.
  - apply H. right. left. reflexivity.
Defined.

(** *** What a suggestion looks like *)

Lemma trimLeft_of_blank (s : jsstring) :
  forallb is_space s = true -> trimLeft s = [].
Proof.
  induction s as [|c s IH]; cbn; [reflexivity|].
  destruct (is_space c); [exact IH|discriminate].
Qed.

Lemma trim_of_blank (s : jsstring) : forallb is_space s = true -> trim s = [].
Proof.
  intros H. unfold trim, trimRight. now rewrite (trimLeft_of_blank s H).
Qed.

Lemma trim_app_nonblank (a b : jsstring) : trim b <> [] -> trim (a ++ b) <> [].
Proof.
  intros Hb Hab. apply Hb. apply trim_of_blank.
  apply trim_nil_blank in Hab. rewrite forallb_app in Hab.
  now apply andb_true_iff in Hab.
Qed.

(** The list returned for a response with content, when the body reaches
    the request. *)
Lemma pipeline_items (src : nat) (doc : TextDocument) (pos : Position)
    (o : Outcome) (p : Provider) (currentLine commentContext : jsstring)
    (items : list InlineCompletionItem) (item : InlineCompletionItem) :
  lineAt doc (Z.of_nat (line pos)) = Ok currentLine ->
  getContextFromComments doc pos = Ok commentContext ->
  snd (pipeline src doc pos o p) = Ok items ->
  In item items ->
  exists raw,
    o = Content (Some raw)
    /\ snd (finalize
              {| a_currentLineUptoCursor :=
                   substring0 (character pos) currentLine;
                 a_isEmptyLine := negb (truthy (trim currentLine));
                 a_commentContext := commentContext;
                 a_position := pos |}
              (sanitize (detect_language doc)
                 (substring0 (character pos) currentLine) raw)
              (set_lastRequest (Some src)
                 (retained doc pos
                    (set_currentLanguage (detect_language doc) p))))
       = Ok items.
Proof.
  intros Hl Hc Hres Hin.
  destruct (too_short currentLine commentContext pos) eqn:Hs.
  { unfold pipeline, bind in Hres.
    rewrite (pipeline_begin_short src doc pos p _ _ Hl Hc Hs) in Hres.
    injection Hres as <-. destruct Hin. }
  assert (Hother : (forall raw, o = Content (Some raw) -> raw = []) ->
                   items = []).
  { intros Ho. unfold pipeline, bind in Hres.
    destruct (pipeline_begin_posts src doc pos p _ _ Hl Hc Hs)
      as [prompt Hb].
    rewrite Hb, pipeline_finish_result in Hres.
    destruct o as [[raw|]|msg|msg| |]; try (now injection Hres as <-).
    rewrite (Ho raw eq_refl) in Hres. now injection Hres as <-. }
  destruct o as [[raw|]|msg|msg| |];
    try (rewrite Hother in Hin; [destruct Hin|intros ? H; discriminate H]).
  destruct raw as [|c raw'].
  { rewrite Hother in Hin; [destruct Hin|].
    intros ? H. now injection H as <-. }
  exists (c :: raw'). split; [reflexivity|].
  rewrite <- Hres. symmetry.
  apply (pipeline_content src doc pos (c :: raw') p _ _ Hl Hc Hs).
  discriminate.
Qed.

(** X9. Every suggestion the body returns replaces a range on the cursor's
    line that ends at the cursor and starts at the cursor or at the start
    of the line.  Outside the case of a blank line under a comment context,
    its text is never blank and is never the text already typed before the
    cursor. *)
Theorem suggestions_are_insertable (src : nat) (doc : TextDocument)
    (pos : Position) (o : Outcome) (p : Provider)
    (currentLine commentContext : jsstring)
    (items : list InlineCompletionItem) (item : InlineCompletionItem) :
  lineAt doc (Z.of_nat (line pos)) = Ok currentLine ->
  getContextFromComments doc pos = Ok commentContext ->
  snd (pipeline src doc pos o p) = Ok items ->
  In item items ->
  range_end (range item) = pos
  /\ (range_start (range item) = pos
      \/ range_start (range item) = {| line := line pos; character := 0 |})
  /\ (trim currentLine <> [] \/ commentContext = [] ->
      trim (insertText item) <> []
      /\ insertText item <> substring0 (character pos) currentLine).
Proof.
  intros Hl Hc Hres Hin.
  destruct (pipeline_items src doc pos o p _ _ items item Hl Hc Hres Hin)
    as [raw [_ Hfin]].
  rewrite finalize_result in Hfin.
  cbn [a_isEmptyLine a_commentContext a_currentLineUptoCursor a_position]
    in Hfin.
  set (typed := substring0 (character pos) currentLine) in *.
  set (c := sanitize (detect_language doc) typed raw) in *.
  destruct (negb (truthy (trim currentLine)) && truthy commentContext) eqn:Hcase.
  - injection Hfin as <-. destruct Hin as [<- | []]. cbn.
    split; [reflexivity|]. split; [now left|].
    intros Hgen. exfalso. apply andb_true_iff in Hcase.
    destruct Hcase as [H1 H2]. destruct Hgen as [Hne | ->]; [|discriminate].
    destruct (trim currentLine); [congruence|discriminate].
  - destruct (eqb c typed || negb (truthy (trim c))) eqn:Hsame.
    { injection Hfin as <-. destruct Hin. }
    injection Hfin as <-. destruct Hin as [<- | []]. cbn.
    split; [reflexivity|]. split; [now right|]. intros _.
    apply orb_false_iff in Hsame. destruct Hsame as [Hneq Hblank].
    assert (Hc1 : c <> typed).
    { intros E. apply eqb_eq in E. congruence. }
    assert (Hc2 : trim c <> []).
    { destruct (trim c); [discriminate|discriminate]. }
    destruct (negb (startsWith (trimLeft typed) c)).
    + split; [now apply trim_app_nonblank|].
      intros E. rewrite <- (app_nil_r typed) in E at 2.
      apply app_inv_head in E. apply Hc2. now rewrite E.
    + auto.
Qed.

Lemma suggestions_are_insertable_witness :
  let item :=
    {| insertText := js "  foobar"; range := whole_line (at_ 0 5) |} in
  range_end (range item) = at_ 0 5
  /\ trim (insertText item) <> [].
Proof.
  intros item.
  destruct (suggestions_are_insertable 0 (js_document [js "  foo"])
              (at_ 0 5) (Content (Some (js "bar"))) new_provider
              (js "  foo") [] [item] item) as [H1 [_ H2]].
  - reflexivity.
  - reflexivity.
  - vm_compute. reflexivity.
  - left. reflexivity.
  - split; [exact H1|]. apply H2. right. reflexivity.
Defined.

(** X10. On a blank line under a comment context, any non-empty content of
    the response yields exactly one suggestion: the sanitized text,
    inserted at the cursor.  Nothing is filtered there: the text may be
    empty. *)
Theorem blank_line_under_comment (src : nat) (doc : TextDocument)
    (pos : Position) (raw : jsstring) (p : Provider)
    (currentLine commentContext : jsstring) :
  lineAt doc (Z.of_nat (line pos)) = Ok currentLine ->
  getContextFromComments doc pos = Ok commentContext ->
  trim currentLine = [] ->
  commentContext <> [] ->
  raw <> [] ->
  snd (pipeline src doc pos (Content (Some raw)) p)
  = Ok [ {| insertText :=
              sanitize (detect_language doc)
                (substring0 (character pos) currentLine) raw;
            range := at_cursor pos |} ].
Proof.
  intros Hl Hc Hblank Hcc Hraw.
  assert (Hs : too_short currentLine commentContext pos = false).
  { unfold too_short. destruct commentContext; [congruence|reflexivity]. }
  rewrite (pipeline_content src doc pos raw p _ _ Hl Hc Hs Hraw).
  rewrite finalize_result.
  cbn [a_isEmptyLine a_commentContext a_currentLineUptoCursor a_position].
  rewrite Hblank. destruct commentContext; [congruence|reflexivity].
Qed.

Lemma blank_line_under_comment_witness :
  snd (pipeline 0 (js_document [add_two_numbers; []]) (at_ 1 0)
         (Content (Some (js "return a + b;"))) new_provider)
  = Ok [ {| insertText := js "return a + b;"; range := at_cursor (at_ 1 0) |} ].
Proof.
  apply (blank_line_under_comment 0 (js_document [add_two_numbers; []])
           (at_ 1 0) (js "return a + b;") new_provider []
           (add_two_numbers ++ [LF])).
  - reflexivity.
  - reflexivity.
  - reflexivity.
  - discriminate.
  - discriminate.
Defined.

(** *** A cursor in a comment *)

Lemma trimLeft_keeps (a b : jsstring) (c : char) :
  is_space c = false -> exists a', trimLeft (a ++ c :: b) = a' ++ c :: b.
Proof.
  intros Hc. induction a as [|x a IH]; cbn.
  - rewrite Hc. now exists [].
  - destruct (is_space x); [exact IH|]. now exists (x :: a).
Qed.

Lemma comment_prefix_length (u : jsstring) :
  startsWith (js "//") (trimLeft u) = true -> 2 <= length (trim u).
Proof.
  unfold trim, trimRight. destruct (trimLeft u) as [|c1 [|c2 rest]];
    try discriminate.
  - change (js "//") with [47%N; 47%N]. cbn [startsWith].
    rewrite andb_false_r. discriminate.
  - change (js "//") with [47%N; 47%N]. cbn [startsWith].
    intros H. apply andb_true_iff in H. destruct H as [H1 H2].
    apply andb_true_iff in H2. destruct H2 as [H2 _].
    apply N.eqb_eq in H1, H2. subst c1 c2.
    change (rev (47%N :: 47%N :: rest))
      with ((rev rest ++ [47%N]) ++ [47%N]).
    rewrite <- app_assoc. cbn [app].
    destruct (trimLeft_keeps (rev rest) [47%N] 47%N eq_refl) as [a' Ha].
    rewrite Ha, length_rev, length_app. cbn. lia.
Qed.

(** X11. When the text before the cursor, leading white space apart,
    starts with [//], the body always asks the model (at least the two
    slashes are typed), and the prompt is the documentation prompt: the
    fixed sentence followed by the text of the line up to the cursor,
    whatever the window and the retained function hold. *)
Theorem comment_position_prompt (src : nat) (doc : TextDocument)
    (pos : Position) (p : Provider) :
  isInsideComment doc pos = Ok true ->
  exists currentLine req k,
    lineAt doc (Z.of_nat (line pos)) = Ok currentLine
    /\ snd (pipeline_begin src doc pos p) = Ok (Posted req k)
    /\ user_content req
       = js "Complete this documentation comment:" ++ [LF]
         ++ substring0 (character pos) currentLine.
Proof.
  intros Hin. pose proof Hin as Hin'. unfold isInsideComment in Hin'.
  destruct (lineAt doc (Z.of_nat (line pos))) as [currentLine|msg] eqn:Hl;
    [|discriminate].
  injection Hin' as Hstart.
  pose proof (lineAt_Ok_valid doc pos currentLine Hl) as Hv.
  destruct (getContextFromComments_total doc pos Hv) as [commentContext Hc].
  assert (Hs : too_short currentLine commentContext pos = false).
  { unfold too_short.
    pose proof (comment_prefix_length _ Hstart) as Hlen.
    apply Nat.ltb_ge in Hlen. rewrite Hlen. apply andb_false_r. }
  set (typed := substring0 (character pos) currentLine) in *.
  set (p1 := set_currentLanguage (detect_language doc) p).
  assert (Hprompt :
    buildCompletionPrompt doc pos typed commentContext (detect_language doc) p1
    = (retained doc pos p1,
       Ok (js "Complete this documentation comment:" ++ [LF] ++ typed))).
  { destruct (analyzeCodeBlock_run doc pos p1 commentContext Hc)
      as [a [Ha _]].
    unfold buildCompletionPrompt, bind. rewrite Ha.
    unfold lift, ret. now rewrite Hin. }
  exists currentLine. eexists. eexists. split; [reflexivity|].
  rewrite (pipeline_begin_prompt src doc pos p _ currentLine commentContext _
             Hl Hc Hs Hprompt).
  cbn [snd]. split; reflexivity.
Qed.

Lemma comment_position_prompt_witness :
  exists currentLine req k,
    lineAt (js_document [js "  // sum of"]) 0 = Ok currentLine
    /\ snd (pipeline_begin 0 (js_document [js "  // sum of"]) (at_ 0 11)
              new_provider) = Ok (Posted req k)
    /\ user_content req
       = js "Complete this documentation comment:" ++ [LF]
         ++ substring0 11 currentLine.
Proof.
  apply (comment_position_prompt 0 (js_document [js "  // sum of"])
           (at_ 0 11) new_provider).
  reflexivity.
Defined.

End PipelineCoverage.

(** ** Further properties of the context extractor and the prompt builder *)

Module ExtractorCoverage.
Import JS RegExp Editor CompletionProvider Scheduler Notions Samples Coverage
       ExtractorFacts PipelineFacts PromptFacts.

(** *** The comment context *)

Lemma comments_loop_shape (doc : TextDocument) (pos : Position) :
  forall fuel lineNumber ls0 c,
    (lineNumber <= Z.of_nat (line pos))%Z ->
    Forall (collected_from doc pos) ls0 ->
    comments_loop fuel doc (Z.of_nat (line pos)) lineNumber
      (comment_block ls0) = Ok c ->
    exists ls,
      c = comment_block ls
      /\ Forall (collected_from doc pos) ls
      /\ (Z.of_nat (length ls)
          <= Z.of_nat (length ls0)
             + Z.max 0 (lineNumber - (Z.of_nat (line pos) - 5)))%Z.
Proof.
  induction fuel as [|fuel IH]; intros lineNumber ls0 c Hle Hall H;
    cbn [comments_loop] in H.
  - injection H as <-. exists ls0. split; [reflexivity|]. split; [exact Hall|].
    lia.
  - destruct ((0 <=? lineNumber)
              && (Z.of_nat (line pos) - 5 <? lineNumber))%Z eqn:C.
    2:{ injection H as <-. exists ls0. split; [reflexivity|].
        split; [exact Hall|]. lia. }
    apply andb_true_iff in C. destruct C as [C0 C1].
    apply Z.leb_le in C0. apply Z.ltb_lt in C1.
    destruct (lineAt doc lineNumber) as [text|msg] eqn:Hl; [|discriminate].
    destruct (startsWith (js "//") (trim text)) eqn:Hs.
    + replace (trim text ++ [LF] ++ comment_block ls0)
        with (comment_block (trim text :: ls0)) in H
        by (unfold comment_block; cbn [map concat];
            now rewrite <- app_assoc).
      apply IH in H; [|lia|].
      * destruct H as [ls [Hc [Hf Hlen]]]. exists ls.
        split; [exact Hc|]. split; [exact Hf|]. cbn [length] in Hlen. lia.
      * constructor; [|exact Hall]. split; [exact Hs|].
        exists lineNumber, text. split; [lia|]. auto.
    + destruct (truthy (comment_block ls0)).
      * injection H as <-. exists ls0. split; [reflexivity|].
        split; [exact Hall|]. lia.
      * apply IH in H; [|lia|exact Hall].
        destruct H as [ls [Hc [Hf Hlen]]]. exists ls.
        split; [exact Hc|]. split; [exact Hf|]. lia.
Qed.

(** X12. The comment context is made of at most five lines, each the
    trimmed text of a line among the five that end at the cursor's, each
    starting with [//] and each followed by one line feed: it is empty or
    ends with a line feed, and holds no text of a line that is no
    comment. *)
Theorem comment_context_shape (doc : TextDocument) (pos : Position)
    (c : jsstring) :
  getContextFromComments doc pos = Ok c ->
  exists ls,
    c = comment_block ls
    /\ length ls <= 5
    /\ Forall (collected_from doc pos) ls.
Proof.
  unfold getContextFromComments. intros H.
  apply (comments_loop_shape doc pos 6 (Z.of_nat (line pos)) [] c) in H;
    [|lia|constructor].
  destruct H as [ls [Hc [Hf Hlen]]]. exists ls.
  split; [exact Hc|]. split; [|exact Hf]. cbn [length] in Hlen. lia.
Qed.

Lemma comment_context_shape_witness :
  exists ls,
    js "// first" ++ [LF] ++ js "// second" ++ [LF] = comment_block ls
    /\ length ls <= 5
    /\ Forall (collected_from
                 (js_document [js "code();"; js "  // first"; js "// second";
                               []])
                 (at_ 3 0)) ls.
Proof.
  apply (comment_context_shape
           (js_document [js "code();"; js "  // first"; js "// second"; []])
           (at_ 3 0)).
  reflexivity.
Defined.

Lemma comments_loop_local (doc doc' : TextDocument) (posLine : Z) :
  (forall n, (posLine - 4 <= n <= posLine)%Z -> lineAt doc n = lineAt doc' n) ->
  forall fuel lineNumber context,
    (lineNumber <= posLine)%Z ->
    comments_loop fuel doc posLine lineNumber context
    = comments_loop fuel doc' posLine lineNumber context.
Proof.
  intros Hsame. induction fuel as [|fuel IH]; intros lineNumber context Hle;
    cbn [comments_loop]; [reflexivity|].
  destruct ((0 <=? lineNumber) && (posLine - 5 <? lineNumber))%Z eqn:C;
    [|reflexivity].
  apply andb_true_iff in C. destruct C as [_ C1]. apply Z.ltb_lt in C1.
  rewrite <- (Hsame lineNumber) by lia.
  destruct (lineAt doc lineNumber) as [text|msg]; [|reflexivity].
  destruct (startsWith (js "//") (trim text)).
  - apply IH. lia.
  - destruct (truthy context); [reflexivity|]. apply IH. lia.
Qed.

(** X13. The comment context depends on the five lines that end at the
    cursor's and on nothing else: two documents that agree on these lines
    give the same context (or the same exception), whatever their other
    lines hold. *)
Theorem comment_context_local (doc doc' : TextDocument) (pos : Position) :
  (forall n, (Z.of_nat (line pos) - 4 <= n <= Z.of_nat (line pos))%Z ->
             lineAt doc n = lineAt doc' n) ->
  getContextFromComments doc pos = getContextFromComments doc' pos.
Proof.
  intros Hsame. unfold getContextFromComments.
  apply comments_loop_local; [exact Hsame|lia].
Qed.

Lemma comment_context_local_witness :
  getContextFromComments
    (js_document [js "// far above"; js "a"; js "b"; js "c"; js "d";
                  js "// near"; []]) (at_ 6 0)
  = getContextFromComments
      (js_document [js "something else"; js "a"; js "b"; js "c"; js "d";
                    js "// near"; []; js "// below"]) (at_ 6 0).
Proof.
  apply (comment_context_local
           (js_document [js "// far above"; js "a"; js "b"; js "c"; js "d";
                         js "// near"; []])
           (js_document [js "something else"; js "a"; js "b"; js "c"; js "d";
                         js "// near"; []; js "// below"]) (at_ 6 0)).
  intros n Hn. cbn [line at_] in Hn.
  assert (H : (n = 2 \/ n = 3 \/ n = 4 \/ n = 5 \/ n = 6)%Z) by lia.
  destruct H as [-> | [-> | [-> | [-> | ->]]]]; reflexivity.
Defined.

(** *** The language of a document *)

Lemma split_on_without (sep : char) (x : jsstring) :
  ~ In sep x -> split_on sep x = [x].
Proof.
  induction x as [|c x IH]; intros Hno; cbn [split_on]; [reflexivity|].
  destruct (c =? sep)%N eqn:E.
  - apply N.eqb_eq in E. exfalso. apply Hno. now left.
  - rewrite IH; [reflexivity|]. intros H. apply Hno. now right.
Qed.

Lemma split_on_last_piece (sep : char) (base ext : jsstring) :
  ~ In sep ext ->
  exists pieces, split_on sep (base ++ sep :: ext) = pieces ++ [ext]
                 /\ pieces <> [].
Proof.
  intros Hno. induction base as [|c base [pieces [IH Hne]]];
    cbn [app split_on].
  - rewrite N.eqb_refl, (split_on_without sep ext Hno).
    exists [[]]. split; [reflexivity|discriminate].
  - rewrite IH. destruct (c =? sep)%N.
    + exists ([] :: pieces). split; [reflexivity|discriminate].
    + destruct pieces as [|p0 ps]; [congruence|]. cbn [app].
      exists ((c :: p0) :: ps). split; [reflexivity|discriminate].
Qed.

Lemma fileExtension_of (doc : TextDocument) (base ext : jsstring) :
  fsPath doc = base ++ [chr "."] ++ ext ->
  ~ In (chr ".") ext ->
  fileExtension doc = toLowerCase ext.
Proof.
  intros Hpath Hno. unfold fileExtension. rewrite Hpath. cbn [app].
  destruct (split_on_last_piece (chr ".") base ext Hno) as [pieces [Hs _]].
  rewrite Hs, rev_app_distr. reflexivity.
Qed.

(** X14. For a path that ends in a dot followed by an extension, the
    document is treated as TypeScript exactly when its language id is
    [typescript] or its extension is [ts] or [tsx] in any mix of upper and
    lower case; otherwise it is treated as JavaScript, whatever its
    language id. *)
Theorem typescript_by_extension (doc : TextDocument) (base ext : jsstring) :
  fsPath doc = base ++ [chr "."] ++ ext ->
  ~ In (chr ".") ext ->
  (detect_language doc = js "typescript"
   <-> (languageId doc = js "typescript"
        \/ toLowerCase ext = js "ts" \/ toLowerCase ext = js "tsx"))
  /\ (detect_language doc <> js "typescript" ->
      detect_language doc = js "javascript").
Proof.
  intros Hpath Hno. unfold detect_language.
  rewrite (fileExtension_of doc base ext Hpath Hno).
  destruct (eqb (languageId doc) (js "typescript")) eqn:E1;
    destruct (eqb (toLowerCase ext) (js "ts")) eqn:E2;
    destruct (eqb (toLowerCase ext) (js "tsx")) eqn:E3;
    cbn [orb];
    try (split; [split; [intros _|reflexivity]|congruence];
         first [left; now apply eqb_eq
               |right; left; now apply eqb_eq
               |right; right; now apply eqb_eq]).
  split; [|reflexivity]. split; [discriminate|].
  intros [H | [H | H]]; apply eqb_eq in H; congruence.
Qed.

Lemma typescript_by_extension_witness :
  detect_language
    {| lines := [[]]; eol := [LF]; languageId := js "plaintext";
       fsPath := js "/work/src/App.view.TSX" |} = js "typescript".
Proof.
  apply (typescript_by_extension
           {| lines := [[]]; eol := [LF]; languageId := js "plaintext";
              fsPath := js "/work/src/App.view.TSX" |}
           (js "/work/src/App.view") (js "TSX")).
  - reflexivity.
  - vm_compute. intuition discriminate.
  - right. right. reflexivity.
Defined.

(** *** The retained function and the usage prompt *)

Lemma parse_declaration_line (lastFn : jsstring) (pos : Position)
    (info : FunctionInfo) :
  parse_declaration lastFn pos = Some info ->
  decl_line info = (Z.of_nat (line pos) - 1)%Z
  /\ returnType info = None
  /\ exists text, params info = map trim (split_on (chr ",") text).
Proof.
  unfold parse_declaration.
  destruct (match_first false re_signature lastFn) as [m|]; [|discriminate].
  intros H. injection H as <-. cbn. eauto.
Qed.

(** X15. Whenever the scan of the trailing window matches a declaration
    with a parameter list, the function is taken as just defined, wherever
    in the window the declaration stands: the line recorded is always the
    one above the cursor, and out of a comment position the prompt built is
    the usage prompt for the last declaration matched. *)
Theorem declaration_anywhere_is_recent (doc : TextDocument) (pos : Position)
    (currentLine commentContext language : jsstring) (p : Provider)
    (earlier : list jsstring) (lastFn : jsstring) (info : FunctionInfo) :
  functionDeclarations doc pos = earlier ++ [lastFn] ->
  parse_declaration lastFn pos = Some info ->
  isInsideComment doc pos = Ok false ->
  decl_line info = (Z.of_nat (line pos) - 1)%Z
  /\ buildCompletionPrompt doc pos currentLine commentContext language p
     = (set_lastDefinedFunction (Some info) p, Ok (usage_prompt info)).
Proof.
  intros Hdecl Hparse Hinside.
  destruct (parse_declaration_line lastFn pos info Hparse) as [Hline _].
  split; [exact Hline|].
  pose proof (isInsideComment_valid doc pos false Hinside) as Hv.
  destruct (getContextFromComments_total doc pos Hv) as [comments Hc].
  destruct (analyzeCodeBlock_run doc pos p comments Hc)
    as [a [Ha [_ Hrecent]]].
  assert (Hret : retained doc pos p = set_lastDefinedFunction (Some info) p).
  { unfold retained. rewrite Hdecl, rev_app_distr. cbn [rev app].
    now rewrite Hparse. }
  rewrite Hret in Ha, Hrecent. cbn in Hrecent.
  rewrite Hline, Z.eqb_refl in Hrecent.
  unfold buildCompletionPrompt, bind. rewrite Ha.
  unfold lift, get, ret. rewrite Hinside, Hrecent. reflexivity.
Qed.

Lemma declaration_anywhere_is_recent_witness :
  buildCompletionPrompt far_declaration (at_ 7 5) (js "total") []
    (js "javascript") new_provider
  = (set_lastDefinedFunction (Some (twice_info (at_ 7 5))) new_provider,
     Ok (usage_prompt (twice_info (at_ 7 5)))).
Proof.
  apply (declaration_anywhere_is_recent far_declaration (at_ 7 5)
           (js "total") [] (js "javascript") new_provider []
           (js "const twice = async (n)") (twice_info (at_ 7 5))).
  - vm_compute. reflexivity.
  - vm_compute. reflexivity.
  - vm_compute. reflexivity.
Defined.

(** X16. The retained function outlives its document: when the provider
    retains a function recorded for the line above the cursor's line
    number, a call whose own window holds no declaration, on whatever
    document, is still answered with the usage prompt for that function
    (out of a comment position), and the provider is left as it was. *)
Theorem retained_function_is_stale (doc : TextDocument) (pos : Position)
    (currentLine commentContext language : jsstring) (p : Provider)
    (f : FunctionInfo) :
  lastDefinedFunction p = Some f ->
  decl_line f = (Z.of_nat (line pos) - 1)%Z ->
  functionDeclarations doc pos = [] ->
  isInsideComment doc pos = Ok false ->
  buildCompletionPrompt doc pos currentLine commentContext language p
  = (p, Ok (usage_prompt f)).
Proof.
  intros Hf Hline Hnone Hinside.
  pose proof (isInsideComment_valid doc pos false Hinside) as Hv.
  destruct (getContextFromComments_total doc pos Hv) as [comments Hc].
  destruct (analyzeCodeBlock_run doc pos p comments Hc)
    as [a [Ha [_ Hrecent]]].
  assert (Hret : retained doc pos p = p)
    by (unfold retained; now rewrite Hnone).
  rewrite Hret in Ha, Hrecent. rewrite Hf, Hline, Z.eqb_refl in Hrecent.
  unfold buildCompletionPrompt, bind. rewrite Ha.
  unfold lift, get, ret. rewrite Hinside, Hrecent, Hf. reflexivity.
Qed.

Lemma retained_function_is_stale_witness :
  buildCompletionPrompt other_document (at_ 3 5) (js "third") []
    (js "javascript") provider_with_add
  = (provider_with_add, Ok add_usage_prompt).
Proof.
  apply (retained_function_is_stale other_document (at_ 3 5) (js "third") []
           (js "javascript") provider_with_add (add_info (at_ 3 0))).
  - reflexivity.
  - reflexivity.
  - vm_compute. reflexivity.
  - vm_compute. reflexivity.
Defined.

End ExtractorCoverage.

(** ** The sanitizing of the completion text *)

Module SanitizerCoverage.
Import JS RegExp Editor CompletionProvider Scheduler Notions Samples Coverage
       PipelineFacts SanitizerFacts.

(** The greedy run of [\s] takes all the leading white space. *)
Lemma star_space (k : cont) (fuel : nat) (prev : option char)
    (t : jsstring) (cs : captures) :
  (forall p r c, k p r c = Some (r, c)) ->
  length t <= fuel ->
  star_loop (matcher false (Class is_space)) true k fuel prev t cs
  = Some (trimLeft t, cs).
Proof.
  intros Hk. revert prev t.
  induction fuel as [|fuel IH]; intros prev t Hlen.
  - destruct t; [|cbn in Hlen; lia]. cbn. apply Hk.
  - cbn [star_loop matcher]. destruct t as [|x t].
    + cbn. apply Hk.
    + cbn [trimLeft]. destruct (is_space x) eqn:E.
      * assert (Hlt : (length t <? length (x :: t)) = true)
          by (apply Nat.ltb_lt; cbn; lia).
        rewrite Hlt, IH; [reflexivity|]. cbn in Hlen. lia.
      * apply Hk.
Qed.

(** After the first unit the anchored pattern matches nowhere. *)
Lemma leading_space_anchored (c : char) (rest : jsstring) (idx : nat) :
  search false re_leading_space (Some c) rest idx = None.
Proof.
  revert c idx. induction rest as [|x rest IH]; intros c idx.
  - reflexivity.
  - cbn [search]. change (match_here false re_leading_space (Some c)
                            (x :: rest) idx) with (@None found).
    apply IH.
Qed.

Lemma trimLeft_length (s : jsstring) : length (trimLeft s) <= length s.
Proof.
  induction s as [|c s IH]; cbn; [lia|].
  destruct (is_space c); cbn; lia.
Qed.

Lemma trimLeft_idempotent (s : jsstring) : trimLeft (trimLeft s) = trimLeft s.
Proof.
  induction s as [|c s IH]; cbn; [reflexivity|].
  destruct (is_space c) eqn:E; [exact IH|]. cbn. now rewrite E.
Qed.

(** Replacing [/^\s+/g] by the empty string is [s.trimLeft()]. *)
Lemma leading_space_trimLeft (s : jsstring) :
  replace_all false re_leading_space [] s = trimLeft s.
Proof.
  unfold replace_all. destruct s as [|c t]; [reflexivity|].
  cbn [length scan search trimLeft].
  destruct (is_space c) eqn:E.
  - assert (Hm : match_here false re_leading_space None (c :: t) 0
                 = Some {| index := 0;
                           matched := consumed (c :: t) (trimLeft t);
                           groups := []; after := trimLeft t |}).
    { unfold match_here, re_leading_space, Seq, Plus.
      cbn [fold_right matcher]. rewrite E.
      rewrite star_space; [reflexivity|reflexivity|apply le_n]. }
    rewrite Hm. cbn [index matched after firstn app].
    pose proof (trimLeft_length t) as Hl.
    unfold consumed. cbn [length].
    replace (S (length t) - length (trimLeft t))
      with (S (length t - length (trimLeft t))) by lia.
    cbn [firstn].
    set (m := firstn (length t - length (trimLeft t)) t).
    assert (Hp : exists x, last_char None (c :: m) = Some x).
    { unfold last_char. destruct (rev (c :: m)) eqn:Er; [|eauto].
      apply (f_equal (@length _)) in Er. rewrite length_rev in Er.
      discriminate. }
    destruct Hp as [x Hx]. rewrite Hx.
    rewrite leading_space_anchored. reflexivity.
  - assert (Hm : match_here false re_leading_space None (c :: t) 0 = None).
    { unfold match_here, re_leading_space, Seq, Plus.
      cbn [fold_right matcher]. now rewrite E. }
    rewrite Hm, leading_space_anchored. reflexivity.
Qed.

Lemma endsWith_app (p s : jsstring) : endsWith p (s ++ p) = true.
Proof.
  unfold endsWith. rewrite rev_app_distr. apply startsWith_app.
Qed.

Lemma includes_app (p a b : jsstring) : includes p (a ++ p ++ b) = true.
Proof.
  induction a as [|x a IH].
  - cbn [app]. destruct (p ++ b) eqn:E; cbn [includes];
      rewrite <- E, startsWith_app; reflexivity.
  - cbn [app includes]. rewrite IH. apply orb_true_r.
Qed.

Lemma endsWith_cons (p s : jsstring) (c : char) :
  p <> [] -> endsWith p s = true -> endsWith p (c :: s) = true.
Proof.
  unfold endsWith. intros Hp H. cbn [rev].
  assert (Hr : rev p <> []).
  { intros E. apply Hp. apply (f_equal (@rev _)) in E.
    now rewrite rev_involutive in E. }
  revert H Hr. generalize (rev p) (rev s). clear.
  intros q. induction q as [|x q IH]; intros r H Hr; [congruence|].
  destruct r as [|y r]; [discriminate|]. cbn in *.
  apply andb_true_iff in H. destruct H as [-> H]. cbn.
  destruct q as [|x' q]; [reflexivity|]. apply IH; [exact H|discriminate].
Qed.

(** X17. The completion handed to the final stage never begins with white
    space: the leading white space of the cleaned text is removed, and the
    closing of an open [console.log(] call only adds a quotation mark in
    front. *)
Theorem sanitized_has_no_leading_space
    (language currentLineUptoCursor raw : jsstring) :
  trimLeft (sanitize language currentLineUptoCursor raw)
  = sanitize language currentLineUptoCursor raw.
Proof.
  unfold sanitize. rewrite leading_space_trimLeft.
  set (body := replace_all false re_crlf [LF]
                 (cleanCompletion_in language raw)).
  assert (Hq : forall x, trimLeft ([dquote] ++ x) = [dquote] ++ x)
    by reflexivity.
  assert (Ha : forall y, trimLeft (trimLeft body ++ y) = trimLeft body ++ y
                         \/ trimLeft body = []).
  { intros y. destruct (trimLeft body) as [|c t] eqn:Et; [now right|left].
    pose proof (trimLeft_idempotent body) as Hi. rewrite Et in Hi.
    cbn [trimLeft] in Hi. cbn [app trimLeft].
    destruct (is_space c); [|reflexivity].
    exfalso. pose proof (trimLeft_length t) as Hl. rewrite Hi in Hl.
    cbn in Hl. lia. }
  destruct (includes (js "console.log(") currentLineUptoCursor).
  - destruct (negb (endsWith (js ")") (trimLeft body))).
    + match goal with
      | |- context [if ?b then _ else _] => destruct b
      end; [apply Hq|].
      destruct (Ha ([dquote] ++ js ")")) as [H | H]; [exact H|].
      rewrite H. reflexivity.
    + match goal with
      | |- context [if ?b then _ else _] => destruct b
      end; [apply Hq|]. apply trimLeft_idempotent.
  - apply trimLeft_idempotent.
Qed.

(** X18. On a line that holds [console.log(], the completion handed to the
    final stage always ends with a closing parenthesis and holds a
    quotation mark, whatever the model answered. *)
Theorem console_log_call_is_closed
    (language currentLineUptoCursor raw : jsstring) :
  includes (js "console.log(") currentLineUptoCursor = true ->
  endsWith (js ")") (sanitize language currentLineUptoCursor raw) = true
  /\ (includes [dquote] (sanitize language currentLineUptoCursor raw) = true
      \/ includes [squote] (sanitize language currentLineUptoCursor raw)
         = true).
Proof.
  intros Hline. unfold sanitize. rewrite Hline.
  set (body := replace_all false re_leading_space []
                 (replace_all false re_crlf [LF]
                    (cleanCompletion_in language raw))).
  destruct (endsWith (js ")") body) eqn:Ee; cbn [negb].
  - destruct (includes [dquote] body) eqn:Ed; cbn [negb andb].
    + split; [exact Ee|now left].
    + destruct (includes [squote] body) eqn:Es; cbn [negb].
      * split; [exact Ee|now right].
      * split.
        -- apply endsWith_cons; [discriminate|exact Ee].
        -- left. apply (includes_app [dquote] [] body).
  - assert (Hd : includes [dquote] (body ++ [dquote] ++ js ")") = true)
      by apply includes_app.
    rewrite Hd. cbn [negb andb]. split.
    + replace (body ++ [dquote] ++ js ")")
        with ((body ++ [dquote]) ++ js ")") by now rewrite <- app_assoc.
      apply endsWith_app.
    + now left.
Qed.

Lemma console_log_call_is_closed_witness :
  endsWith (js ")")
    (sanitize (js "javascript") open_console_log (js "hello")) = true
  /\ (includes [dquote]
        (sanitize (js "javascript") open_console_log (js "hello")) = true
      \/ includes [squote]
           (sanitize (js "javascript") open_console_log (js "hello"))
         = true).
Proof.
  apply (console_log_call_is_closed (js "javascript") open_console_log
           (js "hello")).
  vm_compute. reflexivity.
Defined.

End SanitizerCoverage.
